(** * Lattice sums for periodic arrays of plasmonic nanoparticles

    A shallow embedding of [plasmonic_lattice.py], [ewald_test.py] and
    [archive/_extended_cell.py]: the lattice generators, the direct dyadic
    Green's-function sums, the Ewald split sums with their self-term limits,
    and the interaction-matrix assembler.

    Number model.  Python floats are read as real numbers ([R]) and Python
    complex numbers as pairs of reals ([C]); rounding is not modelled, so every
    equation below is an equation of exact arithmetic.  Division follows
    [Rinv], which is total.  The special functions of [scipy.special] (Hankel
    functions, generalised exponential integrals) are external numerical
    primitives and enter through the class [SpecialFunctions]. *)

From Stdlib Require Import Reals Lra Lia List ZArith Bool Psatz Permutation.
Import ListNotations.

Open Scope R_scope.

(** ** Complex numbers *)

Record C : Type := mkC { Re : R; Im : R }.

Declare Scope C_scope.
Delimit Scope C_scope with C.
Bind Scope C_scope with C.

Definition RtoC (x : R) : C := mkC x 0.
Definition C0 : C := mkC 0 0.
Definition C1 : C := mkC 1 0.
(** The imaginary unit, Python's [1j]. *)
Definition Ci : C := mkC 0 1.

Definition Cadd (a b : C) : C := mkC (Re a + Re b) (Im a + Im b).
Definition Copp (a : C) : C := mkC (- Re a) (- Im a).
Definition Csub (a b : C) : C := mkC (Re a - Re b) (Im a - Im b).
Definition Cmul (a b : C) : C :=
  mkC (Re a * Re b - Im a * Im b) (Re a * Im b + Im a * Re b).
Definition Cinv (a : C) : C :=
  mkC (Re a / (Re a * Re a + Im a * Im a))
      (- Im a / (Re a * Re a + Im a * Im a)).
Definition Cdiv (a b : C) : C := Cmul a (Cinv b).
(** [np.conjugate] *)
Definition Cconj (a : C) : C := mkC (Re a) (- Im a).
(** [np.exp] on a complex argument *)
Definition Cexp (a : C) : C := mkC (exp (Re a) * cos (Im a)) (exp (Re a) * sin (Im a)).

(** [z ** n] for a non-negative integer exponent *)
Fixpoint Cpow (z : C) (n : nat) : C :=
  match n with
  | O => C1
  | S p => Cmul z (Cpow z p)
  end.

Infix "+" := Cadd : C_scope.
Infix "-" := Csub : C_scope.
Infix "*" := Cmul : C_scope.
Infix "/" := Cdiv : C_scope.
Notation "- x" := (Copp x) : C_scope.

(** ** Plane vectors and 2x2 arrays *)

Definition vec : Type := (R * R)%type.

Definition vadd (u v : vec) : vec := (fst u + fst v, snd u + snd v).
Definition vsub (u v : vec) : vec := (fst u - fst v, snd u - snd v).
Definition vneg (u : vec) : vec := (- fst u, - snd u).
Definition vscale (c : R) (u : vec) : vec := (c * fst u, c * snd u).
Definition vdiv (u : vec) (c : R) : vec := (fst u / c, snd u / c).
(** [np.dot] of two vectors *)
Definition dot (u v : vec) : R := fst u * fst v + snd u * snd v.
(** [np.cross] of two plane vectors *)
Definition cross (u v : vec) : R := fst u * snd v - snd u * fst v.
(** [np.linalg.norm] *)
Definition norm (u : vec) : R := sqrt (fst u * fst u + snd u * snd u).
(** [np.dot(R, v)] for the rotation matrix [R = [[0, -1], [1, 0]]] *)
Definition rotR (v : vec) : vec := (0 * fst v + -1 * snd v, 1 * fst v + 0 * snd v).

(** A 2x2 complex array [[[xx, xy], [yx, yy]]]. *)
Record mat2 : Type := mkMat2 { m00 : C; m01 : C; m10 : C; m11 : C }.

Definition mat2_zero : mat2 := mkMat2 C0 C0 C0 C0.
Definition mat2_add (a b : mat2) : mat2 :=
  mkMat2 (m00 a + m00 b) (m01 a + m01 b) (m10 a + m10 b) (m11 a + m11 b).
(** Array times complex scalar. *)
Definition mat2_scale (a : mat2) (z : C) : mat2 :=
  mkMat2 (m00 a * z) (m01 a * z) (m10 a * z) (m11 a * z).
Definition mat2_transpose (a : mat2) : mat2 :=
  mkMat2 (m00 a) (m10 a) (m01 a) (m11 a).

(** ** Loops *)

(** [np.arange(lo, hi)] on integers. *)
Definition arange (lo hi : Z) : list Z :=
  map (fun i => (lo + Z.of_nat i)%Z) (seq 0 (Z.to_nat (hi - lo))).

(** [_sum = 0; for x in l: _sum += f(x)] *)
Definition Rfor_sum {A : Type} (l : list A) (f : A -> R) : R :=
  fold_left (fun _sum x => _sum + f x) l 0.
Definition Cfor_sum {A : Type} (l : list A) (f : A -> C) : C :=
  fold_left (fun _sum x => (_sum + f x)%C) l C0.
(** The builtin [sum] over a list of 2x2 arrays. *)
Definition mat2_sum (l : list mat2) : mat2 := fold_left mat2_add l mat2_zero.

(** [itertools.combinations(indices, 2)] *)
Fixpoint combinations2 (l : list nat) : list (nat * nat) :=
  match l with
  | [] => []
  | x :: tl => map (pair x) tl ++ combinations2 tl
  end.

(** ** Constants and external primitives *)

(** [ev = (1.602*10**-19 * 2 * np.pi)/(6.626*10**-34 * 2.997*10**8)], the
    frequency to wavenumber conversion. *)
Definition ev : R :=
  (1.602 * / 10 ^ 19 * 2 * PI) / (6.626 * / 10 ^ 34 * 2.997 * 10 ^ 8).

(** [np.arctan2(y, x)] *)
Definition arctan2 (y x : R) : R :=
  if Rlt_dec 0 x then atan (y / x)
  else if Rlt_dec x 0 then
         if Rle_dec 0 y then atan (y / x) + PI else atan (y / x) - PI
  else if Rlt_dec 0 y then PI / 2
  else if Rlt_dec y 0 then - PI / 2
  else 0.

(** [scipy.special.hankel1(n, x)], [scipy.special.expn(n, x)] and
    [scipy.special.expi(x)]. *)
Class SpecialFunctions : Type := {
  hankel1 : nat -> R -> C;
  expn : nat -> R -> R;
  expi : R -> R
}.

(** [_type] of [getLattice] *)
Inductive lattice_type : Type := bravais | reciprocal.

(** [_type] of the dyadic Ewald terms *)
Inductive component : Type := xx | xy | yy.

(** [class Particle] *)
Record Particle : Type := mkParticle {
  pos : vec;
  radius : R;
  plasma : R;
  loss : R
}.

(** [Particle.getPermittivity], at a real frequency *)
Definition getPermittivity (self : Particle) (w : R) : C :=
  (RtoC 1 - RtoC (plasma self ^ 2) / (RtoC (w ^ 2) - Ci * RtoC (loss self) * RtoC w))%C.

(** [Particle.getPolarisability], at a real frequency *)
Definition getPolarisability (self : Particle) (w : R) : C :=
  let k := w * ev in
  let permittivity := getPermittivity self w in
  let eps := ((permittivity - RtoC 1) / (permittivity + RtoC 1))%C in
  (RtoC (2 * PI * radius self ^ 2) * eps
   / (RtoC 1 - mkC 0 0.25 * RtoC PI * RtoC ((k * radius self) ^ 2) * eps))%C.

(** ** A small error monad

    [None] stands for a raised Python exception ([AttributeError],
    [IndexError], [RecursionError]). *)

Definition bind {A B : Type} (m : option A) (f : A -> option B) : option B :=
  match m with
  | Some a => f a
  | None => None
  end.

Notation "x <- m ;; k" := (bind m (fun x => k))
  (at level 61, m at next level, right associativity).

(** A list comprehension whose element expression may raise. *)
Fixpoint mapM {A B : Type} (f : A -> option B) (l : list A) : option (list B) :=
  match l with
  | [] => Some []
  | a :: tl => b <- f a ;; bs <- mapM f tl ;; Some (b :: bs)
  end.

(** A [for] loop over [l] updating [acc], whose body may raise. *)
Fixpoint foldM {A S : Type} (f : S -> A -> option S) (l : list A) (acc : S) : option S :=
  match l with
  | [] => Some acc
  | a :: tl => acc' <- f acc a ;; foldM f tl acc'
  end.

(** ** Dense complex arrays

    A [numpy] array of complex entries indexed by row and column.  Entries
    outside the allocated shape are never read by the code and read as the
    initial value here. *)

Definition matrix : Type := nat -> nat -> C.

(** [np.zeros(..., dtype=np.complex_)] *)
Definition zeros : matrix := fun _ _ => C0.

Definition mat2_entry (M : mat2) (i j : nat) : C :=
  match i, j with
  | O, O => m00 M
  | O, S _ => m01 M
  | S _, O => m10 M
  | S _, S _ => m11 M
  end.

(** [H[2*r:2*r+2, 2*c:2*c+2] = M] *)
Definition set_block (H : matrix) (r c : nat) (M : mat2) : matrix :=
  fun i j =>
    if ((2 * r <=? i) && (i <? 2 * r + 2) && (2 * c <=? j) && (j <? 2 * c + 2))%nat
    then mat2_entry M (i - 2 * r) (j - 2 * c)
    else H i j.

(** [H[2*r:2*r+2, 2*c:2*c+2]] *)
Definition get_block (H : matrix) (r c : nat) : mat2 :=
  mkMat2 (H (2 * r) (2 * c))%nat (H (2 * r) (2 * c + 1))%nat
         (H (2 * r + 1) (2 * c))%nat (H (2 * r + 1) (2 * c + 1))%nat.

(** One round of the pair loop: block [(n, m)] then block [(m, n)], each
    from a table [D] of block values. *)
Definition pair_step (D : nat -> nat -> mat2) (H : matrix) (nm : nat * nat) : matrix :=
  let '(n, m) := nm in set_block (set_block H n m (D n m)) m n (D m n).

(** A 2x2 array seen as a dense array. *)
Definition of_mat2 (M : mat2) : matrix := set_block zeros 0 0 M.

(** [np.linalg.norm(v) != 0] *)
Definition norm_nonzero (v : vec) : bool :=
  if Req_dec_T (norm v) 0 then false else true.

(** ** Memoisation

    [memoize(f)] keeps a dictionary from argument tuples to results.  The
    dictionary is an association list threaded through the calls. *)

Section Memoize.

Context {K V : Type} (K_eq_dec : forall a b : K, {a = b} + {a <> b}).

Fixpoint cache_lookup (cache : list (K * V)) (args : K) : option V :=
  match cache with
  | [] => None
  | (k, v) :: tl => if K_eq_dec args k then Some v else cache_lookup tl args
  end.

(** [decorated_function], called on the argument tuple [args] *)
Definition memoize (f : K -> V) (args : K) (cache : list (K * V)) : V * list (K * V) :=
  match cache_lookup cache args with
  | Some v => (v, cache)
  | None => let v := f args in (v, (args, v) :: cache)
  end.

(** Every stored result is the result of the decorated function. *)
Definition cache_coherent (f : K -> V) (cache : list (K * V)) : Prop :=
  forall k v, cache_lookup cache k = Some v -> v = f k.

End Memoize.

(** ** The lattice classes of [plasmonic_lattice.py] *)

(** [class Square] *)
Module Square.

Record t : Type := mk {
  spacing : R;
  scaling : R;
  neighbours : Z;
  particle_radius : R;
  wp : R;
  particle_loss : R
}.

Definition getLatticeVectors (self : t) : vec * vec :=
  let a1 := (0, scaling self * spacing self) in
  let a2 := (scaling self * spacing self, 0) in
  (a1, a2).

Definition getReciprocalVectors (self : t) : vec * vec :=
  let '(a1, a2) := getLatticeVectors self in
  let b1 := vdiv (vscale (2 * PI) (rotR a2)) (dot a1 (rotR a2)) in
  let b2 := vdiv (vscale (2 * PI) (rotR a1)) (dot a2 (rotR a1)) in
  (b1, b2).

Definition getUnitCell (self : t) : list Particle :=
  [mkParticle (0, 0) (particle_radius self) (wp self) (particle_loss self)].

(** [Square.getNeighbours] *)
Definition getNeighbours (self : t) : list vec :=
  let '(t1, t2) := getLatticeVectors self in
  let lattice_range := arange (- neighbours self) (neighbours self + 1) in
  flat_map
    (fun '(i, j) =>
       if negb (i =? 0)%Z || negb (j =? 0)%Z
       then [vadd (vscale (IZR i) t1) (vscale (IZR j) t2)]
       else [])
    (list_prod lattice_range lattice_range).

Definition getLattice (self : t) (_type : lattice_type) (origin : bool) : list vec :=
  let '(t1, t2) :=
    match _type with
    | bravais => getLatticeVectors self
    | reciprocal => getReciprocalVectors self
    end in
  let lattice_range := arange (- neighbours self) (neighbours self + 1) in
  flat_map
    (fun '(i, j) =>
       if origin then [vadd (vscale (IZR i) t1) (vscale (IZR j) t2)]
       else if negb (i =? 0)%Z || negb (j =? 0)%Z
            then [vadd (vscale (IZR i) t1) (vscale (IZR j) t2)]
            else [])
    (list_prod lattice_range lattice_range).

Definition getCellSize (self : t) : nat := 1.

Definition getSpacing (self : t) : R := spacing self.

End Square.

(** [class Triangle]; its [getLattice] reads neither argument. *)
Module Triangle.

Record t : Type := mk {
  spacing : R;
  scaling : R;
  neighbours : Z;
  particle_radius : R;
  wp : R;
  particle_loss : R
}.

Definition t1 (self : t) : vec := (spacing self / 2, spacing self * sqrt 3 / 2).
Definition t2 (self : t) : vec := (spacing self, 0).

Definition getLatticeVectors (self : t) : vec * vec := (t1 self, t2 self).

Definition getUnitCell (self : t) : list Particle :=
  [mkParticle (0, 0) (particle_radius self) (wp self) (particle_loss self)].

Definition getLattice (self : t) (_type : lattice_type) (origin : bool) : list vec :=
  let lattice_range := arange (- neighbours self) (neighbours self + 1) in
  flat_map
    (fun '(i, j) =>
       if negb (i =? 0)%Z || negb (j =? 0)%Z
       then [vadd (vscale (IZR i) (t1 self)) (vscale (IZR j) (t2 self))]
       else [])
    (list_prod lattice_range lattice_range).

Definition getCellSize (self : t) : nat := 1.

Definition getSpacing (self : t) : R := spacing self.

End Triangle.

(** [class SimpleHoneycomb]; its [getLattice] reads neither argument. *)
Module SimpleHoneycomb.

Record t : Type := mk {
  spacing : R;
  scaling : R;
  neighbours : Z;
  particle_radius : R;
  wp : R;
  particle_loss : R
}.

Definition getUnitCell (self : t) : list Particle :=
  map (fun '(x, y) => mkParticle (x, y) (particle_radius self) (wp self) (particle_loss self))
      [(0, 0); (spacing self, 0)].

Definition getLattice (self : t) (_type : lattice_type) (origin : bool) : list vec :=
  let number := neighbours self in
  let t1 := (scaling self * 1.5 * spacing self, scaling self * spacing self * sqrt 3 / 2) in
  let t2 := (scaling self * 1.5 * spacing self, - scaling self * spacing self * sqrt 3 / 2) in
  map (fun '(n, m) => vadd (vscale (IZR n) t1) (vscale (IZR m) t2))
      (list_prod (arange (- number) (number + 1)) (arange (- number) (number + 1))).

Definition getCellSize (self : t) : nat := 2.

End SimpleHoneycomb.

(** [class Honeycomb].  [getReciprocalVectors] reads the attributes [self.a1]
    and [self.a2], which no method sets: the call raises [AttributeError],
    here [None]. *)
Module Honeycomb.

Record t : Type := mk {
  spacing : R;
  scaling : R;
  neighbours : Z;
  particle_radius : R;
  wp : R;
  particle_loss : R
}.

Definition getLatticeVectors (self : t) : vec * vec :=
  let b := 3 * spacing self * scaling self in
  let a1 := (b, 0) in
  let a2 := (b / 2, sqrt 3 * b / 2) in
  (a1, a2).

Definition getReciprocalVectors (self : t) : option (vec * vec) := None.

Definition getUnitCell (self : t) : list Particle :=
  map (fun '(x, y) => mkParticle (x, y) (particle_radius self) (wp self) (particle_loss self))
      [ (spacing self, 0);
        (spacing self * 0.5, - spacing self * sqrt 3 / 2);
        (- spacing self * 0.5, - spacing self * sqrt 3 / 2);
        (- spacing self, 0);
        (- spacing self * 0.5, spacing self * sqrt 3 / 2);
        (spacing self * 0.5, spacing self * sqrt 3 / 2) ].

(** The double loop of [getLattice] over the hexagonal supercell. *)
Definition points (number : Z) (t1 t2 : vec) : list vec :=
  flat_map
    (fun n =>
       if (n <? 0)%Z then
         map (fun m => vadd (vscale (IZR n) t1) (vscale (IZR m) t2))
             (arange (- n - number) (number + 1))
       else if (0 <? n)%Z then
         map (fun m => vadd (vscale (IZR n) t1) (vscale (IZR m) t2))
             (arange (- number) (number - n + 1))
       else
         map (fun m => vadd (vscale (IZR n) t1) (vscale (IZR m) t2))
             (arange (- number) (number + 1)))
    (arange (- number) (number + 1)).

Definition getLattice (self : t) (_type : lattice_type) (origin : bool)
  : option (list vec) :=
  match _type with
  | bravais =>
      let '(t1, t2) := getLatticeVectors self in
      Some (points (neighbours self) t1 t2)
  | reciprocal =>
      match getReciprocalVectors self with
      | Some (t1, t2) => Some (points (neighbours self) t1 t2)
      | None => None
      end
  end.

Definition getCellSize (self : t) : nat := 6.

End Honeycomb.

(** ** [class Interaction] of [plasmonic_lattice.py] *)

Module Interaction.

(** What [Interaction] asks of its [cell]. *)
Class CellLike (T : Type) : Type := {
  getUnitCell : T -> list Particle;
  getLattice : T -> lattice_type -> bool -> option (list vec);
  getCellSize : T -> nat
}.

#[global] Instance Square_cell : CellLike Square.t := {
  getUnitCell := Square.getUnitCell;
  getLattice := fun self _type origin => Some (Square.getLattice self _type origin);
  getCellSize := Square.getCellSize
}.

#[global] Instance Triangle_cell : CellLike Triangle.t := {
  getUnitCell := Triangle.getUnitCell;
  getLattice := fun self _type origin => Some (Triangle.getLattice self _type origin);
  getCellSize := Triangle.getCellSize
}.

#[global] Instance SimpleHoneycomb_cell : CellLike SimpleHoneycomb.t := {
  getUnitCell := SimpleHoneycomb.getUnitCell;
  getLattice := fun self _type origin => Some (SimpleHoneycomb.getLattice self _type origin);
  getCellSize := SimpleHoneycomb.getCellSize
}.

#[global] Instance Honeycomb_cell : CellLike Honeycomb.t := {
  getUnitCell := Honeycomb.getUnitCell;
  getLattice := Honeycomb.getLattice;
  getCellSize := Honeycomb.getCellSize
}.

Section WithCell.

Context {T : Type} `{CellLike T} `{SpecialFunctions}.

Record t : Type := mk { q : vec; cell : T }.

(** [Interaction.green] *)
Definition green (w : R) (distance : vec) : mat2 :=
  let k := w * ev in
  let x := fst distance in
  let y := snd distance in
  let R := norm distance in
  let arg := k * R in
  let xx_type :=
    (mkC 0 0.25 * RtoC (k ^ 2)
     * (RtoC (y ^ 2 / R ^ 2) * hankel1 0 arg
        + RtoC ((x ^ 2 - y ^ 2) / (k * R ^ 3)) * hankel1 1 arg))%C in
  let yy_type :=
    (mkC 0 0.25 * RtoC (k ^ 2)
     * (RtoC (x ^ 2 / R ^ 2) * hankel1 0 arg
        - RtoC ((x ^ 2 - y ^ 2) / (k * R ^ 3)) * hankel1 1 arg))%C in
  let xy_type :=
    (mkC 0 0.25 * RtoC (k ^ 2) * RtoC x * RtoC y / RtoC (R ^ 2) * hankel1 2 arg)%C in
  mkMat2 xx_type xy_type xy_type yy_type.

(** The Bloch phase [np.exp(1j * np.dot(self.q, inter))]. *)
Definition bloch (self : t) (inter : vec) : C :=
  Cexp (Ci * RtoC (dot (q self) inter)).

(** [sum([self.green(w, -intracell[n].pos + intracell[m].pos + inter)
          * np.exp(1j * np.dot(self.q, inter)) for inter in intercell])] *)
Definition pair_sum (self : t) (w : R) (intracell : list Particle)
  (intercell : list vec) (n m : nat) : option mat2 :=
  terms <- mapM (fun inter =>
                   pn <- nth_error intracell n ;;
                   pm <- nth_error intracell m ;;
                   Some (mat2_scale
                           (green w (vadd (vadd (vneg (pos pn)) (pos pm)) inter))
                           (bloch self inter)))
                intercell ;;
  Some (mat2_sum terms).

(** The diagonal block: the self-cell sum without the zero lattice vector. *)
Definition self_sum (self : t) (w : R) (intercell : list vec) : mat2 :=
  let to_sum :=
    map (fun inter => mat2_scale (green w inter) (bloch self inter))
        (filter norm_nonzero intercell) in
  mat2_sum to_sum.

(** [Interaction.interactionMatrix] *)
Definition interactionMatrix (self : t) (w : R) : option matrix :=
  let intracell := getUnitCell (cell self) in
  intercell <- getLattice (cell self) bravais false ;;
  let cell_size := getCellSize (cell self) in
  let indices := seq 0 cell_size in
  if (cell_size =? 1)%nat then
    Some (of_mat2
            (mat2_sum (map (fun inter => mat2_scale (green w inter) (bloch self inter))
                           intercell)))
  else
    H0 <- foldM (fun H '(n, m) =>
                   upper <- pair_sum self w intracell intercell n m ;;
                   let H := set_block H n m upper in
                   lower <- pair_sum self w intracell intercell m n ;;
                   Some (set_block H m n lower))
                (combinations2 indices) zeros ;;
    Some (fold_left (fun H n => set_block H n n (self_sum self w intercell))
                    indices H0).

End WithCell.

Arguments t : clear implicits.

End Interaction.

(** ** [class Ewald] of [plasmonic_lattice.py] *)

Module Ewald.

(** What [Ewald] asks of its [lattice]. *)
Class LatticeLike (L : Type) : Type := {
  getLatticeVectors : L -> vec * vec;
  getLattice : L -> lattice_type -> bool -> list vec
}.

#[global] Instance Square_lattice : LatticeLike Square.t := {
  getLatticeVectors := Square.getLatticeVectors;
  getLattice := Square.getLattice
}.

#[global] Instance Triangle_lattice : LatticeLike Triangle.t := {
  getLatticeVectors := Triangle.getLatticeVectors;
  getLattice := Triangle.getLattice
}.

Section WithLattice.

Context {L : Type} `{LatticeLike L} `{SpecialFunctions}.

Record t : Type := mk {
  q : vec;
  lattice : L;
  pos : vec;
  E : R;
  j_max : nat
}.

Definition ewaldG1 (self : t) (w : R) : C :=
  let k := w * ev in
  let '(a1, a2) := getLatticeVectors (lattice self) in
  let area := cross a1 a2 in
  Cfor_sum (getLattice (lattice self) reciprocal true)
    (fun G_pos =>
       (RtoC (- (1 / area))
        * (Cexp (Ci * RtoC (dot (vadd (q self) G_pos) (pos self)))
           * RtoC (exp ((k ^ 2 - norm (vadd (q self) G_pos) ^ 2) / (4 * E self ^ 2))))
        / RtoC (norm (vadd (q self) G_pos) ^ 2 - k ^ 2))%C).

Definition integralFunc (self : t) (separation w : R) : R :=
  let k := w * ev in
  Rfor_sum (seq 0 (j_max self + 1))
    (fun j => (1 / INR (fact j)) * (k / (2 * E self)) ^ (2 * j)
              * expn (j + 1) (separation ^ 2 * E self ^ 2)).

Definition ewaldG2 (self : t) (w : R) : C :=
  Cfor_sum (getLattice (lattice self) bravais true)
    (fun R_pos =>
       let distance := norm (vsub (pos self) R_pos) in
       (RtoC (- (1 / (4 * PI))) * Cexp (Ci * RtoC (dot (q self) R_pos))
        * RtoC (integralFunc self distance w))%C).

Definition monopolarSum (self : t) (w : R) : C :=
  (ewaldG1 self w + ewaldG2 self w)%C.

Definition dyadicEwaldG1 (self : t) (w : R) (_type : component) : C :=
  let k := w * ev in
  let '(a1, a2) := getLatticeVectors (lattice self) in
  let area := cross a1 a2 in
  Cfor_sum (getLattice (lattice self) reciprocal true)
    (fun G_pos =>
       let beta := vadd (q self) G_pos in
       let beta_norm := norm beta in
       let weight :=
         match _type with
         | xx => k ^ 2 + fst beta ^ 2
         | xy => fst beta * snd beta
         | yy => k ^ 2 + snd beta ^ 2
         end in
       (RtoC (weight * (1 / area))
        * (Cexp (Ci * RtoC (dot beta (pos self)))
           * RtoC (exp ((k ^ 2 - beta_norm ^ 2) / (4 * E self ^ 2))))
        / RtoC (beta_norm ^ 2 - k ^ 2))%C).

Definition dyadicIntegralFunc (self : t) (w : R) (rho : vec) (_type : component) : R :=
  let k := w * ev in
  let rho_norm := norm rho in
  Rfor_sum (seq 1 (j_max self))
    (fun j =>
       ((1 / INR (fact j)) * (k / (2 * E self)) ^ (2 * j))
       * match _type with
         | xx => 4 * fst rho ^ 2 * E self ^ 4 * expn (j - 1) (rho_norm ^ 2 * E self ^ 2)
                 - 2 * E self ^ 2 * expn j (rho_norm ^ 2 * E self ^ 2)
         | xy => 4 * fst rho * snd rho * E self ^ 4 * expn (j - 1) (rho_norm ^ 2 * E self ^ 2)
         | yy => 4 * snd rho ^ 2 * E self ^ 4 * expn (j - 1) (rho_norm ^ 2 * E self ^ 2)
                 - 2 * E self ^ 2 * expn j (rho_norm ^ 2 * E self ^ 2)
         end).

Definition dyadicEwaldG2 (self : t) (w : R) (_type : component) : C :=
  let k := w * ev in
  let _sum :=
    Cfor_sum (getLattice (lattice self) bravais true)
      (fun R_pos =>
         let rho := vsub (pos self) R_pos in
         let rho_norm := norm rho in
         (Cexp (Ci * RtoC (dot (q self) R_pos))
          * RtoC (dyadicIntegralFunc self w rho _type
                  + match _type with
                    | xx => exp (- rho_norm ^ 2 * E self ^ 2) / rho_norm ^ 2
                            * (4 * fst rho ^ 2 / rho_norm ^ 2
                               * (rho_norm ^ 2 * E self ^ 2 + 1) - 2)
                    | xy => exp (- rho_norm ^ 2 * E self ^ 2)
                            * (4 * fst rho * snd rho / rho_norm ^ 2)
                            * (rho_norm ^ 2 * E self ^ 2 + 1)
                    | yy => exp (- rho_norm ^ 2 * E self ^ 2) / rho_norm ^ 2
                            * (4 * snd rho ^ 2 / rho_norm ^ 2
                               * (rho_norm ^ 2 * E self ^ 2 + 1) - 2)
                    end))%C) in
  (_sum / RtoC (4 * PI))%C.

(** [t0] *)
Definition t0 (self : t) (w : R) : C :=
  let k := w * ev in
  (RtoC (-1) - Ci / RtoC PI * RtoC (expi (k ^ 2 / (4 * E self ^ 2))))%C.

(** One summand of [t1_lim] at harmonic order [n >= 0]. *)
Definition t1_term (self : t) (k area : R) (n : Z) (G_pos : vec) : C :=
  let beta := vadd (q self) G_pos in
  let beta_norm := norm beta in
  let phi := arctan2 (snd beta) (fst beta) in
  (RtoC 4 * Cpow Ci (Z.to_nat (n + 1)) / RtoC area * RtoC 1
   / RtoC (k ^ 2 - beta_norm ^ 2)
   * RtoC (exp ((k ^ 2 - beta_norm ^ 2) / (4 * E self ^ 2)))
   * RtoC ((beta_norm / k) ^ Z.to_nat n)
   * Cexp ((- Ci) * RtoC (IZR n) * RtoC phi))%C.

(** [t1_lim], the function under the [@memoize] decorator. *)
Definition t1_lim (self : t) (w : R) (n : Z) : C :=
  let k := w * ev in
  let '(a1, a2) := getLatticeVectors (lattice self) in
  let area := cross a1 a2 in
  let _sum :=
    Cfor_sum (getLattice (lattice self) reciprocal true)
      (fun G_pos =>
         if (0 <? n)%Z || (n =? 0)%Z then t1_term self k area n G_pos
         else if (n <? 0)%Z then
                let m := Z.abs n in t1_term self k area m G_pos
         else C0) in
  if (n <? 0)%Z then (- Cconj _sum)%C else _sum.

Definition t2IntegralFunc (self : t) (dist w : R) (j_min : nat) : R :=
  let k := w * ev in
  fold_left
    (fun _sum j => 1 / INR (fact j) * (k / (2 * E self)) ^ (2 * j)
                   * expn (j + j_min) (dist ^ 2 * E self ^ 2))
    (seq 0 (j_max self + 1)) 0.

Definition t2_I_0 (self : t) (dist w : R) : R :=
  0.5 * t2IntegralFunc self dist w 1.

Definition t2_I_1 (self : t) (dist w : R) : R :=
  0.5 * E self ^ 2 * t2IntegralFunc self dist w 0.

Definition t2_I_2 (self : t) (dist w : R) : R :=
  let k := w * ev in
  E self ^ (2 * 1) / (2 * 1 * dist ^ 2) * exp (k ^ 2 / (4 * E self ^ 2) - dist ^ 2 * E self ^ 2)
  + t2_I_1 self dist w / (2 * dist ^ 2)
  - k ^ 2 / (8 * dist ^ 2) * t2_I_0 self dist w.

(** One summand of [t2_lim] at harmonic order [n > 0]. *)
Definition t2_term (self : t) (w k : R) (n : Z) (R_pos : vec) : C :=
  let R_norm := norm R_pos in
  let alpha := arctan2 (snd R_pos) (fst R_pos) in
  (RtoC (- (2 ^ Z.to_nat (n + 1))) * (Ci / RtoC PI)
   * Cexp (Ci * RtoC (dot (q self) R_pos))
   * Cexp ((- Ci) * RtoC (IZR n) * RtoC alpha)
   * RtoC ((R_norm / k) ^ Z.to_nat n)
   * RtoC (t2_I_2 self R_norm w))%C.

(** [t2_lim], the function under the [@memoize] decorator. *)
Definition t2_lim (self : t) (w : R) (n : Z) : C :=
  let k := w * ev in
  let _sum :=
    Cfor_sum (getLattice (lattice self) bravais false)
      (fun R_pos =>
         let R_norm := norm R_pos in
         if (n =? 0)%Z then
           ((- mkC 0 2) / RtoC PI * Cexp (Ci * RtoC (dot (q self) R_pos))
            * RtoC (t2_I_0 self R_norm w))%C
         else if (0 <? n)%Z then t2_term self w k n R_pos
         else if (n <? 0)%Z then
                let m := Z.abs n in t2_term self w k m R_pos
         else C0) in
  if (n <? 0)%Z then (- Cconj _sum)%C else _sum.

(** The separations [R_norm] that [t2_lim] hands to [t2_I_0] and [t2_I_2],
    the latter dividing by their squares. *)
Definition t2_lim_separations (self : t) : list R :=
  map norm (getLattice (lattice self) bravais false).

(** The separations [rho_norm] by which the general-distance terms
    [dyadicEwaldG2] divide. *)
Definition general_separations (self : t) : list R :=
  map (fun R_pos => norm (vsub (pos self) R_pos))
      (getLattice (lattice self) bravais true).

(** The methods [dyadicSumEwald] calls, recorded in call order. *)
Inductive call : Type :=
| call_t0
| call_t1_lim (n : Z)
| call_t2_lim (n : Z)
| call_dyadicEwaldG1 (_type : component)
| call_dyadicEwaldG2 (_type : component)
| call_ewaldG2.

Definition traced (A : Type) : Type := (list call * A)%type.

Definition tret {A : Type} (a : A) : traced A := ([], a).

Definition tbind {A B : Type} (m : traced A) (f : A -> traced B) : traced B :=
  let '(l1, a) := m in
  let '(l2, b) := f a in
  (l1 ++ l2, b).

(** A method call: its name goes to the log, its value to the caller. *)
Definition invoke {A : Type} (c : call) (v : A) : traced A := ([c], v).

Notation "x <~ m ;; k" := (tbind m (fun x => k))
  (at level 61, m at next level, right associativity).

(** [dyadicSumEwald], logging the methods it calls. *)
Definition dyadicSumEwald_traced (self : t) (w : R) : traced mat2 :=
  let k := w * ev in
  if Req_dec_T (norm (pos self)) 0 then
    a <~ invoke call_t0 (t0 self w) ;;
    b <~ invoke (call_t1_lim 0) (t1_lim self w 0) ;;
    c <~ invoke (call_t2_lim 0) (t2_lim self w 0) ;;
    let h_0 := (a + b + c)%C in
    d <~ invoke (call_t1_lim 2) (t1_lim self w 2) ;;
    e <~ invoke (call_t2_lim 2) (t2_lim self w 2) ;;
    let h_pos2 := (d + e)%C in
    let h_neg2 := (- Cconj h_pos2)%C in
    let xx_comp :=
      (RtoC (- k ^ 2) * (Ci / RtoC 8 * h_0 + Ci / RtoC 16 * (h_neg2 + h_pos2)))%C in
    let xy_comp := (RtoC (- k ^ 2) * (RtoC (1 / 16) * (h_neg2 - h_pos2)))%C in
    let yy_comp :=
      (RtoC (- k ^ 2) * (Ci / RtoC 8 * h_0 - Ci / RtoC 16 * (h_neg2 + h_pos2)))%C in
    tret (mkMat2 xx_comp xy_comp xy_comp yy_comp)
  else
    g1xx <~ invoke (call_dyadicEwaldG1 xx) (dyadicEwaldG1 self w xx) ;;
    g2xx <~ invoke (call_dyadicEwaldG2 xx) (dyadicEwaldG2 self w xx) ;;
    mxx <~ invoke call_ewaldG2 (ewaldG2 self w) ;;
    let xx_comp := (g1xx + g2xx + RtoC (k ^ 2) * mxx)%C in
    g1xy <~ invoke (call_dyadicEwaldG1 xy) (dyadicEwaldG1 self w xy) ;;
    g2xy <~ invoke (call_dyadicEwaldG2 xy) (dyadicEwaldG2 self w xy) ;;
    let xy_comp := (g1xy + g2xy)%C in
    g1yy <~ invoke (call_dyadicEwaldG1 yy) (dyadicEwaldG1 self w yy) ;;
    g2yy <~ invoke (call_dyadicEwaldG2 yy) (dyadicEwaldG2 self w yy) ;;
    myy <~ invoke call_ewaldG2 (ewaldG2 self w) ;;
    let yy_comp := (g1yy + g2yy + RtoC (k ^ 2) * myy)%C in
    tret (mkMat2 xx_comp xy_comp xy_comp yy_comp).

(** [dyadicSumEwald] *)
Definition dyadicSumEwald (self : t) (w : R) : mat2 :=
  snd (dyadicSumEwald_traced self w).

(** The calls that belong to the general-distance branch. *)
Definition general_call (c : call) : bool :=
  match c with
  | call_dyadicEwaldG1 _ | call_dyadicEwaldG2 _ | call_ewaldG2 => true
  | _ => false
  end.

End WithLattice.

Arguments t : clear implicits.

End Ewald.

(** ** [ewald_test.py] *)

Module EwaldTest.

(** [class Lattice] *)
Module Lattice.

Record t : Type := mk {
  a1 : vec;
  a2 : vec;
  b1 : vec;
  b2 : vec
}.

(** [Lattice.__init__] *)
Definition init (a1 a2 : vec) : t :=
  mk a1 a2
     (vdiv (vscale (2 * PI) (rotR a2)) (dot a1 (rotR a2)))
     (vdiv (vscale (2 * PI) (rotR a1)) (dot a2 (rotR a1))).

Definition genBravais (self : t) (number : Z) (origin : bool) : list vec :=
  let neighbours := arange (- number) (number + 1) in
  flat_map
    (fun '(n, m) =>
       if negb origin then
         if negb (n =? 0)%Z || negb (m =? 0)%Z
         then [vadd (vscale (IZR n) (a1 self)) (vscale (IZR m) (a2 self))]
         else []
       else [vadd (vscale (IZR n) (a1 self)) (vscale (IZR m) (a2 self))])
    (list_prod neighbours neighbours).

Definition genReciprocal (self : t) (number : Z) (origin : bool) : list vec :=
  let neighbours := arange (- number) (number + 1) in
  flat_map
    (fun '(n, m) =>
       if negb origin then
         if negb (n =? 0)%Z || negb (m =? 0)%Z
         then [vadd (vscale (IZR n) (b1 self)) (vscale (IZR m) (b2 self))]
         else []
       else [vadd (vscale (IZR n) (b1 self)) (vscale (IZR m) (b2 self))])
    (list_prod neighbours neighbours).

Definition getBravaisVectors (self : t) : vec * vec := (a1 self, a2 self).

Definition getReciprocalVectors (self : t) : vec * vec := (b1 self, b2 self).

End Lattice.

(** The array [[xx, xy, yy]] of the three dyadic components. *)
Record dyad : Type := mkDyad { d_xx : C; d_xy : C; d_yy : C }.

Definition dyad_zero : dyad := mkDyad C0 C0 C0.
Definition dyad_add (a b : dyad) : dyad :=
  mkDyad (d_xx a + d_xx b) (d_xy a + d_xy b) (d_yy a + d_yy b).
Definition dyad_scale (a : dyad) (z : C) : dyad :=
  mkDyad (d_xx a * z) (d_xy a * z) (d_yy a * z).

(** [class Interaction] *)
Module Interaction.

Section WithSpecial.

Context `{SpecialFunctions}.

Record t : Type := mk {
  q : vec;
  lattice : Lattice.t;
  bravais_points : list vec;
  reciprocal_points : list vec;
  pos : vec
}.

(** [Interaction.__init__] *)
Definition init (q : vec) (lattice : Lattice.t) (neighbours : Z) (position : vec)
  (origin : bool) : t :=
  mk q lattice
     (Lattice.genBravais lattice neighbours origin)
     (Lattice.genReciprocal lattice neighbours true)
     position.

Definition monopolar_green (self : t) (w : R) (distance lat_vec : vec) : C :=
  let k := w * ev in
  (mkC 0 0.25 * hankel1 0 (k * norm distance) * Cexp (Ci * RtoC (dot (q self) lat_vec)))%C.

Definition monopolarSum (self : t) (w : R) : C :=
  Cfor_sum (bravais_points self)
    (fun i => monopolar_green self w (vsub (pos self) i) i).

Definition green_dyadic (self : t) (w : R) (distance lat_vec : vec) : dyad :=
  let k := w * ev in
  let x := fst distance in
  let y := snd distance in
  let R := norm distance in
  let theta := arctan2 y x in
  let arg := k * R in
  let a := (mkC 0 0.125 * hankel1 0 arg)%C in
  let b := (mkC 0 0.125 * hankel1 2 arg * RtoC (sin (2 * theta)))%C in
  let c := (mkC 0 0.125 * hankel1 2 arg * RtoC (cos (2 * theta)))%C in
  let xx_type := (a + c)%C in
  let xy_type := b in
  let yy_type := (a - c)%C in
  mkDyad xx_type xy_type yy_type.

Definition dyadicSum (self : t) (w : R) : dyad :=
  fold_left
    (fun _sum i =>
       dyad_add _sum
         (dyad_scale (green_dyadic self w (vsub (pos self) i) i)
                     (Cexp (Ci * RtoC (dot (q self) i)))))
    (bravais_points self) dyad_zero.

End WithSpecial.

End Interaction.

(** [class Ewald] *)
Module Ewald.

Section WithSpecial.

Context `{SpecialFunctions}.

Record t : Type := mk {
  q : vec;
  lattice : Lattice.t;
  bravais_points : list vec;
  reciprocal_points : list vec;
  pos : vec;
  E : R;
  j_max : nat;
  neighbours : Z;
  n_max : Z
}.

(** [Ewald.__init__]; the argument [n] is dropped by the constructor. *)
Definition init (ewald : R) (j_max : nat) (q : vec) (lattice : Lattice.t)
  (neighbours : Z) (position : vec) (n : Z) (n_max : Z) : t :=
  mk q lattice
     (Lattice.genBravais lattice neighbours true)
     (Lattice.genReciprocal lattice neighbours true)
     position ewald j_max neighbours n_max.

Definition ewaldG1 (self : t) (w : R) : C :=
  let k := w * ev in
  let '(a1, a2) := Lattice.getBravaisVectors (lattice self) in
  let area := cross a1 a2 in
  Cfor_sum (reciprocal_points self)
    (fun G_pos =>
       (RtoC (1 / area)
        * (Cexp (Ci * RtoC (dot (vadd (q self) G_pos) (pos self)))
           * RtoC (exp ((k ^ 2 - norm (vadd (q self) G_pos) ^ 2) / (4 * E self ^ 2))))
        / RtoC (norm (vadd (q self) G_pos) ^ 2 - k ^ 2))%C).

Definition integralFunc (self : t) (separation w : R) : R :=
  let k := w * ev in
  Rfor_sum (seq 0 (j_max self + 1))
    (fun j => (1 / INR (fact j)) * (k / (2 * E self)) ^ (2 * j)
              * expn (j + 1) (separation ^ 2 * E self ^ 2)).

Definition ewaldG2 (self : t) (w : R) : C :=
  Cfor_sum (bravais_points self)
    (fun R_pos =>
       let distance := norm (vsub (pos self) R_pos) in
       (RtoC (1 / (4 * PI)) * Cexp (Ci * RtoC (dot (q self) R_pos))
        * RtoC (integralFunc self distance w))%C).

Definition monopolarSum (self : t) (w : R) : C :=
  (ewaldG1 self w + ewaldG2 self w)%C.

(** [t1_lim]; the loop body rebinds [n], so the loop threads it. *)
Definition t1_lim (self : t) (w : R) (n : Z) : C :=
  let k := w * ev in
  let '(a1, a2) := Lattice.getBravaisVectors (lattice self) in
  let area := cross a1 a2 in
  let '(_sum, n) :=
    fold_left
      (fun '(_sum, n) G_pos =>
         let beta := vadd (q self) G_pos in
         let beta_norm := norm beta in
         let phi := arctan2 (snd beta) (fst beta) in
         let n := if (n <? 0)%Z then Z.abs n else n in
         ((_sum
           + RtoC (4 / area) * Cpow Ci (Z.to_nat (n + 1))
             * RtoC (1 / (k ^ 2 - beta_norm ^ 2))
             * RtoC (exp ((k ^ 2 - beta_norm ^ 2) / (4 * E self ^ 2)))
             * RtoC ((beta_norm / k) ^ Z.to_nat n)
             * Cexp ((- Ci) * RtoC (IZR n) * RtoC phi))%C,
          n))
      (reciprocal_points self) (C0, n) in
  if (n <? 0)%Z then (- Cconj _sum)%C else _sum.

Definition t2IntegralFunc (self : t) (dist w : R) (j_factor : nat) : R :=
  let k := w * ev in
  fold_left
    (fun _sum j => 1 / INR (fact j) * (k / (2 * E self)) ^ (2 * j)
                   * expn (j + j_factor) (dist ^ 2 * E self ^ 2))
    (seq 0 (j_max self + 1)) 0.

Definition t2_I_0 (self : t) (dist w : R) : R :=
  0.5 * t2IntegralFunc self dist w 1.

Definition t2_I_1 (self : t) (dist w : R) : R :=
  0.5 * E self ^ 2 * t2IntegralFunc self dist w 0.

(** [t2_I_n], the function under the [@memoize] decorator.  At [n = 0] the
    recursion descends through the negative integers without end
    ([RecursionError]). *)
Fixpoint t2_I_n (self : t) (dist w : R) (n : nat) : option R :=
  let k := w * ev in
  match n with
  | O => None
  | S n1 =>
      match n1 with
      | O => Some (t2_I_1 self dist w)
      | S n2 =>
          match n2 with
          | O =>
              Some (E self ^ 2 / (2 * dist ^ 2)
                    * exp (k ^ 2 / (4 * E self ^ 2) - dist ^ 2 * E self ^ 2)
                    + t2_I_1 self dist w / dist ^ 2
                    - k ^ 2 / (4 * dist ^ 2) * t2_I_0 self dist w)
          | S _ =>
              prev1 <- t2_I_n self dist w n1 ;;
              prev2 <- t2_I_n self dist w n2 ;;
              Some (E self ^ (2 * (n - 1)) / (2 * INR (n - 1) * dist ^ 2)
                    * exp (k ^ 2 / (4 * E self ^ 2) - dist ^ 2 * E self ^ 2)
                    + prev1 / dist ^ 2
                    - k ^ 2 / (4 * dist ^ 2) * prev2)
          end
      end
  end.

End WithSpecial.

Arguments t : clear implicits.

End Ewald.

End EwaldTest.

(** ** [archive/_extended_cell.py] *)

Module ExtendedCell.

Section WithSpecial.

Context `{SpecialFunctions}.

(** [green(k, distance)] *)
Definition green (k : R) (distance : vec) : mat2 :=
  let x := fst distance in
  let y := snd distance in
  let R := norm distance in
  let arg := k * R in
  let xx_type :=
    (mkC 0 0.25 * RtoC (k ^ 2)
     * (RtoC (y ^ 2 / R ^ 2) * hankel1 0 arg
        + RtoC ((x ^ 2 - y ^ 2) / (k * R ^ 3)) * hankel1 1 arg))%C in
  let yy_type :=
    (mkC 0 0.25 * RtoC (k ^ 2)
     * (RtoC (x ^ 2 / R ^ 2) * hankel1 0 arg
        - RtoC ((x ^ 2 - y ^ 2) / (k * R ^ 3)) * hankel1 1 arg))%C in
  let xy_type :=
    (mkC 0 0.25 * RtoC (k ^ 2) * RtoC x * RtoC y / RtoC (R ^ 2) * hankel1 2 arg)%C in
  mkMat2 xx_type xy_type xy_type yy_type.

(** [polar(w, wp, loss, radius)], at a real frequency *)
Definition polar (w wp loss radius : R) : C :=
  let k := w * ev in
  let eps := (RtoC 1 - RtoC (wp ^ 2) / (RtoC (w ^ 2) + Ci * RtoC loss * RtoC w))%C in
  let static := (RtoC (2 * PI * radius ^ 2) * ((eps - RtoC 1) / (eps + RtoC 1)))%C in
  (RtoC 1 / (static / (RtoC 1 - Ci * RtoC (k ^ 2 / 8) * static)))%C.

(** [square_supercell(a, cell, t1, t2, max)]; [a] and [cell] are not read. *)
Definition square_supercell (a : R) (cell : list vec) (t1 t2 : vec) (max : Z)
  : list vec :=
  flat_map
    (fun '(n, m) =>
       if negb (n =? 0)%Z || negb (m =? 0)%Z
       then [vadd (vscale (IZR n) t1) (vscale (IZR m) t2)]
       else [])
    (list_prod (arange (- max) (max + 1)) (arange (- max) (max + 1))).

(** [square_interactions(intracell, intercell, w, q)]; [intracell] is not
    read, and the phase carries a minus sign. *)
Definition square_interactions (intracell intercell : list vec) (w : R) (q : vec)
  : mat2 :=
  let k := w * ev in
  mat2_sum
    (map (fun inter => mat2_scale (green k inter)
                         (Cexp ((- Ci) * RtoC (dot q inter))))
         intercell).

(** [interactions(intracell, intercell, w, q)].  [H] is allocated with shape
    12x12; with more than six particles the first block written outside it
    raises [ValueError], unless [intercell] is empty and every block is the
    scalar [0]. *)
Definition interactions (intracell intercell : list vec) (w : R) (q : vec)
  : option matrix :=
  let k := w * ev in
  let indices := seq 0 (length intracell) in
  if (6 <? length intracell)%nat && negb (length intercell =? 0)%nat then None
  else
    H0 <- foldM (fun H '(n, m) =>
                   upper <- mapM (fun inter =>
                                    pn <- nth_error intracell n ;;
                                    pm <- nth_error intracell m ;;
                                    let d := vadd (vadd (vneg pn) pm) inter in
                                    Some (mat2_scale (green k d)
                                            (Cexp (Ci * RtoC (dot q d)))))
                                 intercell ;;
                   let H := set_block H n m (mat2_sum upper) in
                   lower <- mapM (fun inter =>
                                    pn <- nth_error intracell n ;;
                                    pm <- nth_error intracell m ;;
                                    let d := vneg (vadd (vadd (vneg pn) pm) inter) in
                                    Some (mat2_scale (green k d)
                                            (Cexp (Ci * RtoC (dot q d)))))
                                 intercell ;;
                   Some (set_block H m n (mat2_sum lower)))
                (combinations2 indices) zeros ;;
    Some (fold_left
            (fun H n =>
               set_block H n n
                 (mat2_sum
                    (map (fun inter => mat2_scale (green k inter)
                                         (Cexp (Ci * RtoC (dot q inter))))
                         (filter norm_nonzero intercell))))
            indices H0).

End WithSpecial.

End ExtendedCell.

(** ** The series and the recurrence as the specification words them *)

(** The summand of the reciprocal-space sum:
    [exp(i (q+G).pos) exp((k^2 - |q+G|^2) / (4 eta^2)) / (|q+G|^2 - k^2)]. *)
Definition G1_summand (q pos : vec) (eta k : R) (G : vec) : C :=
  ((Cexp (Ci * RtoC (dot (vadd q G) pos))
    * RtoC (exp ((k ^ 2 - norm (vadd q G) ^ 2) / (4 * eta ^ 2))))
   / RtoC (norm (vadd q G) ^ 2 - k ^ 2))%C.

(** The sum of the summands over the reciprocal points [Gs], scaled by
    [1/cellArea]. *)
Definition G1_spec (q pos : vec) (eta k area : R) (Gs : list vec) : C :=
  (RtoC (1 / area) * Cfor_sum Gs (G1_summand q pos eta k))%C.

Section SpecificationFormulas.

Context `{SpecialFunctions}.

(** The term [(1/j!) (k / (2 eta))^(2j) E_(j+offset)(s^2 eta^2)]. *)
Definition series_term (eta k s : R) (offset j : nat) : R :=
  1 / INR (fact j) * (k / (2 * eta)) ^ (2 * j) * expn (j + offset) (s ^ 2 * eta ^ 2).

(** The truncated series: the sum of the terms [j = 0 .. j_max]. *)
Fixpoint integral_series (eta k s : R) (offset j_max : nat) : R :=
  match j_max with
  | O => series_term eta k s offset 0
  | S p => integral_series eta k s offset p + series_term eta k s offset (S p)
  end.

(** [I_n] from [I_(n-1)] and [I_(n-2)]:
    [(eta^(2(n-1)) / (2(n-1) d^2)) exp(k^2/(4 eta^2) - d^2 eta^2)
     + I_(n-1)/d^2 - (k^2/(4 d^2)) I_(n-2)]. *)
Definition recurrence_step (eta k d : R) (n : nat) (I_prev1 I_prev2 : R) : R :=
  eta ^ (2 * (n - 1)) / (2 * INR (n - 1) * d ^ 2)
  * exp (k ^ 2 / (4 * eta ^ 2) - d ^ 2 * eta ^ 2)
  + I_prev1 / d ^ 2
  - k ^ 2 / (4 * d ^ 2) * I_prev2.

(** The family [I_n] of [ewald_test.py]: [t2_I_0] at [n = 0], [t2_I_n]
    from [n = 1] on. *)
Definition I_family (self : EwaldTest.Ewald.t) (dist w : R) (n : nat) : R :=
  match n with
  | O => EwaldTest.Ewald.t2_I_0 self dist w
  | S _ =>
      match EwaldTest.Ewald.t2_I_n self dist w n with
      | Some v => v
      | None => 0
      end
  end.

End SpecificationFormulas.

(** ** Index sets of the lattice loops *)

(** The point [i*t1 + j*t2] of the index pair [(i, j)]. *)
Definition combination (t1 t2 : vec) (ij : Z * Z) : vec :=
  let '(i, j) := ij in vadd (vscale (IZR i) t1) (vscale (IZR j) t2).

(** The index pair of the opposite point. *)
Definition opposite_index (ij : Z * Z) : Z * Z :=
  let '(i, j) := ij in (- i, - j)%Z.

(** The loop test [i != 0 or j != 0]. *)
Definition nonzero_index (ij : Z * Z) : bool :=
  let '(i, j) := ij in negb (i =? 0)%Z || negb (j =? 0)%Z.

(** The index pairs the double loop of [Honeycomb.getLattice] visits, in
    order. *)
Definition hexagon_indices (number : Z) : list (Z * Z) :=
  flat_map
    (fun n =>
       map (pair n)
           (if (n <? 0)%Z then arange (- n - number) (number + 1)
            else if (0 <? n)%Z then arange (- number) (number - n + 1)
            else arange (- number) (number + 1)))
    (arange (- number) (number + 1)).

(** ** Concrete data

    Inputs at which the statements below are instantiated. *)

Module Sample.

(** A stand-in for the [scipy.special] primitives: decreasing and positive in
    the order, as the exponential integrals are. *)
Definition special : SpecialFunctions := {|
  hankel1 := fun n x => mkC (/ (INR n + 1)) x;
  expn := fun n _ => / (INR n + 1);
  expi := fun x => x
|}.

(** [Square(1, 1, 1, 1, neighbours=0, scaling=1)] *)
Definition square0 : Square.t := Square.mk 1 1 0 1 1 1.

(** [Square(1, 1, 1, 1, neighbours=1, scaling=1)] *)
Definition square1 : Square.t := Square.mk 1 1 1 1 1 1.

(** [SimpleHoneycomb(1, 1, 1, 1, neighbours=0, scaling=1)] *)
Definition honeycomb0 : SimpleHoneycomb.t := SimpleHoneycomb.mk 1 1 0 1 1 1.

(** [Lattice(np.array([0, 1]), np.array([1, 0]))] *)
Definition lattice : EwaldTest.Lattice.t := EwaldTest.Lattice.init (0, 1) (1, 0).

(** [Ewald(ev, 1, np.array([0, 0]), Square(1, 1, 1, 1, 0, 1), np.array([0, 0]))]
    of [plasmonic_lattice.py] *)
Definition ewald_square : Ewald.t Square.t := Ewald.mk (0, 0) square0 (0, 0) ev 1.

(** [Ewald(ev, 1, np.array([1, 0]), lattice, 0, np.array([0, 0]), 0)] of
    [ewald_test.py] *)
Definition ewald_test : EwaldTest.Ewald.t :=
  EwaldTest.Ewald.init ev 1 (1, 0) lattice 0 (0, 0) 0 0.

(** A stand-in for the Hankel functions that obeys the three-term recurrence
    [H_2(z) = (2/z) H_1(z) - H_0(z)]. *)
Definition special_recurrent : SpecialFunctions := {|
  hankel1 := fun n z =>
    match n with
    | O => mkC 1 z
    | S O => mkC z 1
    | _ => (RtoC (2 / z) * mkC z 1 - mkC 1 z)%C
    end;
  expn := fun n _ => / (INR n + 1);
  expi := fun x => x
|}.

(** [SimpleHoneycomb(1, 1, 1, 1, neighbours=1, scaling=1)] *)
Definition honeycomb1 : SimpleHoneycomb.t := SimpleHoneycomb.mk 1 1 1 1 1 1.

(** A stand-in whose [expn] varies with its argument: [exp(-x) / (x + n)],
    which is the exponential integral itself at order 0 and a lower bound of
    it at every other order. *)
Definition special_decaying : SpecialFunctions := {|
  hankel1 := fun n x => mkC (/ (INR n + 1)) x;
  expn := fun n x => exp (- x) / (x + INR n);
  expi := fun x => x
|}.

(** [Ewald(1, 1, np.array([0, 0]), Square(1, 1, 1, 1, 0, 1), np.array([0, 0]))]
    of [plasmonic_lattice.py] *)
Definition ewald_unit : Ewald.t Square.t := Ewald.mk (0, 0) square0 (0, 0) 1 1.

(** [Ewald(1, 0, np.array([0, 0]), Square(1, 1, 1, 1, 0, 1), np.array([0, 0]))]
    of [plasmonic_lattice.py] *)
Definition ewald_unit0 : Ewald.t Square.t := Ewald.mk (0, 0) square0 (0, 0) 1 0.

(** [Ewald(1, 1, np.array([0, 0]), lattice, 0, np.array([0, 0]), 0)] of
    [ewald_test.py] *)
Definition ewald_test_unit : EwaldTest.Ewald.t :=
  EwaldTest.Ewald.init 1 1 (0, 0) lattice 0 (0, 0) 0 0.

(** [Ewald(ev, 1, np.array([0, 0]), lattice, 0, np.array([0, 0]), 0)] of
    [ewald_test.py] *)
Definition ewald_test0 : EwaldTest.Ewald.t :=
  EwaldTest.Ewald.init ev 1 (0, 0) lattice 0 (0, 0) 0 0.

End Sample.

(** * Properties *)

(** ** Complex arithmetic *)

Lemma C_eq (a b : C) : Re a = Re b -> Im a = Im b -> a = b.
Proof. destruct a, b; simpl; intros -> ->; reflexivity. Qed.

Ltac c_ring := apply C_eq; simpl; ring.

Lemma Cmul_assoc (a b c : C) : (a * (b * c))%C = (a * b * c)%C.
Proof. c_ring. Qed.

Lemma RtoC_mul (x y : R) : (RtoC x * RtoC y)%C = RtoC (x * y).
Proof. c_ring. Qed.

Lemma Cinv_RtoC (x : R) : Cinv (RtoC x) = RtoC (/ x).
Proof.
  apply C_eq; simpl.
  - destruct (Req_dec_T x 0) as [-> | Hx].
    + rewrite Rinv_0. unfold Rdiv. ring.
    + field. exact Hx.
  - unfold Rdiv. ring.
Qed.

Lemma RtoC_div (x y : R) : (RtoC x / RtoC y)%C = RtoC (x / y).
Proof. unfold Cdiv. rewrite Cinv_RtoC, RtoC_mul. reflexivity. Qed.

(** ** Loops as sums *)

Lemma Cfor_sum_from {A : Type} (f : A -> C) (l : list A) (z : C) :
  fold_left (fun _sum x => (_sum + f x)%C) l z = (z + Cfor_sum l f)%C.
Proof.
  unfold Cfor_sum. revert z.
  induction l as [| a l IH]; intros z; simpl.
  - c_ring.
  - rewrite IH, (IH (C0 + f a)%C). c_ring.
Qed.

Lemma Cfor_sum_cons {A : Type} (f : A -> C) (a : A) (l : list A) :
  Cfor_sum (a :: l) f = (f a + Cfor_sum l f)%C.
Proof.
  unfold Cfor_sum at 1; simpl. rewrite Cfor_sum_from. c_ring.
Qed.

Lemma Cfor_sum_ext {A : Type} (f g : A -> C) (l : list A) :
  (forall x, In x l -> f x = g x) -> Cfor_sum l f = Cfor_sum l g.
Proof.
  induction l as [| a l IH]; intros Hfg; [reflexivity |].
  rewrite !Cfor_sum_cons, (Hfg a) by (left; reflexivity).
  rewrite IH; [reflexivity |]. intros x Hx; apply Hfg; right; exact Hx.
Qed.

Lemma Cfor_sum_scale {A : Type} (c : C) (f : A -> C) (l : list A) :
  Cfor_sum l (fun x => (c * f x)%C) = (c * Cfor_sum l f)%C.
Proof.
  induction l as [| a l IH].
  - unfold Cfor_sum; simpl. c_ring.
  - rewrite !Cfor_sum_cons, IH. c_ring.
Qed.

Lemma Rfor_sum_from {A : Type} (f : A -> R) (l : list A) (z : R) :
  fold_left (fun _sum x => _sum + f x) l z = z + Rfor_sum l f.
Proof.
  unfold Rfor_sum. revert z.
  induction l as [| a l IH]; intros z; simpl.
  - ring.
  - rewrite IH, (IH (0 + f a)). ring.
Qed.

Lemma Rfor_sum_cons {A : Type} (f : A -> R) (a : A) (l : list A) :
  Rfor_sum (a :: l) f = f a + Rfor_sum l f.
Proof.
  unfold Rfor_sum at 1; simpl. rewrite Rfor_sum_from. ring.
Qed.

Lemma Rfor_sum_app {A : Type} (f : A -> R) (l1 l2 : list A) :
  Rfor_sum (l1 ++ l2) f = Rfor_sum l1 f + Rfor_sum l2 f.
Proof.
  induction l1 as [| a l1 IH]; simpl.
  - unfold Rfor_sum at 2; simpl. ring.
  - rewrite !Rfor_sum_cons, IH. ring.
Qed.

(** A loop that overwrites its accumulator keeps the last value only. *)
Lemma fold_left_overwrite {A B : Type} (g : A -> B) (l : list A) (a : A) (z : B) :
  fold_left (fun _ x => g x) (l ++ [a]) z = g a.
Proof. rewrite fold_left_app. reflexivity. Qed.

(** ** Integer ranges *)

Lemma in_arange (lo hi i : Z) : In i (arange lo hi) <-> (lo <= i < hi)%Z.
Proof.
  unfold arange. rewrite in_map_iff. split.
  - intros [n [<- Hn]]. apply in_seq in Hn. lia.
  - intros Hi. exists (Z.to_nat (i - lo)). split; [lia |].
    apply in_seq. lia.
Qed.

(** ** Vectors *)

Lemma norm_zero_iff (v : vec) : norm v = 0 <-> v = (0, 0).
Proof.
  destruct v as [x y]; unfold norm; simpl. split.
  - intros Hn. apply sqrt_eq_0 in Hn; [| nra].
    assert (x = 0) by nra. assert (y = 0) by nra. subst; reflexivity.
  - intros Hv. injection Hv as -> ->.
    replace (0 * 0 + 0 * 0) with 0 by ring. apply sqrt_0.
Qed.

Lemma norm_vneg (v : vec) : norm (vneg v) = norm v.
Proof. unfold norm, vneg; simpl. f_equal. ring. Qed.

(** An integer combination of two independent vectors vanishes only at the
    zero coefficients. *)
Lemma independent_combination (a1 a2 : vec) (n m : Z) :
  cross a1 a2 <> 0 ->
  vadd (vscale (IZR n) a1) (vscale (IZR m) a2) = (0, 0) ->
  n = 0%Z /\ m = 0%Z.
Proof.
  destruct a1 as [x1 y1], a2 as [x2 y2]. unfold cross, vadd, vscale; simpl.
  intros Hc Hz. injection Hz as Hx Hy.
  assert (Hn : IZR n * (x1 * y2 - y1 * x2) = 0).
  { replace (IZR n * (x1 * y2 - y1 * x2))
      with (y2 * (IZR n * x1 + IZR m * x2) - x2 * (IZR n * y1 + IZR m * y2)) by ring.
    rewrite Hx, Hy. ring. }
  assert (Hm : IZR m * (x1 * y2 - y1 * x2) = 0).
  { replace (IZR m * (x1 * y2 - y1 * x2))
      with (x1 * (IZR n * y1 + IZR m * y2) - y1 * (IZR n * x1 + IZR m * x2)) by ring.
    rewrite Hx, Hy. ring. }
  apply Rmult_integral in Hn, Hm.
  destruct Hn as [Hn | Hn]; [| contradiction].
  destruct Hm as [Hm | Hm]; [| contradiction].
  split; apply eq_IZR; assumption.
Qed.

(** ** Reciprocal lattice vectors *)

Lemma rot_denominators (a1 a2 : vec) :
  dot a1 (rotR a2) = - cross a1 a2 /\ dot a2 (rotR a1) = cross a1 a2.
Proof.
  destruct a1 as [x1 y1], a2 as [x2 y2]; unfold dot, rotR, cross; simpl.
  split; ring.
Qed.

Lemma rot_construction (a1 a2 : vec) :
  cross a1 a2 <> 0 ->
  let b1 := vdiv (vscale (2 * PI) (rotR a2)) (dot a1 (rotR a2)) in
  let b2 := vdiv (vscale (2 * PI) (rotR a1)) (dot a2 (rotR a1)) in
  dot a1 b1 = 2 * PI /\ dot a2 b2 = 2 * PI /\ dot a1 b2 = 0 /\ dot a2 b1 = 0.
Proof.
  intros Hc b1 b2. subst b1 b2.
  destruct (rot_denominators a1 a2) as [-> ->].
  destruct a1 as [x1 y1], a2 as [x2 y2].
  unfold cross in *; unfold dot, vdiv, vscale, rotR; simpl in *.
  repeat split; field; lra.
Qed.

(** C8.  For linearly independent [a1], [a2] the reciprocal vectors built by
    [Lattice.__init__] satisfy [a1.b1 = a2.b2 = 2 pi] and
    [a1.b2 = a2.b1 = 0], and so do those of [Square.getReciprocalVectors]
    for a square cell whose lattice vectors are [a1], [a2]. *)
Theorem reciprocal_duality (a1 a2 : vec) :
  cross a1 a2 <> 0 ->
  (let l := EwaldTest.Lattice.init a1 a2 in
   dot a1 (EwaldTest.Lattice.b1 l) = 2 * PI
   /\ dot a2 (EwaldTest.Lattice.b2 l) = 2 * PI
   /\ dot a1 (EwaldTest.Lattice.b2 l) = 0
   /\ dot a2 (EwaldTest.Lattice.b1 l) = 0)
  /\ (forall s : Square.t,
        Square.getLatticeVectors s = (a1, a2) ->
        let '(b1, b2) := Square.getReciprocalVectors s in
        dot a1 b1 = 2 * PI /\ dot a2 b2 = 2 * PI
        /\ dot a1 b2 = 0 /\ dot a2 b1 = 0).
Proof.
  intros Hc. split.
  - exact (rot_construction a1 a2 Hc).
  - intros s Hs. unfold Square.getReciprocalVectors. rewrite Hs.
    exact (rot_construction a1 a2 Hc).
Qed.

Lemma reciprocal_duality_witness :
  cross (0, 1 * 1) (1 * 1, 0) <> 0
  /\ Square.getLatticeVectors Sample.square1 = ((0, 1 * 1), (1 * 1, 0))
  /\ (let '(b1, b2) := Square.getReciprocalVectors Sample.square1 in
      dot (0, 1 * 1) b1 = 2 * PI /\ dot (1 * 1, 0) b2 = 2 * PI
      /\ dot (0, 1 * 1) b2 = 0 /\ dot (1 * 1, 0) b1 = 0).
Proof.
  assert (Hc : cross (0, 1 * 1) (1 * 1, 0) <> 0) by (unfold cross; simpl; lra).
  split; [exact Hc |]. split; [reflexivity |].
  exact (proj2 (reciprocal_duality (0, 1 * 1) (1 * 1, 0) Hc) Sample.square1 eq_refl).
Defined.

(** ** Lattice point sets and the origin *)

Lemma zero_combination (t1 t2 : vec) :
  vadd (vscale (IZR 0) t1) (vscale (IZR 0) t2) = (0, 0).
Proof. unfold vadd, vscale; simpl. f_equal; ring. Qed.

(** The double loop that skips [(i, j) = (0, 0)] never emits the zero vector
    when the generating vectors are independent. *)
Lemma skipping_loop_no_origin (t1 t2 : vec) (rng : list (Z * Z)) :
  cross t1 t2 <> 0 ->
  ~ In (0, 0)
      (flat_map
         (fun '(i, j) =>
            if negb (i =? 0)%Z || negb (j =? 0)%Z
            then [vadd (vscale (IZR i) t1) (vscale (IZR j) t2)]
            else [])
         rng).
Proof.
  intros Hc Hin. apply in_flat_map in Hin. destruct Hin as [[i j] [_ Hin]].
  destruct (negb (i =? 0)%Z || negb (j =? 0)%Z) eqn:Hij; [| contradiction].
  destruct Hin as [Hin | []].
  destruct (independent_combination t1 t2 i j Hc Hin) as [-> ->].
  discriminate Hij.
Qed.

Lemma reciprocal_independent (a1 a2 : vec) :
  cross a1 a2 <> 0 ->
  cross (vdiv (vscale (2 * PI) (rotR a2)) (dot a1 (rotR a2)))
        (vdiv (vscale (2 * PI) (rotR a1)) (dot a2 (rotR a1))) <> 0.
Proof.
  intros Hc. destruct (rot_denominators a1 a2) as [-> ->].
  destruct a1 as [x1 y1], a2 as [x2 y2].
  unfold cross in *; unfold vdiv, vscale, rotR; simpl in *.
  assert (Hpi := PI_RGT_0).
  replace ((2 * PI * (0 * x2 + -1 * y2) / - (x1 * y2 - y1 * x2))
           * (2 * PI * (1 * x1 + 0 * y1) / (x1 * y2 - y1 * x2))
           - (2 * PI * (1 * x2 + 0 * y2) / - (x1 * y2 - y1 * x2))
             * (2 * PI * (0 * x1 + -1 * y1) / (x1 * y2 - y1 * x2)))
    with (4 * PI * PI / (x1 * y2 - y1 * x2)) by (field; lra).
  unfold Rdiv. apply Rmult_integral_contrapositive_currified.
  - nra.
  - apply Rinv_neq_0_compat. exact Hc.
Qed.

(** Both honeycomb generators emit the zero vector at every radius [>= 0],
    whatever the flag. *)
Lemma SimpleHoneycomb_has_origin (s : SimpleHoneycomb.t) (_type : lattice_type)
  (origin : bool) :
  (0 <= SimpleHoneycomb.neighbours s)%Z ->
  In (0, 0) (SimpleHoneycomb.getLattice s _type origin).
Proof.
  intros Hn. unfold SimpleHoneycomb.getLattice.
  apply in_map_iff. exists (0%Z, 0%Z). split.
  - apply zero_combination.
  - apply in_prod; apply in_arange; lia.
Qed.

Lemma Honeycomb_has_origin (s : Honeycomb.t) (origin : bool) :
  (0 <= Honeycomb.neighbours s)%Z ->
  exists pts, Honeycomb.getLattice s bravais origin = Some pts /\ In (0, 0) pts.
Proof.
  intros Hn. unfold Honeycomb.getLattice.
  destruct (Honeycomb.getLatticeVectors s) as [t1 t2].
  eexists; split; [reflexivity |].
  unfold Honeycomb.points. apply in_flat_map. exists 0%Z. split.
  - apply in_arange; lia.
  - simpl. apply in_map_iff. exists 0%Z. split.
    + apply zero_combination.
    + apply in_arange; lia.
Qed.

(** C7, as the code has it.  With linearly independent generating vectors,
    [Lattice.genBravais], [Lattice.genReciprocal] and [Square.getLattice]
    called with the origin excluded never return [(0, 0)], and
    [Triangle.getLattice] never returns it at all; [SimpleHoneycomb.getLattice]
    and [Honeycomb.getLattice] do not read the flag and return [(0, 0)] at
    every radius [>= 0]. *)
Theorem origin_flag_honoured (a1 a2 : vec) (number : Z) :
  cross a1 a2 <> 0 ->
  ~ In (0, 0) (EwaldTest.Lattice.genBravais (EwaldTest.Lattice.init a1 a2) number false)
  /\ ~ In (0, 0) (EwaldTest.Lattice.genReciprocal (EwaldTest.Lattice.init a1 a2) number false)
  /\ (forall (s : Square.t) (_type : lattice_type),
        Square.getLatticeVectors s = (a1, a2) ->
        ~ In (0, 0) (Square.getLattice s _type false))
  /\ (forall (s : Triangle.t) (_type : lattice_type) (origin : bool),
        Triangle.getLatticeVectors s = (a1, a2) ->
        ~ In (0, 0) (Triangle.getLattice s _type origin))
  /\ (forall (s : SimpleHoneycomb.t) (_type : lattice_type),
        (0 <= SimpleHoneycomb.neighbours s)%Z ->
        In (0, 0) (SimpleHoneycomb.getLattice s _type false))
  /\ (forall s : Honeycomb.t,
        (0 <= Honeycomb.neighbours s)%Z ->
        exists pts, Honeycomb.getLattice s bravais false = Some pts /\ In (0, 0) pts).
Proof.
  intros Hc. repeat split.
  - unfold EwaldTest.Lattice.genBravais; simpl.
    apply skipping_loop_no_origin. exact Hc.
  - unfold EwaldTest.Lattice.genReciprocal; simpl.
    apply skipping_loop_no_origin. apply reciprocal_independent. exact Hc.
  - intros s _type Hs. unfold Square.getLattice.
    destruct _type.
    + rewrite Hs. apply skipping_loop_no_origin. exact Hc.
    + unfold Square.getReciprocalVectors. rewrite Hs.
      apply skipping_loop_no_origin. apply reciprocal_independent. exact Hc.
  - intros s _type origin Hs. unfold Triangle.getLattice.
    unfold Triangle.getLatticeVectors in Hs. injection Hs as -> ->.
    apply skipping_loop_no_origin. exact Hc.
  - intros s _type Hn. apply SimpleHoneycomb_has_origin. exact Hn.
  - intros s Hn. apply Honeycomb_has_origin. exact Hn.
Qed.

Lemma origin_flag_honoured_witness :
  cross (0, 1 * 1) (1 * 1, 0) <> 0
  /\ ~ In (0, 0) (Square.getLattice Sample.square1 bravais false).
Proof.
  assert (Hc : cross (0, 1 * 1) (1 * 1, 0) <> 0) by (unfold cross; simpl; lra).
  split; [exact Hc |].
  exact (proj1 (proj2 (proj2 (origin_flag_honoured (0, 1 * 1) (1 * 1, 0) 1 Hc)))
           Sample.square1 bravais eq_refl).
Defined.

(** C7 as stated fails: [SimpleHoneycomb(..., neighbours=0, ...).getLattice('bravais', False)]
    is the one-point list holding [(0, 0)]. *)
Lemma origin_flag_counterexample :
  In (0, 0) (SimpleHoneycomb.getLattice Sample.honeycomb0 bravais false).
Proof.
  apply SimpleHoneycomb_has_origin. simpl. lia.
Qed.

(** ** The dyadic Green's function *)

Section Green.

Context `{SpecialFunctions}.

Lemma xy_sign (a : C) (x y : R) :
  (a * RtoC (- x) * RtoC (- y))%C = (a * RtoC x * RtoC y)%C.
Proof. c_ring. Qed.

Lemma Interaction_green_even (w : R) (d : vec) :
  Interaction.green w (vneg d) = Interaction.green w d.
Proof.
  unfold Interaction.green. rewrite norm_vneg.
  destruct d as [x y]; simpl fst; simpl snd.
  rewrite xy_sign.
  replace ((- x) ^ 2) with (x ^ 2) by ring.
  replace ((- y) ^ 2) with (y ^ 2) by ring.
  reflexivity.
Qed.

Lemma ExtendedCell_green_even (k : R) (d : vec) :
  ExtendedCell.green k (vneg d) = ExtendedCell.green k d.
Proof.
  unfold ExtendedCell.green. rewrite norm_vneg.
  destruct d as [x y]; simpl fst; simpl snd.
  rewrite xy_sign.
  replace ((- x) ^ 2) with (x ^ 2) by ring.
  replace ((- y) ^ 2) with (y ^ 2) by ring.
  reflexivity.
Qed.

(** C10.  [green(w, d)] and [green(w, -d)] agree entry by entry, and the
    returned 2x2 array is symmetric; likewise for the archived [green]. *)
Theorem green_even_and_symmetric (w : R) (d : vec) :
  Interaction.green w (vneg d) = Interaction.green w d
  /\ mat2_transpose (Interaction.green w d) = Interaction.green w d
  /\ ExtendedCell.green w (vneg d) = ExtendedCell.green w d
  /\ mat2_transpose (ExtendedCell.green w d) = ExtendedCell.green w d.
Proof.
  split; [apply Interaction_green_even |].
  split; [reflexivity |].
  split; [apply ExtendedCell_green_even | reflexivity].
Qed.

End Green.

(** ** Loops that may raise *)

Lemma mapM_total {A B : Type} (f : A -> option B) (g : A -> B) (l : list A) :
  (forall a, In a l -> f a = Some (g a)) -> mapM f l = Some (map g l).
Proof.
  induction l as [| a l IH]; intros Hf; simpl; [reflexivity |].
  rewrite (Hf a) by (left; reflexivity). simpl.
  rewrite IH by (intros x Hx; apply Hf; right; exact Hx).
  reflexivity.
Qed.

Lemma foldM_total {A S : Type} (f : S -> A -> option S) (g : S -> A -> S)
  (l : list A) (acc : S) :
  (forall s a, In a l -> f s a = Some (g s a)) ->
  foldM f l acc = Some (fold_left g l acc).
Proof.
  revert acc. induction l as [| a l IH]; intros acc Hf; simpl; [reflexivity |].
  rewrite (Hf acc a) by (left; reflexivity). simpl.
  apply IH. intros s x Hx. apply Hf. right; exact Hx.
Qed.

(** ** Block assignment *)

Lemma get_set_block_same (H : matrix) (r c : nat) (M : mat2) :
  get_block (set_block H r c M) r c = M.
Proof.
  unfold get_block, set_block.
  replace (2 * r <=? 2 * r)%nat with true by (symmetry; apply Nat.leb_le; lia).
  replace (2 * r <=? 2 * r + 1)%nat with true by (symmetry; apply Nat.leb_le; lia).
  replace (2 * c <=? 2 * c)%nat with true by (symmetry; apply Nat.leb_le; lia).
  replace (2 * c <=? 2 * c + 1)%nat with true by (symmetry; apply Nat.leb_le; lia).
  replace (2 * r <? 2 * r + 2)%nat with true by (symmetry; apply Nat.ltb_lt; lia).
  replace (2 * r + 1 <? 2 * r + 2)%nat with true by (symmetry; apply Nat.ltb_lt; lia).
  replace (2 * c <? 2 * c + 2)%nat with true by (symmetry; apply Nat.ltb_lt; lia).
  replace (2 * c + 1 <? 2 * c + 2)%nat with true by (symmetry; apply Nat.ltb_lt; lia).
  replace (2 * r - 2 * r)%nat with 0%nat by lia.
  replace (2 * c - 2 * c)%nat with 0%nat by lia.
  replace (2 * r + 1 - 2 * r)%nat with 1%nat by lia.
  replace (2 * c + 1 - 2 * c)%nat with 1%nat by lia.
  destruct M; reflexivity.
Qed.

Lemma set_block_outside (H : matrix) (a b : nat) (M : mat2) (i j : nat) :
  (i < 2 * a \/ 2 * a + 2 <= i \/ j < 2 * b \/ 2 * b + 2 <= j)%nat ->
  set_block H a b M i j = H i j.
Proof.
  intros Hout. unfold set_block.
  destruct ((2 * a <=? i) && (i <? 2 * a + 2) && (2 * b <=? j) && (j <? 2 * b + 2))%nat
    eqn:Hin; [| reflexivity].
  rewrite !andb_true_iff in Hin. destruct Hin as [[[H1 H2] H3] H4].
  apply Nat.leb_le in H1, H3. apply Nat.ltb_lt in H2, H4. lia.
Qed.

Lemma get_set_block_other (H : matrix) (a b r c : nat) (M : mat2) :
  a <> r \/ b <> c ->
  get_block (set_block H a b M) r c = get_block H r c.
Proof.
  intros Hne. unfold get_block.
  rewrite !set_block_outside by lia. reflexivity.
Qed.

(** ** Pairs of indices *)

Lemma in_combinations2_seq (len s a b : nat) :
  In (a, b) (combinations2 (seq s len)) <-> (s <= a < b /\ b < s + len)%nat.
Proof.
  revert s. induction len as [| len IH]; intros s; simpl.
  - split; [intros [] | lia].
  - rewrite in_app_iff, in_map_iff, IH. split.
    + intros [[x [Hx Hin]] | Hin].
      * injection Hx as <- <-. apply in_seq in Hin. lia.
      * lia.
    + intros Hab. destruct (Nat.eq_dec a s) as [-> | Hne].
      * left. exists b. split; [reflexivity |]. apply in_seq. lia.
      * right. lia.
Qed.

(** ** The assembled interaction matrix *)

Section BlockLoops.

(** The value the pair loop assigns to block [(a, b)]. *)
Variable D : nat -> nat -> mat2.

(** The value the diagonal loop assigns. *)
Variable Dself : mat2.

Lemma pair_loop_lower (l : list (nat * nat)) (H : matrix) (r c : nat) :
  (forall a b, In (a, b) l -> a < b)%nat ->
  (c < r)%nat ->
  get_block H r c = D r c \/ In (c, r) l ->
  get_block (fold_left (pair_step D) l H) r c = D r c.
Proof.
  revert H. induction l as [| [a b] l IH]; intros H Hlt Hcr Hinv; simpl.
  - destruct Hinv as [Hinv | []]. exact Hinv.
  - assert (Hab : (a < b)%nat) by (apply Hlt; left; reflexivity).
    apply IH; [intros x y Hxy; apply Hlt; right; exact Hxy | exact Hcr |].
    destruct (Nat.eq_dec a c) as [-> | Hac].
    + destruct (Nat.eq_dec b r) as [-> | Hbr].
      * left. apply get_set_block_same.
      * destruct Hinv as [Hinv | [Heq | Hin]].
        -- left. rewrite !get_set_block_other by lia. exact Hinv.
        -- injection Heq as ->. contradiction.
        -- right. exact Hin.
    + destruct Hinv as [Hinv | [Heq | Hin]].
      * left. rewrite !get_set_block_other by lia. exact Hinv.
      * injection Heq as -> ->. contradiction.
      * right. exact Hin.
Qed.

Lemma diagonal_loop_off_diagonal (l : list nat) (H : matrix) (r c : nat) :
  r <> c ->
  get_block (fold_left (fun H n => set_block H n n Dself) l H) r c = get_block H r c.
Proof.
  intros Hrc. revert H. induction l as [| n l IH]; intros H; simpl; [reflexivity |].
  rewrite IH. apply get_set_block_other. lia.
Qed.

End BlockLoops.

Section InteractionMatrix.

Context {T : Type} `{Interaction.CellLike T} `{SpecialFunctions}.

Lemma same_separation (pn pm R : vec) :
  vadd (vadd (vneg pm) pn) R = vadd (vsub pn pm) R.
Proof. unfold vadd, vsub, vneg; simpl. f_equal; ring. Qed.

Lemma pair_sum_total (self : Interaction.t T) (w : R) (intracell : list Particle)
  (intercell : list vec) (a b : nat) (pa pb : Particle) :
  nth_error intracell a = Some pa ->
  nth_error intracell b = Some pb ->
  Interaction.pair_sum self w intracell intercell a b
  = Some (mat2_sum
            (map (fun inter =>
                    mat2_scale
                      (Interaction.green w (vadd (vadd (vneg (pos pa)) (pos pb)) inter))
                      (Interaction.bloch self inter))
                 intercell)).
Proof.
  intros Ha Hb. unfold Interaction.pair_sum.
  rewrite (mapM_total _
             (fun inter =>
                mat2_scale
                  (Interaction.green w (vadd (vadd (vneg (pos pa)) (pos pb)) inter))
                  (Interaction.bloch self inter))).
  - reflexivity.
  - intros inter _. rewrite Ha, Hb. reflexivity.
Qed.

(** C9.  In a cell of more than one particle, block [(m, n)] of
    [interactionMatrix(w)] for [n < m] is the sum over the inter-cell lattice
    vectors [R] of [green(w, pos_n - pos_m + R)] weighted by the Bloch phase
    [exp(i q.R)]: it is computed directly, not taken from block [(n, m)]. *)
Theorem lower_block_recomputed (self : Interaction.t T) (w : R)
  (intercell : list vec) (n m : nat) (pn pm : Particle) :
  Interaction.getLattice (Interaction.cell self) bravais false = Some intercell ->
  (Interaction.getCellSize (Interaction.cell self)
   <= length (Interaction.getUnitCell (Interaction.cell self)))%nat ->
  (1 < Interaction.getCellSize (Interaction.cell self))%nat ->
  (n < m < Interaction.getCellSize (Interaction.cell self))%nat ->
  nth_error (Interaction.getUnitCell (Interaction.cell self)) n = Some pn ->
  nth_error (Interaction.getUnitCell (Interaction.cell self)) m = Some pm ->
  exists Hmat,
    Interaction.interactionMatrix self w = Some Hmat
    /\ get_block Hmat m n
       = mat2_sum
           (map (fun R => mat2_scale
                            (Interaction.green w (vadd (vsub (pos pn) (pos pm)) R))
                            (Cexp (Ci * RtoC (dot (Interaction.q self) R))))
                intercell).
Proof.
  intros Hlat Hlen Hsize Hnm Hpn Hpm.
  unfold Interaction.interactionMatrix. rewrite Hlat. simpl bind.
  set (intracell := Interaction.getUnitCell (Interaction.cell self)) in *.
  set (cs := Interaction.getCellSize (Interaction.cell self)) in *.
  replace (cs =? 1)%nat with false by (symmetry; apply Nat.eqb_neq; lia).
  pose (D := fun a b : nat =>
               match Interaction.pair_sum self w intracell intercell a b with
               | Some M => M
               | None => mat2_zero
               end).
  assert (Hdef : forall a b, (a < cs)%nat -> (b < cs)%nat ->
             Interaction.pair_sum self w intracell intercell a b = Some (D a b)).
  { intros a b Ha Hb. unfold D.
    destruct (nth_error intracell a) as [pa |] eqn:Ea;
      [| apply nth_error_None in Ea; lia].
    destruct (nth_error intracell b) as [pb |] eqn:Eb;
      [| apply nth_error_None in Eb; lia].
    rewrite (pair_sum_total self w intracell intercell a b pa pb Ea Eb).
    reflexivity. }
  rewrite (foldM_total _ (pair_step D)).
  2:{ intros Hacc [a b] Hin. apply in_combinations2_seq in Hin.
      rewrite (Hdef a b), (Hdef b a) by lia. reflexivity. }
  simpl bind. eexists. split; [reflexivity |].
  rewrite diagonal_loop_off_diagonal by lia.
  rewrite (pair_loop_lower D).
  - unfold D. rewrite (pair_sum_total self w intracell intercell m n pm pn Hpm Hpn).
    f_equal. apply map_ext. intros R. rewrite same_separation. reflexivity.
  - intros a b Hin. apply in_combinations2_seq in Hin. lia.
  - lia.
  - right. apply in_combinations2_seq. lia.
Qed.

End InteractionMatrix.

Lemma lower_block_recomputed_witness :
  exists Hmat,
    @Interaction.interactionMatrix _ Interaction.SimpleHoneycomb_cell Sample.special
      (Interaction.mk (0, 0) Sample.honeycomb0) 1 = Some Hmat
    /\ get_block Hmat 1 0
       = mat2_sum
           (map (fun R => mat2_scale
                            (@Interaction.green Sample.special 1
                               (vadd (vsub (0, 0) (1, 0)) R))
                            (Cexp (Ci * RtoC (dot (0, 0) R))))
                (SimpleHoneycomb.getLattice Sample.honeycomb0 bravais false)).
Proof.
  apply (@lower_block_recomputed _ Interaction.SimpleHoneycomb_cell Sample.special
           (Interaction.mk (0, 0) Sample.honeycomb0) 1
           (SimpleHoneycomb.getLattice Sample.honeycomb0 bravais false) 0 1
           (mkParticle (0, 0) 1 1 1) (mkParticle (1, 0) 1 1 1)).
  - reflexivity.
  - apply le_n.
  - apply le_n.
  - split; [apply le_n | apply le_n].
  - reflexivity.
  - reflexivity.
Defined.

(** ** The conversion constant *)

Lemma ev_pos : 0 < ev.
Proof.
  unfold ev. assert (Hpi := PI_RGT_0).
  apply Rdiv_lt_0_compat.
  - assert (0 < / 10 ^ 19) by (apply Rinv_0_lt_compat, pow_lt; lra). nra.
  - assert (0 < / 10 ^ 34) by (apply Rinv_0_lt_compat, pow_lt; lra).
    assert (0 < 10 ^ 8) by (apply pow_lt; lra). nra.
Qed.

(** ** The integral series *)

Section IntegralSeries.

Context `{SF : SpecialFunctions}.

Lemma seq_upto (n : nat) : seq 0 (n + 1) = seq 0 n ++ [n].
Proof. rewrite Nat.add_1_r, seq_S. reflexivity. Qed.

(** An accumulating loop over [range(0, j_max+1)] is the truncated series. *)
Lemma accumulating_loop (eta k s : R) (offset j_max : nat) :
  Rfor_sum (seq 0 (j_max + 1)) (series_term eta k s offset)
  = integral_series eta k s offset j_max.
Proof.
  induction j_max as [| p IH].
  - simpl. unfold Rfor_sum; simpl. ring.
  - rewrite seq_upto, Rfor_sum_app. replace (S p) with (p + 1)%nat at 1 by lia.
    rewrite IH. simpl. unfold Rfor_sum at 1; simpl. ring.
Qed.

(** An overwriting loop over [range(0, j_max+1)] is the last term. *)
Lemma overwriting_loop (eta k s : R) (offset j_max : nat) :
  fold_left (fun _ j => series_term eta k s offset j) (seq 0 (j_max + 1)) 0
  = series_term eta k s offset j_max.
Proof. rewrite seq_upto. apply fold_left_overwrite. Qed.

(** The coefficient [(1/j!) (k / (2 eta))^(2j)] is never negative. *)
Lemma series_coefficient_nonneg (eta k : R) (j : nat) :
  0 <= 1 / INR (fact j) * (k / (2 * eta)) ^ (2 * j).
Proof.
  apply Rmult_le_pos.
  - apply Rlt_le, Rdiv_lt_0_compat; [lra |]. apply lt_0_INR, lt_O_fact.
  - rewrite pow_mult. apply pow_le, pow2_ge_0.
Qed.

(** A truncated series is positive wherever the exponential integrals it
    reads are. *)
Lemma integral_series_pos (eta k s : R) (offset j_max : nat) :
  (forall j, (j <= j_max)%nat -> 0 < expn (j + offset) (s ^ 2 * eta ^ 2)) ->
  0 < integral_series eta k s offset j_max.
Proof.
  induction j_max as [| p IH]; intros Hpos; simpl.
  - unfold series_term. simpl.
    assert (H0 := Hpos 0%nat (le_n 0)). simpl in H0.
    replace (1 / 1 * 1 * expn offset (s * (s * 1) * (eta * (eta * 1))))
      with (expn offset (s * (s * 1) * (eta * (eta * 1)))) by field.
    exact H0.
  - assert (Hp : 0 < integral_series eta k s offset p)
      by (apply IH; intros j Hj; apply Hpos; lia).
    assert (Ht : 0 <= series_term eta k s offset (S p)).
    { unfold series_term. apply Rmult_le_pos.
      - apply series_coefficient_nonneg.
      - apply Rlt_le, Hpos. lia. }
    lra.
Qed.

Lemma Ewald_integralFunc_series {L : Type} `{Ewald.LatticeLike L}
  (self : Ewald.t L) (s w : R) :
  Ewald.integralFunc self s w
  = integral_series (Ewald.E self) (w * ev) s 1 (Ewald.j_max self).
Proof. unfold Ewald.integralFunc. apply accumulating_loop. Qed.

Lemma EwaldTest_integralFunc_series (self : EwaldTest.Ewald.t) (s w : R) :
  EwaldTest.Ewald.integralFunc self s w
  = integral_series (EwaldTest.Ewald.E self) (w * ev) s 1 (EwaldTest.Ewald.j_max self).
Proof. unfold EwaldTest.Ewald.integralFunc. apply accumulating_loop. Qed.

Lemma Ewald_t2IntegralFunc_last {L : Type} `{Ewald.LatticeLike L}
  (self : Ewald.t L) (s w : R) (j_min : nat) :
  Ewald.t2IntegralFunc self s w j_min
  = series_term (Ewald.E self) (w * ev) s j_min (Ewald.j_max self).
Proof. unfold Ewald.t2IntegralFunc. apply overwriting_loop. Qed.

Lemma EwaldTest_t2IntegralFunc_last (self : EwaldTest.Ewald.t) (s w : R)
  (j_factor : nat) :
  EwaldTest.Ewald.t2IntegralFunc self s w j_factor
  = series_term (EwaldTest.Ewald.E self) (w * ev) s j_factor
      (EwaldTest.Ewald.j_max self).
Proof. unfold EwaldTest.Ewald.t2IntegralFunc. apply overwriting_loop. Qed.

(** C2 at its failing inputs.  [integralFunc] is the truncated series with
    offset 1, but [t2IntegralFunc], in both files, returns only the term
    [j = j_max]: with a truncation order [j_max >= 1] it misses the terms
    [j < j_max], and where the exponential integrals of those terms are
    positive it is strictly less than the series. *)
Theorem t2IntegralFunc_keeps_last_term_only {L : Type} `{Ewald.LatticeLike L}
  (self : Ewald.t L) (self' : EwaldTest.Ewald.t) (s w : R) (j_min : nat) :
  (1 <= Ewald.j_max self)%nat ->
  (1 <= EwaldTest.Ewald.j_max self')%nat ->
  (forall j, (j < Ewald.j_max self)%nat ->
             0 < expn (j + j_min) (s ^ 2 * Ewald.E self ^ 2)) ->
  (forall j, (j < EwaldTest.Ewald.j_max self')%nat ->
             0 < expn (j + j_min) (s ^ 2 * EwaldTest.Ewald.E self' ^ 2)) ->
  Ewald.integralFunc self s w
  = integral_series (Ewald.E self) (w * ev) s 1 (Ewald.j_max self)
  /\ Ewald.t2IntegralFunc self s w j_min
     = series_term (Ewald.E self) (w * ev) s j_min (Ewald.j_max self)
  /\ integral_series (Ewald.E self) (w * ev) s j_min (Ewald.j_max self)
     - Ewald.t2IntegralFunc self s w j_min
     = integral_series (Ewald.E self) (w * ev) s j_min (Ewald.j_max self - 1)
  /\ Ewald.t2IntegralFunc self s w j_min
     < integral_series (Ewald.E self) (w * ev) s j_min (Ewald.j_max self)
  /\ EwaldTest.Ewald.t2IntegralFunc self' s w j_min
     < integral_series (EwaldTest.Ewald.E self') (w * ev) s j_min
         (EwaldTest.Ewald.j_max self').
Proof.
  intros Hj Hj' Hpos Hpos'.
  split; [apply Ewald_integralFunc_series |].
  split; [apply Ewald_t2IntegralFunc_last |].
  split; [| split].
  - rewrite Ewald_t2IntegralFunc_last.
    destruct (Ewald.j_max self) as [| p]; [lia |].
    replace (S p - 1)%nat with p by lia. simpl. ring.
  - rewrite Ewald_t2IntegralFunc_last.
    destruct (Ewald.j_max self) as [| p]; [lia |]. simpl.
    assert (Hp := integral_series_pos (Ewald.E self) (w * ev) s j_min p).
    assert (0 < integral_series (Ewald.E self) (w * ev) s j_min p)
      by (apply Hp; intros j Hle; apply Hpos; lia).
    lra.
  - rewrite EwaldTest_t2IntegralFunc_last.
    destruct (EwaldTest.Ewald.j_max self') as [| p]; [lia |]. simpl.
    assert (Hp := integral_series_pos (EwaldTest.Ewald.E self') (w * ev) s j_min p).
    assert (0 < integral_series (EwaldTest.Ewald.E self') (w * ev) s j_min p)
      by (apply Hp; intros j Hle; apply Hpos'; lia).
    lra.
Qed.

End IntegralSeries.

(** The stand-in [exp(-x) / (x + n)] is positive, and decreases with the
    order, at every positive argument. *)
Lemma sample_expn_pos (n : nat) (x : R) :
  0 < x -> 0 < @expn Sample.special_decaying n x.
Proof.
  intros Hx. change (0 < exp (- x) / (x + INR n)).
  apply Rdiv_lt_0_compat; [apply exp_pos |]. assert (Hn := pos_INR n). lra.
Qed.

Lemma sample_expn_decr (n : nat) (x : R) :
  0 < x -> @expn Sample.special_decaying (S n) x < @expn Sample.special_decaying n x.
Proof.
  intros Hx. change (exp (- x) / (x + INR (S n)) < exp (- x) / (x + INR n)).
  assert (Hn := pos_INR n). rewrite S_INR. unfold Rdiv.
  apply Rmult_lt_compat_l; [apply exp_pos |].
  apply Rinv_lt_contravar; [| lra].
  apply Rmult_lt_0_compat; lra.
Qed.

Lemma t2IntegralFunc_keeps_last_term_only_witness :
  @Ewald.t2IntegralFunc _ Sample.special_decaying Sample.ewald_unit 1 (/ ev) 0
  < @integral_series Sample.special_decaying 1 (/ ev * ev) 1 0 1
  /\ @EwaldTest.Ewald.t2IntegralFunc Sample.special_decaying Sample.ewald_test_unit
       1 (/ ev) 0
     < @integral_series Sample.special_decaying 1 (/ ev * ev) 1 0 1.
Proof.
  assert (Hx : 0 < 1 ^ 2 * 1 ^ 2) by lra.
  exact (proj2 (proj2 (proj2
           (@t2IntegralFunc_keeps_last_term_only Sample.special_decaying _
              Ewald.Square_lattice Sample.ewald_unit Sample.ewald_test_unit
              1 (/ ev) 0 (le_n 1) (le_n 1)
              (fun j _ => sample_expn_pos (j + 0) _ Hx)
              (fun j _ => sample_expn_pos (j + 0) _ Hx))))).
Defined.

(** ** The integral family [I_n] *)

Section IntegralFamily.

Context `{SF : SpecialFunctions}.

Lemma t2_I_n_defined (self : EwaldTest.Ewald.t) (dist w : R) (n : nat) :
  (1 <= n)%nat -> exists v, EwaldTest.Ewald.t2_I_n self dist w n = Some v.
Proof.
  induction n as [n IH] using (well_founded_induction lt_wf).
  intros Hn. destruct n as [| [| [| p]]].
  - lia.
  - eexists; reflexivity.
  - eexists; reflexivity.
  - destruct (IH (S (S p))) as [v1 Hv1]; [lia | lia |].
    destruct (IH (S p)) as [v2 Hv2]; [lia | lia |].
    change (EwaldTest.Ewald.t2_I_n self dist w (S (S (S p))))
      with (prev1 <- EwaldTest.Ewald.t2_I_n self dist w (S (S p)) ;;
            prev2 <- EwaldTest.Ewald.t2_I_n self dist w (S p) ;;
            Some (EwaldTest.Ewald.E self ^ (2 * (S (S (S p)) - 1))
                  / (2 * INR (S (S (S p)) - 1) * dist ^ 2)
                  * exp ((w * ev) ^ 2 / (4 * EwaldTest.Ewald.E self ^ 2)
                         - dist ^ 2 * EwaldTest.Ewald.E self ^ 2)
                  + prev1 / dist ^ 2
                  - (w * ev) ^ 2 / (4 * dist ^ 2) * prev2)).
    rewrite Hv1, Hv2. eexists; reflexivity.
Qed.

(** [t2_I_n] of [ewald_test.py] follows the recurrence from [n = 2] on, with
    [I_0 = 0.5 t2IntegralFunc(.., 1)] and [I_1 = 0.5 eta^2 t2IntegralFunc(.., 0)]. *)
Lemma t2_I_n_recurrence (self : EwaldTest.Ewald.t) (dist w : R) (n : nat) :
  (2 <= n)%nat ->
  I_family self dist w 0 = 0.5 * EwaldTest.Ewald.t2IntegralFunc self dist w 1
  /\ I_family self dist w 1
     = 0.5 * EwaldTest.Ewald.E self ^ 2 * EwaldTest.Ewald.t2IntegralFunc self dist w 0
  /\ I_family self dist w n
     = recurrence_step (EwaldTest.Ewald.E self) (w * ev) dist n
         (I_family self dist w (n - 1)) (I_family self dist w (n - 2)).
Proof.
  intros Hn. split; [reflexivity |]. split; [reflexivity |].
  destruct n as [| [| [| p]]]; try lia.
  - unfold I_family; simpl EwaldTest.Ewald.t2_I_n. unfold recurrence_step.
    simpl Nat.sub. simpl INR. simpl Nat.mul.
    replace (2 * 1 * dist ^ 2) with (2 * dist ^ 2) by ring.
    reflexivity.
  - destruct (t2_I_n_defined self dist w (S (S p))) as [v1 Hv1]; [lia |].
    destruct (t2_I_n_defined self dist w (S p)) as [v2 Hv2]; [lia |].
    replace (S (S (S p)) - 1)%nat with (S (S p)) by lia.
    replace (S (S (S p)) - 2)%nat with (S p) by lia.
    unfold I_family.
    change (EwaldTest.Ewald.t2_I_n self dist w (S (S (S p))))
      with (prev1 <- EwaldTest.Ewald.t2_I_n self dist w (S (S p)) ;;
            prev2 <- EwaldTest.Ewald.t2_I_n self dist w (S p) ;;
            Some (EwaldTest.Ewald.E self ^ (2 * (S (S (S p)) - 1))
                  / (2 * INR (S (S (S p)) - 1) * dist ^ 2)
                  * exp ((w * ev) ^ 2 / (4 * EwaldTest.Ewald.E self ^ 2)
                         - dist ^ 2 * EwaldTest.Ewald.E self ^ 2)
                  + prev1 / dist ^ 2
                  - (w * ev) ^ 2 / (4 * dist ^ 2) * prev2)).
    rewrite Hv1, Hv2. simpl bind. unfold recurrence_step. reflexivity.
Qed.

End IntegralFamily.

Section SelfTermIntegral.

Context `{SF : SpecialFunctions} {L : Type} `{Ewald.LatticeLike L}.

(** What [t2_I_2] of [plasmonic_lattice.py] falls short of the [n = 2]
    recurrence by. *)
Lemma t2_I_2_gap (self : Ewald.t L) (dist w : R) :
  recurrence_step (Ewald.E self) (w * ev) dist 2
    (Ewald.t2_I_1 self dist w) (Ewald.t2_I_0 self dist w)
  - Ewald.t2_I_2 self dist w
  = / (2 * dist ^ 2)
    * (Ewald.t2_I_1 self dist w - (w * ev) ^ 2 / 4 * Ewald.t2_I_0 self dist w).
Proof.
  unfold recurrence_step, Ewald.t2_I_2.
  simpl Nat.sub. simpl INR. simpl Nat.mul.
  unfold Rdiv.
  replace (/ (2 * 1 * dist ^ 2)) with (/ 2 * / dist ^ 2)
    by (rewrite <- Rinv_mult; f_equal; ring).
  replace (/ (2 * dist ^ 2)) with (/ 2 * / dist ^ 2)
    by (rewrite <- Rinv_mult; reflexivity).
  replace (/ (4 * dist ^ 2)) with (/ 4 * / dist ^ 2)
    by (rewrite <- Rinv_mult; reflexivity).
  replace (/ (8 * dist ^ 2)) with (/ 8 * / dist ^ 2)
    by (rewrite <- Rinv_mult; reflexivity).
  generalize (/ dist ^ 2). intros z. field.
Qed.

(** C3 at its failing inputs.  [I_0] and [I_1] are as the claim gives them,
    but [t2_I_2] of [plasmonic_lattice.py] halves the [I_1] and [I_0] terms of
    the [n = 2] recurrence.  With [k <= 2 eta], and where the exponential
    integral of order [j_max + 1] is positive and below the one of order
    [j_max] at [dist^2 eta^2], it lies strictly below the recurrence value. *)
Theorem t2_I_2_below_recurrence (self : Ewald.t L) (dist w : R) :
  0 < dist -> 0 < w -> 0 < Ewald.E self -> w * ev <= 2 * Ewald.E self ->
  0 < expn (S (Ewald.j_max self)) (dist ^ 2 * Ewald.E self ^ 2) ->
  expn (S (Ewald.j_max self)) (dist ^ 2 * Ewald.E self ^ 2)
  < expn (Ewald.j_max self) (dist ^ 2 * Ewald.E self ^ 2) ->
  Ewald.t2_I_0 self dist w = 0.5 * Ewald.t2IntegralFunc self dist w 1
  /\ Ewald.t2_I_1 self dist w
     = 0.5 * Ewald.E self ^ 2 * Ewald.t2IntegralFunc self dist w 0
  /\ recurrence_step (Ewald.E self) (w * ev) dist 2
       (Ewald.t2_I_1 self dist w) (Ewald.t2_I_0 self dist w)
     - Ewald.t2_I_2 self dist w
     = / (2 * dist ^ 2)
       * (Ewald.t2_I_1 self dist w - (w * ev) ^ 2 / 4 * Ewald.t2_I_0 self dist w)
  /\ Ewald.t2_I_2 self dist w
     < recurrence_step (Ewald.E self) (w * ev) dist 2
         (Ewald.t2_I_1 self dist w) (Ewald.t2_I_0 self dist w).
Proof.
  intros Hd Hw HE Hk2 Hpos Hdec.
  split; [reflexivity |]. split; [reflexivity |].
  split; [apply t2_I_2_gap |].
  assert (Hk : 0 < w * ev) by (apply Rmult_lt_0_compat; [exact Hw | exact ev_pos]).
  apply Rlt_0_minus. rewrite t2_I_2_gap.
  apply Rmult_lt_0_compat.
  - apply Rinv_0_lt_compat. assert (0 < dist ^ 2) by (apply pow_lt; exact Hd). lra.
  - unfold Ewald.t2_I_1, Ewald.t2_I_0.
    rewrite !Ewald_t2IntegralFunc_last. unfold series_term.
    set (c := 1 / INR (fact (Ewald.j_max self))
              * (w * ev / (2 * Ewald.E self)) ^ (2 * Ewald.j_max self)).
    set (x := dist ^ 2 * Ewald.E self ^ 2) in *.
    assert (Hc : 0 < c).
    { unfold c. apply Rmult_lt_0_compat.
      - apply Rdiv_lt_0_compat; [lra |]. apply lt_0_INR, lt_O_fact.
      - apply pow_lt. apply Rdiv_lt_0_compat; lra. }
    rewrite Nat.add_0_r, Nat.add_1_r.
    set (e0 := expn (Ewald.j_max self) x) in *.
    set (e1 := expn (S (Ewald.j_max self)) x) in *.
    assert (Hsq : (w * ev) ^ 2 / 4 <= Ewald.E self ^ 2) by nra.
    assert (He : (w * ev) ^ 2 / 4 * e1 < Ewald.E self ^ 2 * e0).
    { apply Rle_lt_trans with (Ewald.E self ^ 2 * e1).
      - apply Rmult_le_compat_r; lra.
      - apply Rmult_lt_compat_l; [apply pow_lt; exact HE | exact Hdec]. }
    replace (0.5 * Ewald.E self ^ 2 * (c * e0) - (w * ev) ^ 2 / 4 * (0.5 * (c * e1)))
      with (0.5 * c * (Ewald.E self ^ 2 * e0 - (w * ev) ^ 2 / 4 * e1)) by field.
    apply Rmult_lt_0_compat; lra.
Qed.

End SelfTermIntegral.

Lemma t2_I_2_below_recurrence_witness :
  @Ewald.t2_I_2 _ Sample.special_decaying Sample.ewald_unit0 1 (/ ev)
  < @recurrence_step 1 (/ ev * ev) 1 2
      (@Ewald.t2_I_1 _ Sample.special_decaying Sample.ewald_unit0 1 (/ ev))
      (@Ewald.t2_I_0 _ Sample.special_decaying Sample.ewald_unit0 1 (/ ev)).
Proof.
  assert (Hev := ev_pos).
  assert (Hw : 0 < / ev) by (apply Rinv_0_lt_compat; exact Hev).
  assert (Hk : / ev * ev <= 2 * Ewald.E Sample.ewald_unit0).
  { rewrite Rinv_l by lra. change (Ewald.E Sample.ewald_unit0) with 1. lra. }
  assert (Hx : 0 < 1 ^ 2 * 1 ^ 2) by lra.
  exact (proj2 (proj2 (proj2
           (@t2_I_2_below_recurrence Sample.special_decaying _ Ewald.Square_lattice
              Sample.ewald_unit0 1 (/ ev) Rlt_0_1 Hw Rlt_0_1 Hk
              (sample_expn_pos 1 _ Hx) (sample_expn_decr 0 _ Hx))))).
Defined.

(** ** Negative harmonic orders *)

Section NegativeHarmonics.

Context `{SF : SpecialFunctions} {L : Type} `{Ewald.LatticeLike L}.

(** [t1_lim] of [plasmonic_lattice.py] at a negative order is minus the
    conjugate of its value at the positive order. *)
Lemma Ewald_t1_lim_negative (self : Ewald.t L) (w : R) (n : Z) :
  (0 < n)%Z ->
  Ewald.t1_lim self w (- n) = (- Cconj (Ewald.t1_lim self w n))%C.
Proof.
  intros Hn. unfold Ewald.t1_lim.
  destruct (Ewald.getLatticeVectors (Ewald.lattice self)) as [a1 a2].
  replace (- n <? 0)%Z with true by (symmetry; apply Z.ltb_lt; lia).
  replace (n <? 0)%Z with false by (symmetry; apply Z.ltb_ge; lia).
  replace (0 <? - n)%Z with false by (symmetry; apply Z.ltb_ge; lia).
  replace (- n =? 0)%Z with false by (symmetry; apply Z.eqb_neq; lia).
  replace (0 <? n)%Z with true by (symmetry; apply Z.ltb_lt; lia).
  replace (Z.abs (- n)) with n by lia.
  reflexivity.
Qed.

(** So is [t2_lim]. *)
Lemma Ewald_t2_lim_negative (self : Ewald.t L) (w : R) (n : Z) :
  (0 < n)%Z ->
  Ewald.t2_lim self w (- n) = (- Cconj (Ewald.t2_lim self w n))%C.
Proof.
  intros Hn. unfold Ewald.t2_lim.
  replace (- n <? 0)%Z with true by (symmetry; apply Z.ltb_lt; lia).
  replace (n <? 0)%Z with false by (symmetry; apply Z.ltb_ge; lia).
  replace (0 <? - n)%Z with false by (symmetry; apply Z.ltb_ge; lia).
  replace (- n =? 0)%Z with false by (symmetry; apply Z.eqb_neq; lia).
  replace (n =? 0)%Z with false by (symmetry; apply Z.eqb_neq; lia).
  replace (0 <? n)%Z with true by (symmetry; apply Z.ltb_lt; lia).
  replace (Z.abs (- n)) with n by lia.
  reflexivity.
Qed.

End NegativeHarmonics.

(** In [ewald_test.py] the loop of [t1_lim] rebinds [n] to [abs(n)], so the
    test [n < 0] after the loop never holds once the loop has run: the value
    at a negative order is the value at the positive order. *)
Lemma EwaldTest_t1_lim_negative (self : EwaldTest.Ewald.t) (w : R) (n : Z) :
  (0 < n)%Z ->
  EwaldTest.Ewald.reciprocal_points self <> [] ->
  EwaldTest.Ewald.t1_lim self w (- n) = EwaldTest.Ewald.t1_lim self w n.
Proof.
  intros Hn Hne. unfold EwaldTest.Ewald.t1_lim.
  destruct (EwaldTest.Lattice.getBravaisVectors (EwaldTest.Ewald.lattice self))
    as [a1 a2].
  destruct (EwaldTest.Ewald.reciprocal_points self) as [| G_pos l];
    [contradiction |].
  cbn [fold_left].
  replace (- n <? 0)%Z with true by (symmetry; apply Z.ltb_lt; lia).
  replace (n <? 0)%Z with false by (symmetry; apply Z.ltb_ge; lia).
  replace (Z.abs (- n)) with n by lia.
  reflexivity.
Qed.

Lemma ev_gt_1 : 1 < ev.
Proof.
  unfold ev. assert (Hpi : 3 < PI) by (assert (Hp := PI2_3_2); lra).
  assert (Hu : 0 < / 10 ^ 34) by (apply Rinv_0_lt_compat, pow_lt; lra).
  assert (Hv : / 10 ^ 19 = 10 ^ 15 * / 10 ^ 34) by (field; split; apply pow_nonzero; lra).
  rewrite Hv. set (u := / 10 ^ 34) in *.
  assert (Hden : 0 < 6.626 * u * 2.997 * 10 ^ 8) by nra.
  set (d := 6.626 * u * 2.997 * 10 ^ 8) in *.
  set (nm := 1.602 * (10 ^ 15 * u) * 2 * PI).
  assert (Hnm : d < nm) by (unfold d, nm; nra).
  apply Rmult_lt_reg_r with d; [exact Hden |].
  replace (nm / d * d) with nm by (field; lra).
  lra.
Qed.

(** ** [t1_lim] of [ewald_test.py] at a concrete input *)

Lemma sample_reciprocal_points :
  EwaldTest.Ewald.reciprocal_points Sample.ewald_test
  = [vadd (vscale (IZR 0) (EwaldTest.Lattice.b1 Sample.lattice))
          (vscale (IZR 0) (EwaldTest.Lattice.b2 Sample.lattice))].
Proof. reflexivity. Qed.

Lemma vadd_0_r (v : vec) : vadd v (0, 0) = v.
Proof. destruct v; unfold vadd; simpl. f_equal; ring. Qed.

Lemma norm_unit_x : norm (1, 0) = 1.
Proof.
  unfold norm; simpl. replace (1 * 1 + 0 * 0) with 1 by ring. apply sqrt_1.
Qed.

Lemma arctan2_0_1 : arctan2 0 1 = 0.
Proof.
  unfold arctan2. destruct (Rlt_dec 0 1) as [_ | Hn]; [| lra].
  replace (0 / 1) with 0 by field. apply atan_0.
Qed.

Lemma Ci_squared : Cpow Ci 2 = RtoC (-1).
Proof. apply C_eq; simpl; ring. Qed.

Lemma Cexp_0 : Cexp C0 = C1.
Proof.
  unfold Cexp; simpl. rewrite exp_0, cos_0, sin_0. apply C_eq; simpl; ring.
Qed.

Lemma test_t1_lim_value :
  EwaldTest.Ewald.t1_lim Sample.ewald_test 1 1
  = RtoC (4 / -1 * -1 * (1 / ((1 * ev) ^ 2 - 1 ^ 2))
          * exp (((1 * ev) ^ 2 - 1 ^ 2) / (4 * ev ^ 2))
          * (1 / (1 * ev)) ^ 1).
Proof.
  unfold EwaldTest.Ewald.t1_lim.
  rewrite sample_reciprocal_points.
  change (EwaldTest.Lattice.getBravaisVectors (EwaldTest.Ewald.lattice Sample.ewald_test))
    with ((0, 1), (1, 0)).
  cbv iota beta. cbn [fold_left].
  rewrite zero_combination.
  change (EwaldTest.Ewald.q Sample.ewald_test) with (1, 0).
  change (EwaldTest.Ewald.E Sample.ewald_test) with ev.
  change (1 <? 0)%Z with false. cbv iota.
  change (Z.to_nat (1 + 1)) with 2%nat. change (Z.to_nat 1) with 1%nat.
  rewrite vadd_0_r, norm_unit_x. cbn [fst snd]. rewrite arctan2_0_1.
  replace (cross (0, 1) (1, 0)) with (-1) by (unfold cross; simpl; ring).
  rewrite Ci_squared.
  replace (- Ci * RtoC 1 * RtoC 0)%C with C0 by (apply C_eq; simpl; ring).
  rewrite Cexp_0.
  rewrite !RtoC_mul. apply C_eq; simpl; ring.
Qed.

(** C4 at its failing input.  [t1_lim] and [t2_lim] of [plasmonic_lattice.py]
    satisfy the symmetry ([Ewald_t1_lim_negative], [Ewald_t2_lim_negative]),
    but [Ewald(ev, 1, q=(1, 0), Lattice((0, 1), (1, 0)), 0, (0, 0), 0).t1_lim(1, -1)]
    of [ewald_test.py] returns [t1_lim(1, 1)], a non-zero real number, and not
    minus its conjugate. *)
Theorem test_t1_lim_negative_order :
  EwaldTest.Ewald.t1_lim Sample.ewald_test 1 (-1)
  = EwaldTest.Ewald.t1_lim Sample.ewald_test 1 1
  /\ EwaldTest.Ewald.t1_lim Sample.ewald_test 1 (-1)
     <> (- Cconj (EwaldTest.Ewald.t1_lim Sample.ewald_test 1 1))%C.
Proof.
  assert (Hsame : EwaldTest.Ewald.t1_lim Sample.ewald_test 1 (-1)
                  = EwaldTest.Ewald.t1_lim Sample.ewald_test 1 1).
  { apply (EwaldTest_t1_lim_negative Sample.ewald_test 1 1); [lia |].
    rewrite sample_reciprocal_points. discriminate. }
  split; [exact Hsame |].
  rewrite Hsame, test_t1_lim_value. intros Heq.
  apply (f_equal Re) in Heq. unfold Copp, Cconj, RtoC in Heq. cbn [Re] in Heq.
  assert (Hev := ev_gt_1).
  assert (H1 : 0 < 1 / ((1 * ev) ^ 2 - 1 ^ 2)).
  { apply Rdiv_lt_0_compat; [lra | nra]. }
  assert (H2 := exp_pos (((1 * ev) ^ 2 - 1 ^ 2) / (4 * ev ^ 2))).
  assert (H3 : 0 < (1 / (1 * ev)) ^ 1).
  { apply pow_lt. apply Rdiv_lt_0_compat; lra. }
  assert (H4 : 0 < 4 / -1 * -1) by lra.
  assert (H5 : 0 < 4 / -1 * -1 * (1 / ((1 * ev) ^ 2 - 1 ^ 2))
                   * exp (((1 * ev) ^ 2 - 1 ^ 2) / (4 * ev ^ 2))
                   * (1 / (1 * ev)) ^ 1).
  { apply Rmult_lt_0_compat; [| exact H3].
    apply Rmult_lt_0_compat; [| exact H2].
    apply Rmult_lt_0_compat; [exact H4 | exact H1]. }
  lra.
Qed.

(** ** The reciprocal-space sum *)

Lemma negated_scaling {A : Type} (l : list A) (a : R) (f d : A -> C) :
  Cfor_sum l (fun x => (RtoC (- (1 / a)) * f x / d x)%C)
  = (- (RtoC (1 / a) * Cfor_sum l (fun x => (f x / d x)%C)))%C.
Proof.
  rewrite (Cfor_sum_ext _ (fun x => (RtoC (- (1 / a)) * (f x / d x))%C)).
  - rewrite Cfor_sum_scale.
    generalize (Cfor_sum l (fun x => (f x / d x)%C)). intros z. c_ring.
  - intros x _. unfold Cdiv. rewrite Cmul_assoc. reflexivity.
Qed.

Lemma positive_scaling {A : Type} (l : list A) (a : R) (f d : A -> C) :
  Cfor_sum l (fun x => (RtoC (1 / a) * f x / d x)%C)
  = (RtoC (1 / a) * Cfor_sum l (fun x => (f x / d x)%C))%C.
Proof.
  rewrite (Cfor_sum_ext _ (fun x => (RtoC (1 / a) * (f x / d x))%C)).
  - apply Cfor_sum_scale.
  - intros x _. unfold Cdiv. rewrite Cmul_assoc. reflexivity.
Qed.

Lemma Ewald_ewaldG1_negated {L : Type} `{Ewald.LatticeLike L}
  (self : Ewald.t L) (w : R) :
  Ewald.ewaldG1 self w
  = (- G1_spec (Ewald.q self) (Ewald.pos self) (Ewald.E self) (w * ev)
         (cross (fst (Ewald.getLatticeVectors (Ewald.lattice self)))
                (snd (Ewald.getLatticeVectors (Ewald.lattice self))))
         (Ewald.getLattice (Ewald.lattice self) reciprocal true))%C.
Proof.
  unfold Ewald.ewaldG1, G1_spec.
  destruct (Ewald.getLatticeVectors (Ewald.lattice self)) as [a1 a2].
  cbn [fst snd]. apply negated_scaling.
Qed.

Lemma EwaldTest_ewaldG1_positive (self : EwaldTest.Ewald.t) (w : R) :
  EwaldTest.Ewald.ewaldG1 self w
  = G1_spec (EwaldTest.Ewald.q self) (EwaldTest.Ewald.pos self)
      (EwaldTest.Ewald.E self) (w * ev)
      (cross (EwaldTest.Lattice.a1 (EwaldTest.Ewald.lattice self))
             (EwaldTest.Lattice.a2 (EwaldTest.Ewald.lattice self)))
      (EwaldTest.Ewald.reciprocal_points self).
Proof.
  unfold EwaldTest.Ewald.ewaldG1, G1_spec, EwaldTest.Lattice.getBravaisVectors.
  apply positive_scaling.
Qed.

(** ** Self-interaction *)

Section SelfInteraction.

Context `{SF : SpecialFunctions}.

(** At zero position [dyadicSumEwald] takes its first branch, whatever the
    lattice. *)
Lemma dyadicSumEwald_at_origin {L : Type} `{Ewald.LatticeLike L}
  (self : Ewald.t L) (w : R) :
  Ewald.pos self = (0, 0) ->
  Ewald.dyadicSumEwald_traced self w
  = ([Ewald.call_t0; Ewald.call_t1_lim 0; Ewald.call_t2_lim 0;
      Ewald.call_t1_lim 2; Ewald.call_t2_lim 2],
     let k := w * ev in
     let h_0 := (Ewald.t0 self w + Ewald.t1_lim self w 0 + Ewald.t2_lim self w 0)%C in
     let h_pos2 := (Ewald.t1_lim self w 2 + Ewald.t2_lim self w 2)%C in
     let h_neg2 := (- Cconj h_pos2)%C in
     mkMat2
       (RtoC (- k ^ 2) * (Ci / RtoC 8 * h_0 + Ci / RtoC 16 * (h_neg2 + h_pos2)))%C
       (RtoC (- k ^ 2) * (RtoC (1 / 16) * (h_neg2 - h_pos2)))%C
       (RtoC (- k ^ 2) * (RtoC (1 / 16) * (h_neg2 - h_pos2)))%C
       (RtoC (- k ^ 2) * (Ci / RtoC 8 * h_0 - Ci / RtoC 16 * (h_neg2 + h_pos2)))%C).
Proof.
  intros Hpos. unfold Ewald.dyadicSumEwald_traced.
  destruct (Req_dec_T (norm (Ewald.pos self)) 0) as [_ | Hn].
  - reflexivity.
  - exfalso. apply Hn. apply norm_zero_iff. exact Hpos.
Qed.

Lemma Square_separations_nonzero (s : Square.t) :
  Square.scaling s * Square.spacing s <> 0 ->
  Forall (fun d => d <> 0) (map norm (Square.getLattice s bravais false)).
Proof.
  intros HL. apply Forall_forall. intros d Hd.
  apply in_map_iff in Hd. destruct Hd as [R_pos [<- Hin]]. intros Hz.
  apply norm_zero_iff in Hz. subst R_pos. revert Hin.
  unfold Square.getLattice, Square.getLatticeVectors.
  apply skipping_loop_no_origin. unfold cross; simpl. nra.
Qed.

Lemma Triangle_separations_nonzero (s : Triangle.t) :
  Triangle.spacing s <> 0 ->
  Forall (fun d => d <> 0) (map norm (Triangle.getLattice s bravais false)).
Proof.
  intros HL. apply Forall_forall. intros d Hd.
  apply in_map_iff in Hd. destruct Hd as [R_pos [<- Hin]]. intros Hz.
  apply norm_zero_iff in Hz. subst R_pos. revert Hin.
  unfold Triangle.getLattice.
  apply skipping_loop_no_origin. unfold cross, Triangle.t1, Triangle.t2; simpl.
  assert (H3 : 0 < sqrt 3) by (apply sqrt_lt_R0; lra).
  intros Hc.
  assert (Hs : Triangle.spacing s * Triangle.spacing s * sqrt 3 = 0) by lra.
  apply Rmult_integral in Hs. destruct Hs as [Hs | Hs]; [| lra].
  apply Rmult_integral in Hs. tauto.
Qed.

(** C6.  With the evaluation position at [(0, 0)], [dyadicSumEwald] on a
    square lattice of non-zero spacing builds its result from [t0],
    [t1_lim] and [t2_lim] at the orders 0 and 2 (the order -2 being minus the
    conjugate of order 2); it calls none of [dyadicEwaldG1], [dyadicEwaldG2],
    [ewaldG2], whose separations include zero at every radius [>= 0]; and every
    separation it divides by is non-zero. *)
Theorem self_interaction_uses_self_terms (self : Ewald.t Square.t) (w : R) :
  Ewald.pos self = (0, 0) ->
  Square.scaling (Ewald.lattice self) * Square.spacing (Ewald.lattice self) <> 0 ->
  Ewald.dyadicSumEwald self w
  = (let k := w * ev in
     let h_0 := (Ewald.t0 self w + Ewald.t1_lim self w 0 + Ewald.t2_lim self w 0)%C in
     let h_pos2 := (Ewald.t1_lim self w 2 + Ewald.t2_lim self w 2)%C in
     let h_neg2 := (- Cconj h_pos2)%C in
     mkMat2
       (RtoC (- k ^ 2) * (Ci / RtoC 8 * h_0 + Ci / RtoC 16 * (h_neg2 + h_pos2)))%C
       (RtoC (- k ^ 2) * (RtoC (1 / 16) * (h_neg2 - h_pos2)))%C
       (RtoC (- k ^ 2) * (RtoC (1 / 16) * (h_neg2 - h_pos2)))%C
       (RtoC (- k ^ 2) * (Ci / RtoC 8 * h_0 - Ci / RtoC 16 * (h_neg2 + h_pos2)))%C)
  /\ Forall (fun c => Ewald.general_call c = false)
       (fst (Ewald.dyadicSumEwald_traced self w))
  /\ Forall (fun d => d <> 0) (Ewald.t2_lim_separations self)
  /\ ((0 <= Square.neighbours (Ewald.lattice self))%Z ->
      In 0 (Ewald.general_separations self)).
Proof.
  intros Hpos HL.
  unfold Ewald.dyadicSumEwald.
  rewrite (dyadicSumEwald_at_origin self w Hpos). cbn [fst snd].
  split; [reflexivity |].
  split; [repeat constructor |].
  split; [apply Square_separations_nonzero; exact HL |].
  intros Hn. unfold Ewald.general_separations. rewrite Hpos.
  apply in_map_iff.
  exists (vadd (vscale (IZR 0) (fst (Square.getLatticeVectors (Ewald.lattice self))))
               (vscale (IZR 0) (snd (Square.getLatticeVectors (Ewald.lattice self))))).
  split.
  - rewrite zero_combination. apply norm_zero_iff.
    unfold vsub; simpl. f_equal; ring.
  - change (Ewald.getLattice (Ewald.lattice self) bravais true)
      with (Square.getLattice (Ewald.lattice self) bravais true).
    unfold Square.getLattice.
    destruct (Square.getLatticeVectors (Ewald.lattice self)) as [t1 t2].
    cbn [fst snd]. apply in_flat_map. exists (0%Z, 0%Z). split.
    + apply in_prod; apply in_arange; lia.
    + left. reflexivity.
Qed.

End SelfInteraction.

Lemma self_interaction_uses_self_terms_witness :
  Forall (fun c => Ewald.general_call c = false)
    (fst (@Ewald.dyadicSumEwald_traced _ Ewald.Square_lattice Sample.special
            Sample.ewald_square 1))
  /\ Forall (fun d => d <> 0) (Ewald.t2_lim_separations Sample.ewald_square).
Proof.
  assert (HL : Square.scaling (Ewald.lattice Sample.ewald_square)
               * Square.spacing (Ewald.lattice Sample.ewald_square) <> 0)
    by (simpl; lra).
  destruct (@self_interaction_uses_self_terms Sample.special Sample.ewald_square 1
              eq_refl HL) as [_ [Hcalls [Hsep _]]].
  split; [exact Hcalls | exact Hsep].
Defined.

(** ** The memoising decorator *)

Section MemoizeTransparent.

Context {K V : Type} (K_eq_dec : forall a b : K, {a = b} + {a <> b}).

(** A decorated function returns what the function under it returns, and
    keeps its dictionary coherent. *)
Lemma memoize_transparent (f : K -> V) (args : K) (cache : list (K * V)) :
  cache_coherent K_eq_dec f cache ->
  fst (memoize K_eq_dec f args cache) = f args
  /\ cache_coherent K_eq_dec f (snd (memoize K_eq_dec f args cache)).
Proof.
  intros Hc. unfold memoize.
  destruct (cache_lookup K_eq_dec cache args) as [v |] eqn:Hl; cbn [fst snd].
  - split; [apply Hc; exact Hl | exact Hc].
  - split; [reflexivity |].
    intros k v Hk. cbn [cache_lookup] in Hk.
    destruct (K_eq_dec k args) as [-> | Hne].
    + injection Hk as <-. reflexivity.
    + apply Hc. exact Hk.
Qed.

End MemoizeTransparent.

(** ** The archived assembler *)

Section ArchivedInteractions.

Context `{SF : SpecialFunctions}.

(** [interactions] of [archive/_extended_cell.py] also computes block
    [(m, n)] directly, with the whole separation negated, in the Green's
    function and in the phase. *)
Lemma archived_lower_block (intracell intercell : list vec) (w : R) (q : vec)
  (n m : nat) (pn pm : vec) :
  (length intracell <= 6)%nat ->
  (n < m)%nat ->
  nth_error intracell n = Some pn ->
  nth_error intracell m = Some pm ->
  exists Hmat,
    ExtendedCell.interactions intracell intercell w q = Some Hmat
    /\ get_block Hmat m n
       = mat2_sum
           (map (fun inter =>
                   let d := vneg (vadd (vadd (vneg pn) pm) inter) in
                   mat2_scale (ExtendedCell.green (w * ev) d)
                              (Cexp (Ci * RtoC (dot q d))))
                intercell).
Proof.
  intros Hlen Hnm Hpn Hpm.
  assert (Hm : (m < length intracell)%nat)
    by (apply nth_error_Some; rewrite Hpm; discriminate).
  unfold ExtendedCell.interactions.
  replace (6 <? length intracell)%nat with false
    by (symmetry; apply Nat.ltb_ge; exact Hlen).
  cbn [andb].
  pose (block := fun (flip : bool) (a b : nat) =>
          mat2_sum
            (map (fun inter =>
                    let d0 := vadd (vadd (vneg (nth a intracell (0, 0)))
                                         (nth b intracell (0, 0))) inter in
                    let d := if flip then vneg d0 else d0 in
                    mat2_scale (ExtendedCell.green (w * ev) d)
                               (Cexp (Ci * RtoC (dot q d))))
                 intercell)).
  pose (D := fun a b : nat => if (a <? b)%nat then block false a b else block true b a).
  rewrite (foldM_total _ (pair_step D)).
  2:{ intros Hacc [a b] Hin. apply in_combinations2_seq in Hin.
      destruct (nth_error intracell a) as [pa |] eqn:Ea;
        [| apply nth_error_None in Ea; lia].
      destruct (nth_error intracell b) as [pb |] eqn:Eb;
        [| apply nth_error_None in Eb; lia].
      rewrite (mapM_total _
                 (fun inter =>
                    let d := vadd (vadd (vneg pa) pb) inter in
                    mat2_scale (ExtendedCell.green (w * ev) d)
                               (Cexp (Ci * RtoC (dot q d)))))
        by (intros inter _; reflexivity).
      cbn [bind].
      rewrite (mapM_total _
                 (fun inter =>
                    let d := vneg (vadd (vadd (vneg pa) pb) inter) in
                    mat2_scale (ExtendedCell.green (w * ev) d)
                               (Cexp (Ci * RtoC (dot q d)))))
        by (intros inter _; reflexivity).
      cbn [bind]. unfold pair_step, D.
      replace (a <? b)%nat with true by (symmetry; apply Nat.ltb_lt; lia).
      replace (b <? a)%nat with false by (symmetry; apply Nat.ltb_ge; lia).
      unfold block.
      rewrite (nth_error_nth intracell a (0, 0) Ea),
              (nth_error_nth intracell b (0, 0) Eb).
      reflexivity. }
  cbn [bind]. eexists. split; [reflexivity |].
  rewrite diagonal_loop_off_diagonal by lia.
  rewrite (pair_loop_lower D).
  - unfold D. replace (m <? n)%nat with false by (symmetry; apply Nat.ltb_ge; lia).
    unfold block.
    rewrite (nth_error_nth intracell n (0, 0) Hpn),
            (nth_error_nth intracell m (0, 0) Hpm).
    reflexivity.
  - intros a b Hin. apply in_combinations2_seq in Hin. lia.
  - lia.
  - right. apply in_combinations2_seq. lia.
Qed.

End ArchivedInteractions.

(** ** The signed cell area *)

(** [np.cross(a1, a2)] is negative for the lattice vectors of [Square] and of
    [Triangle], so that [-(1./area)] is a positive number there. *)
Lemma Square_signed_area (s : Square.t) :
  Square.scaling s * Square.spacing s <> 0 ->
  let '(a1, a2) := Square.getLatticeVectors s in
  cross a1 a2 < 0 /\ 0 < - (1 / cross a1 a2).
Proof.
  intros HL. unfold Square.getLatticeVectors, cross; simpl.
  set (l := Square.scaling s * Square.spacing s) in *.
  assert (Hneg : 0 * 0 - l * l < 0) by nra.
  split; [exact Hneg |].
  assert (Hinv := Rinv_lt_0_compat _ Hneg). lra.
Qed.

Lemma Triangle_signed_area (s : Triangle.t) :
  Triangle.spacing s <> 0 ->
  let '(a1, a2) := Triangle.getLatticeVectors s in
  cross a1 a2 < 0 /\ 0 < - (1 / cross a1 a2).
Proof.
  intros HL. unfold Triangle.getLatticeVectors, Triangle.t1, Triangle.t2, cross; simpl.
  set (l := Triangle.spacing s) in *.
  assert (H3 : 0 < sqrt 3) by (apply sqrt_lt_R0; lra).
  assert (Hl : 0 < l * l) by nra.
  assert (Hneg : l / 2 * 0 - l * sqrt 3 / 2 * l < 0) by nra.
  split; [exact Hneg |].
  assert (Hinv := Rinv_lt_0_compat _ Hneg). lra.
Qed.

(** ** The scaling of the reciprocal-space sum *)

Lemma G1_spec_opp_area (q pos : vec) (eta k area : R) (Gs : list vec) :
  G1_spec q pos eta k (- area) Gs = (- G1_spec q pos eta k area Gs)%C.
Proof.
  unfold G1_spec, Rdiv. rewrite Rinv_opp.
  generalize (Cfor_sum Gs (G1_summand q pos eta k)). intros z. c_ring.
Qed.

(** With the area [|cross(a1, a2)|] of the unit cell, [ewaldG1] of
    [plasmonic_lattice.py] is the sum scaled by [+1/cellArea] on every
    [Square] and every [Triangle]: their lattice vectors turn clockwise, and
    the minus sign of [-(1./area)] undoes the sign of the cross product. *)
Lemma Square_ewaldG1_unit_cell (s : Square.t) (q pos : vec) (E : R) (j_max : nat)
  (w : R) :
  Square.scaling s * Square.spacing s <> 0 ->
  Ewald.ewaldG1 (Ewald.mk q s pos E j_max) w
  = G1_spec q pos E (w * ev)
      (Rabs (cross (fst (Square.getLatticeVectors s))
                   (snd (Square.getLatticeVectors s))))
      (Square.getLattice s reciprocal true).
Proof.
  intros HL. rewrite Ewald_ewaldG1_negated.
  cbn [Ewald.q Ewald.pos Ewald.E Ewald.lattice Ewald.getLatticeVectors
       Ewald.getLattice Ewald.Square_lattice].
  assert (Hneg := Square_signed_area s HL).
  destruct (Square.getLatticeVectors s) as [a1 a2]. cbn [fst snd].
  destruct Hneg as [Hneg _].
  rewrite (Rabs_left _ Hneg), G1_spec_opp_area. reflexivity.
Qed.

Lemma Triangle_ewaldG1_unit_cell (s : Triangle.t) (q pos : vec) (E : R)
  (j_max : nat) (w : R) :
  Triangle.spacing s <> 0 ->
  Ewald.ewaldG1 (Ewald.mk q s pos E j_max) w
  = G1_spec q pos E (w * ev)
      (Rabs (cross (fst (Triangle.getLatticeVectors s))
                   (snd (Triangle.getLatticeVectors s))))
      (Triangle.getLattice s reciprocal true).
Proof.
  intros HL. rewrite Ewald_ewaldG1_negated.
  cbn [Ewald.q Ewald.pos Ewald.E Ewald.lattice Ewald.getLatticeVectors
       Ewald.getLattice Ewald.Triangle_lattice].
  assert (Hneg := Triangle_signed_area s HL).
  destruct (Triangle.getLatticeVectors s) as [a1 a2]. cbn [fst snd].
  destruct Hneg as [Hneg _].
  rewrite (Rabs_left _ Hneg), G1_spec_opp_area. reflexivity.
Qed.

(** [ewaldG1] of [ewald_test.py] divides by the signed [cross(a1, a2)] with
    no sign of its own: it is the sum scaled by [+1/cellArea] when [a1, a2]
    turn anticlockwise, and the negation of that when they turn clockwise. *)
Lemma EwaldTest_ewaldG1_oriented (self : EwaldTest.Ewald.t) (w : R) :
  let c := cross (EwaldTest.Lattice.a1 (EwaldTest.Ewald.lattice self))
                 (EwaldTest.Lattice.a2 (EwaldTest.Ewald.lattice self)) in
  let scaled := G1_spec (EwaldTest.Ewald.q self) (EwaldTest.Ewald.pos self)
                  (EwaldTest.Ewald.E self) (w * ev) (Rabs c)
                  (EwaldTest.Ewald.reciprocal_points self) in
  (0 < c -> EwaldTest.Ewald.ewaldG1 self w = scaled)
  /\ (c < 0 -> EwaldTest.Ewald.ewaldG1 self w = (- scaled)%C).
Proof.
  intros c scaled. unfold scaled. rewrite EwaldTest_ewaldG1_positive. fold c.
  split; intros Hc.
  - rewrite (Rabs_right c) by lra. reflexivity.
  - rewrite (Rabs_left c Hc), G1_spec_opp_area.
    generalize (G1_spec (EwaldTest.Ewald.q self) (EwaldTest.Ewald.pos self)
                  (EwaldTest.Ewald.E self) (w * ev) c
                  (EwaldTest.Ewald.reciprocal_points self)).
    intros z. c_ring.
Qed.

Lemma sample_unit_area : Rabs (cross (0, 1) (1, 0)) = 1.
Proof.
  replace (cross (0, 1) (1, 0)) with (-1) by (unfold cross; simpl; ring).
  rewrite Rabs_left by lra. ring.
Qed.

Lemma sample_G1_spec_value (t1 t2 : vec) :
  G1_spec (0, 0) (0, 0) ev (1 * ev) (Rabs (cross (0, 1) (1, 0)))
    [vadd (vscale (IZR 0) t1) (vscale (IZR 0) t2)]
  = RtoC (exp (((1 * ev) ^ 2 - 0 ^ 2) / (4 * ev ^ 2)) / (0 ^ 2 - (1 * ev) ^ 2)).
Proof.
  rewrite sample_unit_area, zero_combination.
  unfold G1_spec. rewrite Cfor_sum_cons. unfold Cfor_sum at 1; cbn [fold_left].
  unfold G1_summand. rewrite vadd_0_r.
  replace (norm (0, 0)) with 0 by (symmetry; apply norm_zero_iff; reflexivity).
  replace (dot (0, 0) (0, 0)) with 0 by (unfold dot; simpl; ring).
  replace (Ci * RtoC 0)%C with C0 by (apply C_eq; simpl; ring).
  rewrite Cexp_0.
  replace (C1 * RtoC (exp (((1 * ev) ^ 2 - 0 ^ 2) / (4 * ev ^ 2))))%C
    with (RtoC (exp (((1 * ev) ^ 2 - 0 ^ 2) / (4 * ev ^ 2))))
    by (apply C_eq; simpl; ring).
  rewrite RtoC_div.
  generalize (exp (((1 * ev) ^ 2 - 0 ^ 2) / (4 * ev ^ 2)) / (0 ^ 2 - (1 * ev) ^ 2)).
  intros v. apply C_eq; simpl; field.
Qed.

(** C5 at its failing input.  On the lattice of [a1 = (0, 1)], [a2 = (1, 0)],
    whose unit cell has area 1, with [q = pos = (0, 0)], [eta = ev],
    [neighbours = 0] and [w = 1]: [ewaldG1] of [plasmonic_lattice.py] returns
    the one-term sum scaled by [+1/cellArea], as claimed, but [ewaldG1] of
    [ewald_test.py] returns its negation, a non-zero number. *)
Theorem ewaldG1_scaling :
  let area := Rabs (cross (0, 1) (1, 0)) in
  Ewald.ewaldG1 Sample.ewald_square 1
  = G1_spec (0, 0) (0, 0) ev (1 * ev) area
      (Square.getLattice Sample.square0 reciprocal true)
  /\ EwaldTest.Ewald.ewaldG1 Sample.ewald_test0 1
     = (- G1_spec (0, 0) (0, 0) ev (1 * ev) area
            (EwaldTest.Ewald.reciprocal_points Sample.ewald_test0))%C
  /\ EwaldTest.Ewald.ewaldG1 Sample.ewald_test0 1
     <> G1_spec (0, 0) (0, 0) ev (1 * ev) area
          (EwaldTest.Ewald.reciprocal_points Sample.ewald_test0).
Proof.
  intros area.
  assert (Hprod : Ewald.ewaldG1 Sample.ewald_square 1
                  = G1_spec (0, 0) (0, 0) ev (1 * ev) area
                      (Square.getLattice Sample.square0 reciprocal true)).
  { unfold Sample.ewald_square.
    rewrite (Square_ewaldG1_unit_cell Sample.square0 (0, 0) (0, 0) ev 1 1)
      by (simpl; lra).
    unfold area. rewrite sample_unit_area. f_equal.
    unfold Square.getLatticeVectors, Sample.square0, cross; simpl.
    rewrite Rabs_left by lra. ring. }
  assert (Htest : EwaldTest.Ewald.ewaldG1 Sample.ewald_test0 1
                  = (- G1_spec (0, 0) (0, 0) ev (1 * ev) area
                         (EwaldTest.Ewald.reciprocal_points Sample.ewald_test0))%C).
  { apply (proj2 (EwaldTest_ewaldG1_oriented Sample.ewald_test0 1)).
    unfold cross; simpl. lra. }
  split; [exact Hprod |]. split; [exact Htest |].
  rewrite Htest. unfold area.
  change (EwaldTest.Ewald.reciprocal_points Sample.ewald_test0)
    with [vadd (vscale (IZR 0) (EwaldTest.Lattice.b1 Sample.lattice))
               (vscale (IZR 0) (EwaldTest.Lattice.b2 Sample.lattice))].
  rewrite sample_G1_spec_value. intros Heq.
  apply (f_equal Re) in Heq. unfold Copp, RtoC in Heq. cbn [Re] in Heq.
  assert (Hev := ev_gt_1).
  assert (He := exp_pos (((1 * ev) ^ 2 - 0 ^ 2) / (4 * ev ^ 2))).
  assert (Hq : exp (((1 * ev) ^ 2 - 0 ^ 2) / (4 * ev ^ 2)) / (0 ^ 2 - (1 * ev) ^ 2) < 0).
  { unfold Rdiv. apply Rmult_pos_neg; [exact He |].
    apply Rinv_lt_0_compat. nra. }
  lra.
Qed.

(** * Further properties *)

(** ** Index sets *)

Lemma NoDup_arange (lo hi : Z) : NoDup (arange lo hi).
Proof.
  unfold arange. apply Finite.Injective_map_NoDup.
  - intros a b Hab. lia.
  - apply seq_NoDup.
Qed.

Lemma NoDup_indexed_rows (rows : list Z) (row : Z -> list Z) :
  NoDup rows -> (forall n, NoDup (row n)) ->
  NoDup (flat_map (fun n => map (pair n) (row n)) rows).
Proof.
  intros Hrows Hrow. induction Hrows as [| n rows Hn Hrows IH]; simpl.
  - constructor.
  - apply NoDup_app.
    + apply Finite.Injective_map_NoDup; [| apply Hrow].
      intros a b Hab. injection Hab as ->. reflexivity.
    + exact IH.
    + intros [i j] Hin Hin'. apply in_map_iff in Hin.
      destruct Hin as [x [Hx _]]. injection Hx as <- <-.
      apply in_flat_map in Hin'. destruct Hin' as [n' [Hn' Hin']].
      apply in_map_iff in Hin'. destruct Hin' as [y [Hy _]].
      injection Hy as -> _. contradiction.
Qed.

Lemma list_prod_rows (A B : list Z) :
  list_prod A B = flat_map (fun n => map (pair n) B) A.
Proof. induction A as [| a A IH]; simpl; [reflexivity | rewrite IH; reflexivity]. Qed.

Lemma NoDup_grid (A B : list Z) : NoDup A -> NoDup B -> NoDup (list_prod A B).
Proof.
  intros HA HB. rewrite list_prod_rows.
  apply NoDup_indexed_rows; [exact HA | intros _; exact HB].
Qed.

Lemma NoDup_hexagon_indices (number : Z) : NoDup (hexagon_indices number).
Proof.
  unfold hexagon_indices.
  apply (NoDup_indexed_rows _
           (fun n => if (n <? 0)%Z then arange (- n - number) (number + 1)
                     else if (0 <? n)%Z then arange (- number) (number - n + 1)
                     else arange (- number) (number + 1))).
  - apply NoDup_arange.
  - intros n. destruct (n <? 0)%Z; [| destruct (0 <? n)%Z]; apply NoDup_arange.
Qed.

Lemma in_hexagon_indices (number i j : Z) :
  In (i, j) (hexagon_indices number)
  <-> (- number <= i <= number /\ - number <= j <= number
       /\ - number <= i + j <= number)%Z.
Proof.
  unfold hexagon_indices. rewrite in_flat_map. split.
  - intros [n [Hn Hin]]. apply in_arange in Hn.
    apply in_map_iff in Hin. destruct Hin as [m [Hm Hin]]. injection Hm as -> ->.
    destruct (i <? 0)%Z eqn:Hneg; [| destruct (0 <? i)%Z eqn:Hpos];
      apply in_arange in Hin; lia.
  - intros Hij. exists i. split; [apply in_arange; lia |].
    apply in_map_iff. exists j. split; [reflexivity |].
    destruct (i <? 0)%Z eqn:Hneg; [| destruct (0 <? i)%Z eqn:Hpos];
      apply in_arange; lia.
Qed.

Lemma opposite_index_injective : Finite.Injective opposite_index.
Proof.
  intros [a b] [c d] Heq. unfold opposite_index in Heq.
  injection Heq as H1 H2. f_equal; lia.
Qed.

Lemma combination_opposite (t1 t2 : vec) (ij : Z * Z) :
  vneg (combination t1 t2 ij) = combination t1 t2 (opposite_index ij).
Proof.
  destruct ij as [i j]. unfold combination, opposite_index, vneg, vadd, vscale; simpl.
  rewrite !opp_IZR. f_equal; ring.
Qed.

(** A list of lattice points whose index set is duplicate-free and closed
    under negation is, up to order, its own image under inversion. *)
Lemma indexed_points_symmetric (t1 t2 : vec) (idx : list (Z * Z)) :
  NoDup idx ->
  (forall i j, In (i, j) idx -> In (- i, - j)%Z idx) ->
  Permutation (map vneg (map (combination t1 t2) idx)) (map (combination t1 t2) idx).
Proof.
  intros Hnd Hclosed. rewrite map_map.
  rewrite (map_ext _ (fun ij => combination t1 t2 (opposite_index ij)))
    by (intros ij; apply combination_opposite).
  rewrite <- (map_map opposite_index (combination t1 t2)).
  apply Permutation_map. apply Permutation_map_same_l.
  - apply Finite.Injective_map_NoDup; [exact opposite_index_injective | exact Hnd].
  - intros [i j] Hin. apply in_map_iff in Hin.
    destruct Hin as [[a b] [Hab Hin]]. unfold opposite_index in Hab.
    injection Hab as <- <-. apply Hclosed. exact Hin.
Qed.

Lemma full_loop_indexed (t1 t2 : vec) (idx : list (Z * Z)) :
  flat_map (fun '(i, j) => [vadd (vscale (IZR i) t1) (vscale (IZR j) t2)]) idx
  = map (combination t1 t2) idx.
Proof.
  induction idx as [| [i j] idx IH]; simpl; [reflexivity |]. rewrite IH. reflexivity.
Qed.

Lemma skipping_loop_indexed (t1 t2 : vec) (idx : list (Z * Z)) :
  flat_map
    (fun '(i, j) =>
       if negb (i =? 0)%Z || negb (j =? 0)%Z
       then [vadd (vscale (IZR i) t1) (vscale (IZR j) t2)]
       else [])
    idx
  = map (combination t1 t2) (filter nonzero_index idx).
Proof.
  induction idx as [| [i j] idx IH]; simpl; [reflexivity |]. rewrite IH.
  destruct (negb (i =? 0)%Z || negb (j =? 0)%Z); reflexivity.
Qed.

Lemma grid_closed (number i j : Z) :
  In (i, j) (list_prod (arange (- number) (number + 1)) (arange (- number) (number + 1))) ->
  In (- i, - j)%Z
     (list_prod (arange (- number) (number + 1)) (arange (- number) (number + 1))).
Proof.
  intros Hin. apply in_prod_iff in Hin. destruct Hin as [Hi Hj].
  apply in_arange in Hi, Hj. apply in_prod; apply in_arange; lia.
Qed.

Lemma full_grid_symmetric (t1 t2 : vec) (number : Z) :
  let pts := map (combination t1 t2)
               (list_prod (arange (- number) (number + 1)) (arange (- number) (number + 1))) in
  Permutation (map vneg pts) pts.
Proof.
  apply indexed_points_symmetric.
  - apply NoDup_grid; apply NoDup_arange.
  - apply grid_closed.
Qed.

Lemma punctured_grid_symmetric (t1 t2 : vec) (number : Z) :
  let pts := map (combination t1 t2)
               (filter nonzero_index
                  (list_prod (arange (- number) (number + 1))
                             (arange (- number) (number + 1)))) in
  Permutation (map vneg pts) pts.
Proof.
  apply indexed_points_symmetric.
  - apply NoDup_filter, NoDup_grid; apply NoDup_arange.
  - intros i j Hin. apply filter_In in Hin. destruct Hin as [Hin Hnz].
    apply filter_In. split; [apply grid_closed; exact Hin |].
    unfold nonzero_index in *.
    destruct (i =? 0)%Z eqn:Ei; destruct (j =? 0)%Z eqn:Ej; try discriminate;
      rewrite ?Z.eqb_eq, ?Z.eqb_neq in *;
      apply orb_true_iff; rewrite !negb_true_iff, !Z.eqb_neq; lia.
Qed.

(** ** The generators as indexed point lists *)

Lemma Square_getLattice_indexed (s : Square.t) (_type : lattice_type) (origin : bool) :
  Square.getLattice s _type origin
  = let '(t1, t2) := match _type with
                     | bravais => Square.getLatticeVectors s
                     | reciprocal => Square.getReciprocalVectors s
                     end in
    let grid := list_prod (arange (- Square.neighbours s) (Square.neighbours s + 1))
                          (arange (- Square.neighbours s) (Square.neighbours s + 1)) in
    map (combination t1 t2) (if origin then grid else filter nonzero_index grid).
Proof.
  unfold Square.getLattice.
  destruct (match _type with
            | bravais => Square.getLatticeVectors s
            | reciprocal => Square.getReciprocalVectors s
            end) as [t1 t2].
  destruct origin; [apply full_loop_indexed | apply skipping_loop_indexed].
Qed.

Lemma genBravais_indexed (l : EwaldTest.Lattice.t) (number : Z) (origin : bool) :
  EwaldTest.Lattice.genBravais l number origin
  = let grid := list_prod (arange (- number) (number + 1))
                          (arange (- number) (number + 1)) in
    map (combination (EwaldTest.Lattice.a1 l) (EwaldTest.Lattice.a2 l))
        (if origin then grid else filter nonzero_index grid).
Proof.
  unfold EwaldTest.Lattice.genBravais.
  destruct origin; [apply full_loop_indexed | apply skipping_loop_indexed].
Qed.

Lemma genReciprocal_indexed (l : EwaldTest.Lattice.t) (number : Z) (origin : bool) :
  EwaldTest.Lattice.genReciprocal l number origin
  = let grid := list_prod (arange (- number) (number + 1))
                          (arange (- number) (number + 1)) in
    map (combination (EwaldTest.Lattice.b1 l) (EwaldTest.Lattice.b2 l))
        (if origin then grid else filter nonzero_index grid).
Proof.
  unfold EwaldTest.Lattice.genReciprocal.
  destruct origin; [apply full_loop_indexed | apply skipping_loop_indexed].
Qed.

Lemma hexagon_rows_indexed (number : Z) (t1 t2 : vec) (rows : list Z) :
  flat_map
    (fun n =>
       if (n <? 0)%Z then
         map (fun m => vadd (vscale (IZR n) t1) (vscale (IZR m) t2))
             (arange (- n - number) (number + 1))
       else if (0 <? n)%Z then
         map (fun m => vadd (vscale (IZR n) t1) (vscale (IZR m) t2))
             (arange (- number) (number - n + 1))
       else
         map (fun m => vadd (vscale (IZR n) t1) (vscale (IZR m) t2))
             (arange (- number) (number + 1)))
    rows
  = map (combination t1 t2)
        (flat_map
           (fun n =>
              map (pair n)
                  (if (n <? 0)%Z then arange (- n - number) (number + 1)
                   else if (0 <? n)%Z then arange (- number) (number - n + 1)
                   else arange (- number) (number + 1)))
           rows).
Proof.
  induction rows as [| n rows IH]; [reflexivity |].
  cbn [flat_map]. rewrite map_app, IH, map_map. f_equal.
  destruct (n <? 0)%Z; [| destruct (0 <? n)%Z]; reflexivity.
Qed.

Lemma Honeycomb_points_indexed (number : Z) (t1 t2 : vec) :
  Honeycomb.points number t1 t2 = map (combination t1 t2) (hexagon_indices number).
Proof. apply hexagon_rows_indexed. Qed.

Lemma grid_or_punctured_symmetric (t1 t2 : vec) (number : Z) (origin : bool) :
  let grid := list_prod (arange (- number) (number + 1))
                        (arange (- number) (number + 1)) in
  let pts := map (combination t1 t2) (if origin then grid else filter nonzero_index grid) in
  Permutation (map vneg pts) pts.
Proof.
  destruct origin; [apply full_grid_symmetric | apply punctured_grid_symmetric].
Qed.

(** X1.  Every point list built by a double loop over [-N .. N] is, up to
    order, unchanged by inversion through the origin, with or without the
    origin: [Square.getLattice], [Square.getNeighbours], [Triangle.getLattice],
    [SimpleHoneycomb.getLattice], [Lattice.genBravais] and
    [Lattice.genReciprocal]. *)
Theorem rectangular_lattices_symmetric :
  (forall (s : Square.t) (_type : lattice_type) (origin : bool),
     Permutation (map vneg (Square.getLattice s _type origin))
                 (Square.getLattice s _type origin))
  /\ (forall s : Square.t,
        Square.getNeighbours s = Square.getLattice s bravais false
        /\ Permutation (map vneg (Square.getNeighbours s)) (Square.getNeighbours s))
  /\ (forall (s : Triangle.t) (_type : lattice_type) (origin : bool),
        Permutation (map vneg (Triangle.getLattice s _type origin))
                    (Triangle.getLattice s _type origin))
  /\ (forall (s : SimpleHoneycomb.t) (_type : lattice_type) (origin : bool),
        Permutation (map vneg (SimpleHoneycomb.getLattice s _type origin))
                    (SimpleHoneycomb.getLattice s _type origin))
  /\ (forall (l : EwaldTest.Lattice.t) (number : Z) (origin : bool),
        Permutation (map vneg (EwaldTest.Lattice.genBravais l number origin))
                    (EwaldTest.Lattice.genBravais l number origin)
        /\ Permutation (map vneg (EwaldTest.Lattice.genReciprocal l number origin))
                       (EwaldTest.Lattice.genReciprocal l number origin)).
Proof.
  assert (HSq : forall (s : Square.t) (_type : lattice_type) (origin : bool),
             Permutation (map vneg (Square.getLattice s _type origin))
                         (Square.getLattice s _type origin)).
  { intros s _type origin. rewrite Square_getLattice_indexed.
    destruct (match _type with
              | bravais => Square.getLatticeVectors s
              | reciprocal => Square.getReciprocalVectors s
              end) as [t1 t2].
    apply grid_or_punctured_symmetric. }
  split; [exact HSq |]. split.
  { intros s.
    assert (Heq : Square.getNeighbours s = Square.getLattice s bravais false)
      by reflexivity.
    split; [exact Heq |]. rewrite Heq. apply HSq. }
  split.
  { intros s _type origin. unfold Triangle.getLattice.
    rewrite skipping_loop_indexed. apply punctured_grid_symmetric. }
  split.
  { intros s _type origin. unfold SimpleHoneycomb.getLattice.
    apply full_grid_symmetric. }
  intros l number origin. rewrite genBravais_indexed, genReciprocal_indexed.
  split; apply grid_or_punctured_symmetric.
Qed.

(** X2.  The asymmetric double loop of [Honeycomb.getLattice] visits exactly
    the index pairs [(n, m)] with [|n|], [|m|] and [|n + m|] at most
    [neighbours], each once, and the point list it returns is, up to order,
    unchanged by inversion through the origin. *)
Theorem hexagonal_supercell_symmetric (s : Honeycomb.t) (origin : bool) :
  let '(t1, t2) := Honeycomb.getLatticeVectors s in
  Honeycomb.getLattice s bravais origin
  = Some (map (combination t1 t2) (hexagon_indices (Honeycomb.neighbours s)))
  /\ NoDup (hexagon_indices (Honeycomb.neighbours s))
  /\ (forall n m : Z,
        In (n, m) (hexagon_indices (Honeycomb.neighbours s))
        <-> (- Honeycomb.neighbours s <= n <= Honeycomb.neighbours s
             /\ - Honeycomb.neighbours s <= m <= Honeycomb.neighbours s
             /\ - Honeycomb.neighbours s <= n + m <= Honeycomb.neighbours s)%Z)
  /\ Permutation
       (map vneg (map (combination t1 t2) (hexagon_indices (Honeycomb.neighbours s))))
       (map (combination t1 t2) (hexagon_indices (Honeycomb.neighbours s))).
Proof.
  unfold Honeycomb.getLattice.
  destruct (Honeycomb.getLatticeVectors s) as [t1 t2].
  split; [rewrite Honeycomb_points_indexed; reflexivity |].
  split; [apply NoDup_hexagon_indices |].
  split; [intros n m; apply in_hexagon_indices |].
  apply indexed_points_symmetric; [apply NoDup_hexagon_indices |].
  intros i j Hin. apply in_hexagon_indices in Hin. apply in_hexagon_indices. lia.
Qed.

(** ** Sums up to order *)

Lemma mat2_add_comm (a b : mat2) : mat2_add a b = mat2_add b a.
Proof. unfold mat2_add. f_equal; apply C_eq; simpl; ring. Qed.

Lemma mat2_add_assoc (a b c : mat2) :
  mat2_add (mat2_add a b) c = mat2_add a (mat2_add b c).
Proof. unfold mat2_add; simpl. f_equal; apply C_eq; simpl; ring. Qed.

Lemma mat2_fold_permutation (l l' : list mat2) (z : mat2) :
  Permutation l l' -> fold_left mat2_add l z = fold_left mat2_add l' z.
Proof.
  intros Hp. revert z. induction Hp as [| x l l' _ IH | x y l | l l' l'' _ IH1 _ IH2];
    intros z; simpl.
  - reflexivity.
  - apply IH.
  - f_equal. rewrite !mat2_add_assoc. f_equal. apply mat2_add_comm.
  - rewrite IH1. apply IH2.
Qed.

Lemma mat2_sum_permutation (l l' : list mat2) :
  Permutation l l' -> mat2_sum l = mat2_sum l'.
Proof. apply mat2_fold_permutation. Qed.

(** A sum over an inversion-symmetric point list may be taken over the
    opposite points. *)
Lemma mat2_sum_inversion (f : vec -> mat2) (pts : list vec) :
  Permutation (map vneg pts) pts ->
  mat2_sum (map f pts) = mat2_sum (map (fun R => f (vneg R)) pts).
Proof.
  intros Hp. rewrite <- (map_map vneg f).
  apply mat2_sum_permutation. apply Permutation_map. apply Permutation_sym. exact Hp.
Qed.

(** ** All blocks of the assembled matrix *)

Lemma pair_loop_upper (D : nat -> nat -> mat2) (l : list (nat * nat)) (H : matrix)
  (r c : nat) :
  (forall a b, In (a, b) l -> a < b)%nat ->
  (r < c)%nat ->
  get_block H r c = D r c \/ In (r, c) l ->
  get_block (fold_left (pair_step D) l H) r c = D r c.
Proof.
  revert H. induction l as [| [a b] l IH]; intros H Hlt Hrc Hinv; simpl.
  - destruct Hinv as [Hinv | []]. exact Hinv.
  - assert (Hab : (a < b)%nat) by (apply Hlt; left; reflexivity).
    apply IH; [intros x y Hxy; apply Hlt; right; exact Hxy | exact Hrc |].
    destruct (Nat.eq_dec a r) as [-> | Har].
    + destruct (Nat.eq_dec b c) as [-> | Hbc].
      * left. rewrite get_set_block_other by lia. apply get_set_block_same.
      * destruct Hinv as [Hinv | [Heq | Hin]].
        -- left. rewrite !get_set_block_other by lia. exact Hinv.
        -- injection Heq as ->. contradiction.
        -- right. exact Hin.
    + destruct Hinv as [Hinv | [Heq | Hin]].
      * left. rewrite !get_set_block_other by lia. exact Hinv.
      * injection Heq as -> ->. contradiction.
      * right. exact Hin.
Qed.

Lemma diagonal_loop_diagonal (Dself : mat2) (l : list nat) (H : matrix) (r : nat) :
  In r l ->
  get_block (fold_left (fun H n => set_block H n n Dself) l H) r r = Dself.
Proof.
  revert H. induction l as [| n l IH]; intros H Hin; simpl; [destruct Hin |].
  destruct (in_dec Nat.eq_dec r l) as [Hl | Hl].
  - apply IH. exact Hl.
  - destruct Hin as [-> | Hin]; [| contradiction].
    assert (Hkeep : forall l0 H0, ~ In r l0 ->
              get_block (fold_left (fun H n => set_block H n n Dself) l0 H0) r r
              = get_block H0 r r).
    { induction l0 as [| n0 l0 IH0]; intros H0 Hn0; simpl; [reflexivity |].
      rewrite IH0 by (intros Hc; apply Hn0; right; exact Hc).
      apply get_set_block_other. left. intros ->. apply Hn0. left; reflexivity. }
    rewrite Hkeep by exact Hl. apply get_set_block_same.
Qed.

Section AssembledBlocks.

Context {T : Type} `{Interaction.CellLike T} `{SpecialFunctions}.

(** The blocks of [interactionMatrix(w)] for a cell of other than one
    particle. *)
Lemma interactionMatrix_blocks (self : Interaction.t T) (w : R) (intercell : list vec) :
  Interaction.getLattice (Interaction.cell self) bravais false = Some intercell ->
  (Interaction.getCellSize (Interaction.cell self)
   <= length (Interaction.getUnitCell (Interaction.cell self)))%nat ->
  Interaction.getCellSize (Interaction.cell self) <> 1%nat ->
  exists Hmat,
    Interaction.interactionMatrix self w = Some Hmat
    /\ (forall n m pn pm,
          (n < Interaction.getCellSize (Interaction.cell self))%nat ->
          (m < Interaction.getCellSize (Interaction.cell self))%nat ->
          n <> m ->
          nth_error (Interaction.getUnitCell (Interaction.cell self)) n = Some pn ->
          nth_error (Interaction.getUnitCell (Interaction.cell self)) m = Some pm ->
          get_block Hmat n m
          = mat2_sum
              (map (fun R =>
                      mat2_scale
                        (Interaction.green w (vadd (vadd (vneg (pos pn)) (pos pm)) R))
                        (Interaction.bloch self R))
                   intercell))
    /\ (forall n,
          (n < Interaction.getCellSize (Interaction.cell self))%nat ->
          get_block Hmat n n = Interaction.self_sum self w intercell).
Proof.
  intros Hlat Hlen Hsize.
  unfold Interaction.interactionMatrix. rewrite Hlat. simpl bind.
  set (intracell := Interaction.getUnitCell (Interaction.cell self)) in *.
  set (cs := Interaction.getCellSize (Interaction.cell self)) in *.
  replace (cs =? 1)%nat with false by (symmetry; apply Nat.eqb_neq; exact Hsize).
  pose (D := fun a b : nat =>
               match Interaction.pair_sum self w intracell intercell a b with
               | Some M => M
               | None => mat2_zero
               end).
  assert (Hdef : forall a b, (a < cs)%nat -> (b < cs)%nat ->
             Interaction.pair_sum self w intracell intercell a b = Some (D a b)).
  { intros a b Ha Hb. unfold D.
    destruct (nth_error intracell a) as [pa |] eqn:Ea;
      [| apply nth_error_None in Ea; lia].
    destruct (nth_error intracell b) as [pb |] eqn:Eb;
      [| apply nth_error_None in Eb; lia].
    rewrite (pair_sum_total self w intracell intercell a b pa pb Ea Eb).
    reflexivity. }
  rewrite (foldM_total _ (pair_step D)).
  2:{ intros Hacc [a b] Hin. apply in_combinations2_seq in Hin.
      rewrite (Hdef a b), (Hdef b a) by lia. reflexivity. }
  simpl bind. eexists. split; [reflexivity |]. split.
  - intros n m pn pm Hn Hm Hnm Hpn Hpm.
    rewrite diagonal_loop_off_diagonal by exact Hnm.
    assert (HD : D n m
                 = mat2_sum
                     (map (fun R =>
                             mat2_scale
                               (Interaction.green w
                                  (vadd (vadd (vneg (pos pn)) (pos pm)) R))
                               (Interaction.bloch self R))
                          intercell)).
    { unfold D. rewrite (pair_sum_total self w intracell intercell n m pn pm Hpn Hpm).
      reflexivity. }
    rewrite <- HD.
    destruct (Nat.lt_ge_cases n m) as [Hlt | Hge].
    + apply pair_loop_upper.
      * intros a b Hin. apply in_combinations2_seq in Hin. lia.
      * exact Hlt.
      * right. apply in_combinations2_seq. lia.
    + apply pair_loop_lower.
      * intros a b Hin. apply in_combinations2_seq in Hin. lia.
      * lia.
      * right. apply in_combinations2_seq. lia.
  - intros n Hn. apply diagonal_loop_diagonal. apply in_seq. lia.
Qed.

End AssembledBlocks.

(** ** Wavevector reversal *)

Lemma filter_permutation {A : Type} (f : A -> bool) (l l' : list A) :
  Permutation l l' -> Permutation (filter f l) (filter f l').
Proof.
  intros Hp. induction Hp as [| x l l' _ IH | x y l | l l' l'' _ IH1 _ IH2]; simpl.
  - constructor.
  - destruct (f x); [constructor |]; exact IH.
  - destruct (f x), (f y); try apply Permutation_refl.
    apply perm_swap.
  - eapply Permutation_trans; eassumption.
Qed.

Lemma norm_nonzero_vneg (v : vec) : norm_nonzero (vneg v) = norm_nonzero v.
Proof. unfold norm_nonzero. rewrite norm_vneg. reflexivity. Qed.

Lemma nonzero_points_symmetric (pts : list vec) :
  Permutation (map vneg pts) pts ->
  Permutation (map vneg (filter norm_nonzero pts)) (filter norm_nonzero pts).
Proof.
  intros Hp.
  replace (map vneg (filter norm_nonzero pts))
    with (filter norm_nonzero (map vneg pts)).
  - apply filter_permutation. exact Hp.
  - rewrite filter_map_swap. f_equal. apply filter_ext.
    intros v. apply norm_nonzero_vneg.
Qed.

Lemma dot_vneg_vneg (u v : vec) : dot (vneg u) (vneg v) = dot u v.
Proof. unfold dot, vneg; simpl. ring. Qed.

Lemma vneg_separation (pn pm R : vec) :
  vadd (vadd (vneg pm) pn) (vneg R) = vneg (vadd (vadd (vneg pn) pm) R).
Proof. unfold vadd, vneg; simpl. f_equal; ring. Qed.

Lemma mat2_sum_symmetric (l : list mat2) :
  (forall M, In M l -> m10 M = m01 M) -> m10 (mat2_sum l) = m01 (mat2_sum l).
Proof.
  unfold mat2_sum. intros Hl.
  assert (Hgen : forall z, m10 z = m01 z ->
            m10 (fold_left mat2_add l z) = m01 (fold_left mat2_add l z)).
  { induction l as [| M l IH]; intros z Hz; simpl; [exact Hz |].
    apply IH.
    - intros M' HM'. apply Hl. right; exact HM'.
    - simpl. rewrite Hz, (Hl M) by (left; reflexivity). reflexivity. }
  apply Hgen. reflexivity.
Qed.

Section WavevectorReversal.

Context {T : Type} `{Interaction.CellLike T} `{SF : SpecialFunctions}.

Lemma bloch_reversed (q R : vec) (c : T) :
  Interaction.bloch (Interaction.mk (vneg q) c) (vneg R)
  = Interaction.bloch (Interaction.mk q c) R.
Proof.
  unfold Interaction.bloch. cbn [Interaction.q]. rewrite dot_vneg_vneg. reflexivity.
Qed.

(** X3.  For a cell of more than one particle whose inter-cell point list is
    inversion-symmetric, block [(n, m)] of the interaction matrix at
    wavevector [q] equals block [(m, n)] at wavevector [-q]; the diagonal
    blocks are the same at [q] and [-q]; and every off-diagonal block has
    equal [xy] and [yx] entries. *)
Theorem blocks_swap_under_reversal (c : T) (q : vec) (w : R) (intercell : list vec) :
  Interaction.getLattice c bravais false = Some intercell ->
  (Interaction.getCellSize c <= length (Interaction.getUnitCell c))%nat ->
  Interaction.getCellSize c <> 1%nat ->
  Permutation (map vneg intercell) intercell ->
  exists Hq Hrev,
    Interaction.interactionMatrix (Interaction.mk q c) w = Some Hq
    /\ Interaction.interactionMatrix (Interaction.mk (vneg q) c) w = Some Hrev
    /\ (forall n m,
          (n < Interaction.getCellSize c)%nat ->
          (m < Interaction.getCellSize c)%nat ->
          n <> m ->
          get_block Hq n m = get_block Hrev m n
          /\ m10 (get_block Hq n m) = m01 (get_block Hq n m))
    /\ (forall n,
          (n < Interaction.getCellSize c)%nat ->
          get_block Hq n n = get_block Hrev n n).
Proof.
  intros Hlat Hlen Hsize Hsym.
  destruct (interactionMatrix_blocks (Interaction.mk q c) w intercell Hlat Hlen Hsize)
    as [Hq [Eq [Hoff Hdiag]]].
  destruct (interactionMatrix_blocks (Interaction.mk (vneg q) c) w intercell Hlat Hlen Hsize)
    as [Hrev [Erev [Hoff' Hdiag']]].
  cbn [Interaction.cell] in *.
  exists Hq, Hrev. split; [exact Eq |]. split; [exact Erev |]. split.
  - intros n m Hn Hm Hnm.
    destruct (nth_error (Interaction.getUnitCell c) n) as [pn |] eqn:En;
      [| apply nth_error_None in En; lia].
    destruct (nth_error (Interaction.getUnitCell c) m) as [pm |] eqn:Em;
      [| apply nth_error_None in Em; lia].
    rewrite (Hoff n m pn pm Hn Hm Hnm En Em).
    rewrite (Hoff' m n pm pn Hm Hn (not_eq_sym Hnm) Em En).
    split.
    + rewrite (mat2_sum_inversion
                 (fun R => mat2_scale
                             (Interaction.green w (vadd (vadd (vneg (pos pm)) (pos pn)) R))
                             (Interaction.bloch (Interaction.mk (vneg q) c) R))
                 intercell Hsym).
      f_equal. apply map_ext. intros R.
      rewrite vneg_separation, Interaction_green_even, bloch_reversed. reflexivity.
    + apply mat2_sum_symmetric. intros M HM. apply in_map_iff in HM.
      destruct HM as [R [<- _]]. reflexivity.
  - intros n Hn. rewrite (Hdiag n Hn), (Hdiag' n Hn).
    unfold Interaction.self_sum.
    rewrite (mat2_sum_inversion
               (fun inter => mat2_scale (Interaction.green w inter)
                               (Interaction.bloch (Interaction.mk (vneg q) c) inter))
               (filter norm_nonzero intercell)
               (nonzero_points_symmetric intercell Hsym)).
    f_equal. apply map_ext. intros R.
    rewrite Interaction_green_even, bloch_reversed. reflexivity.
Qed.

End WavevectorReversal.

Lemma blocks_swap_under_reversal_witness :
  exists Hq Hrev,
    @Interaction.interactionMatrix _ Interaction.SimpleHoneycomb_cell Sample.special
      (Interaction.mk (1, 0) Sample.honeycomb1) 1 = Some Hq
    /\ @Interaction.interactionMatrix _ Interaction.SimpleHoneycomb_cell Sample.special
         (Interaction.mk (vneg (1, 0)) Sample.honeycomb1) 1 = Some Hrev
    /\ get_block Hq 0 1 = get_block Hrev 1 0.
Proof.
  destruct (@blocks_swap_under_reversal _ Interaction.SimpleHoneycomb_cell Sample.special
              Sample.honeycomb1 (1, 0) 1
              (SimpleHoneycomb.getLattice Sample.honeycomb1 bravais false)
              eq_refl (le_n 2) (fun E : 2%nat = 1%nat => Nat.neq_succ_diag_l 1 E)
              (full_grid_symmetric _ _ 1))
    as [Hq [Hrev [Eq [Erev [Hoff _]]]]].
  exists Hq, Hrev. split; [exact Eq |]. split; [exact Erev |].
  exact (proj1 (Hoff 0%nat 1%nat (le_S 1 1 (le_n 1)) (le_n 2) (O_S 0))).
Defined.

(** ** Cells and their matrices *)

Lemma Square_points_symmetric (s : Square.t) (_type : lattice_type) (origin : bool) :
  Permutation (map vneg (Square.getLattice s _type origin))
              (Square.getLattice s _type origin).
Proof.
  rewrite Square_getLattice_indexed.
  destruct (match _type with
            | bravais => Square.getLatticeVectors s
            | reciprocal => Square.getReciprocalVectors s
            end) as [t1 t2].
  apply grid_or_punctured_symmetric.
Qed.

Section CellMatrices.

Context `{SF : SpecialFunctions}.

(** X4.  Each lattice class returns as many particles as its cell size, and
    [Interaction.interactionMatrix] returns a matrix for each of them at
    every wavevector and frequency: no index or attribute error is raised. *)
Theorem interactionMatrix_never_raises (q : vec) (w : R) :
  (forall s : Square.t,
     length (Square.getUnitCell s) = Square.getCellSize s
     /\ exists Hmat, Interaction.interactionMatrix (Interaction.mk q s) w = Some Hmat)
  /\ (forall s : Triangle.t,
        length (Triangle.getUnitCell s) = Triangle.getCellSize s
        /\ exists Hmat, Interaction.interactionMatrix (Interaction.mk q s) w = Some Hmat)
  /\ (forall s : SimpleHoneycomb.t,
        length (SimpleHoneycomb.getUnitCell s) = SimpleHoneycomb.getCellSize s
        /\ exists Hmat, Interaction.interactionMatrix (Interaction.mk q s) w = Some Hmat)
  /\ (forall s : Honeycomb.t,
        length (Honeycomb.getUnitCell s) = Honeycomb.getCellSize s
        /\ exists Hmat, Interaction.interactionMatrix (Interaction.mk q s) w = Some Hmat).
Proof.
  split; [| split; [| split]]; intros s; (split; [reflexivity |]).
  - eexists. reflexivity.
  - eexists. reflexivity.
  - destruct (@interactionMatrix_blocks _ Interaction.SimpleHoneycomb_cell SF
                (Interaction.mk q s) w
                (SimpleHoneycomb.getLattice s bravais false) eq_refl (le_n 2)
                (fun E : 2%nat = 1%nat => Nat.neq_succ_diag_l 1 E))
      as [Hmat [E _]].
    exists Hmat. exact E.
  - assert (Hlat : exists pts, Honeycomb.getLattice s bravais false = Some pts).
    { unfold Honeycomb.getLattice. destruct (Honeycomb.getLatticeVectors s).
      eexists; reflexivity. }
    destruct Hlat as [pts Hpts].
    destruct (@interactionMatrix_blocks _ Interaction.Honeycomb_cell SF
                (Interaction.mk q s) w pts Hpts (le_n 6)
                (fun E : 6%nat = 1%nat => O_S 4 (eq_sym (f_equal pred E))))
      as [Hmat [E _]].
    exists Hmat. exact E.
Qed.

(** X5.  For the one-particle square cell the interaction matrix is the
    single 2x2 block summing [green(w, R) exp(i q.R)] over the lattice without
    its origin; that block is the same at [q] and [-q] and has equal [xy] and
    [yx] entries. *)
Theorem single_particle_matrix (s : Square.t) (q : vec) (w : R) :
  exists Hq Hrev,
    Interaction.interactionMatrix (Interaction.mk q s) w = Some Hq
    /\ Interaction.interactionMatrix (Interaction.mk (vneg q) s) w = Some Hrev
    /\ get_block Hq 0 0
       = mat2_sum
           (map (fun R => mat2_scale (Interaction.green w R)
                            (Cexp (Ci * RtoC (dot q R))))
                (Square.getLattice s bravais false))
    /\ get_block Hq 0 0 = get_block Hrev 0 0
    /\ m10 (get_block Hq 0 0) = m01 (get_block Hq 0 0).
Proof.
  eexists. eexists. split; [reflexivity |]. split; [reflexivity |].
  unfold of_mat2. rewrite !get_set_block_same.
  split; [reflexivity |]. split.
  - rewrite (mat2_sum_inversion
               (fun inter => mat2_scale (Interaction.green w inter)
                               (Interaction.bloch (Interaction.mk (vneg q) s) inter))
               (Square.getLattice s bravais false)
               (Square_points_symmetric s bravais false)).
    f_equal. apply map_ext. intros R.
    rewrite Interaction_green_even, bloch_reversed. reflexivity.
  - apply mat2_sum_symmetric. intros M HM. apply in_map_iff in HM.
    destruct HM as [R [<- _]]. reflexivity.
Qed.

End CellMatrices.

(** ** The zero-order reciprocal term *)

Lemma Cdiv_RtoC (z : C) (x : R) : (z / RtoC x)%C = (z * RtoC (/ x))%C.
Proof. unfold Cdiv. rewrite Cinv_RtoC. reflexivity. Qed.

Lemma Cexp_zero_phase (x : R) : x = 0 -> Cexp (Ci * RtoC x) = C1.
Proof.
  intros ->. replace (Ci * RtoC 0)%C with C0 by (apply C_eq; simpl; ring).
  apply Cexp_0.
Qed.

Lemma Cexp_zero_order (phi : R) : Cexp ((- Ci) * RtoC (IZR 0) * RtoC phi) = C1.
Proof.
  replace ((- Ci) * RtoC (IZR 0) * RtoC phi)%C with C0 by (apply C_eq; simpl; ring).
  apply Cexp_0.
Qed.

Section ZeroOrder.

Context `{SF : SpecialFunctions} {L : Type} `{Ewald.LatticeLike L}.

(** X6.  At zero position the zero-order self-term [t1_lim(w, 0)] is [4i]
    times [ewaldG1(w)]. *)
Theorem t1_lim_zero_order (self : Ewald.t L) (w : R) :
  Ewald.pos self = (0, 0) ->
  Ewald.t1_lim self w 0 = (RtoC 4 * Ci * Ewald.ewaldG1 self w)%C.
Proof.
  intros Hpos. unfold Ewald.t1_lim, Ewald.ewaldG1.
  destruct (Ewald.getLatticeVectors (Ewald.lattice self)) as [a1 a2].
  cbn [Z.ltb Z.eqb Z.compare orb].
  rewrite <- Cfor_sum_scale. apply Cfor_sum_ext. intros G_pos _.
  unfold Ewald.t1_term. rewrite Hpos.
  rewrite Cexp_zero_order.
  rewrite (Cexp_zero_phase (dot (vadd (Ewald.q self) G_pos) (0, 0)))
    by (unfold dot; simpl; ring).
  change (Z.to_nat (0 + 1)) with 1%nat. change (Z.to_nat 0) with 0%nat.
  rewrite !Cdiv_RtoC.
  set (k := w * ev). set (bn := norm (vadd (Ewald.q self) G_pos)).
  replace (bn ^ 2 - k ^ 2) with (- (k ^ 2 - bn ^ 2)) by ring.
  rewrite Rinv_opp, pow_O. unfold Rdiv at 2. 
  generalize (/ cross a1 a2) (/ (k ^ 2 - bn ^ 2))
             (exp ((k ^ 2 - bn ^ 2) / (4 * Ewald.E self ^ 2))).
  intros ia id e.
  apply C_eq; simpl; ring.
Qed.

End ZeroOrder.

Lemma t1_lim_zero_order_witness :
  @Ewald.t1_lim _ Ewald.Square_lattice Sample.ewald_square 1 0
  = (RtoC 4 * Ci * @Ewald.ewaldG1 _ Ewald.Square_lattice Sample.ewald_square 1)%C.
Proof.
  exact (@t1_lim_zero_order _ Ewald.Square_lattice Sample.ewald_square 1 eq_refl).
Defined.

(** ** The two Ewald classes on the same square lattice *)

Lemma Cfor_sum_opp {A : Type} (f : A -> C) (l : list A) :
  Cfor_sum l (fun x => (- f x)%C) = (- Cfor_sum l f)%C.
Proof.
  induction l as [| a l IH].
  - unfold Cfor_sum; simpl. apply C_eq; simpl; ring.
  - rewrite !Cfor_sum_cons, IH. apply C_eq; simpl; ring.
Qed.

Lemma same_bravais_points (s : Square.t) :
  Square.getLattice s bravais true
  = EwaldTest.Lattice.genBravais
      (EwaldTest.Lattice.init (fst (Square.getLatticeVectors s))
                              (snd (Square.getLatticeVectors s)))
      (Square.neighbours s) true.
Proof. rewrite Square_getLattice_indexed, genBravais_indexed. reflexivity. Qed.

Lemma same_reciprocal_points (s : Square.t) :
  Square.getLattice s reciprocal true
  = EwaldTest.Lattice.genReciprocal
      (EwaldTest.Lattice.init (fst (Square.getLatticeVectors s))
                              (snd (Square.getLatticeVectors s)))
      (Square.neighbours s) true.
Proof. rewrite Square_getLattice_indexed, genReciprocal_indexed. reflexivity. Qed.

Section SameLattice.

Context `{SF : SpecialFunctions}.

(** X7.  On the same square lattice, wavevector, position, splitting
    parameter and truncation order, [monopolarSum] of [plasmonic_lattice.py]
    is the negation of [monopolarSum] of [ewald_test.py]. *)
Theorem monopolarSum_negated (s : Square.t) (q position : vec) (ewald : R)
  (j_max : nat) (n n_max : Z) (w : R) :
  Ewald.monopolarSum (Ewald.mk q s position ewald j_max) w
  = (- EwaldTest.Ewald.monopolarSum
         (EwaldTest.Ewald.init ewald j_max q
            (EwaldTest.Lattice.init (fst (Square.getLatticeVectors s))
                                    (snd (Square.getLatticeVectors s)))
            (Square.neighbours s) position n n_max) w)%C.
Proof.
  set (l := EwaldTest.Lattice.init (fst (Square.getLatticeVectors s))
                                   (snd (Square.getLatticeVectors s))).
  set (test := EwaldTest.Ewald.init ewald j_max q l (Square.neighbours s) position n n_max).
  unfold Ewald.monopolarSum, EwaldTest.Ewald.monopolarSum.
  assert (HG1 : Ewald.ewaldG1 (Ewald.mk q s position ewald j_max) w
                = (- EwaldTest.Ewald.ewaldG1 test w)%C).
  { rewrite Ewald_ewaldG1_negated, EwaldTest_ewaldG1_positive.
    change (Ewald.getLattice (Ewald.lattice (Ewald.mk q s position ewald j_max))
              reciprocal true)
      with (Square.getLattice s reciprocal true).
    rewrite same_reciprocal_points. reflexivity. }
  assert (HG2 : Ewald.ewaldG2 (Ewald.mk q s position ewald j_max) w
                = (- EwaldTest.Ewald.ewaldG2 test w)%C).
  { unfold Ewald.ewaldG2, EwaldTest.Ewald.ewaldG2.
    rewrite <- Cfor_sum_opp.
    change (Ewald.getLattice (Ewald.lattice (Ewald.mk q s position ewald j_max))
              bravais true)
      with (Square.getLattice s bravais true).
    rewrite same_bravais_points.
    change (EwaldTest.Ewald.bravais_points test)
      with (EwaldTest.Lattice.genBravais l (Square.neighbours s) true).
    apply Cfor_sum_ext. intros R_pos _.
    rewrite Ewald_integralFunc_series, EwaldTest_integralFunc_series.
    change (EwaldTest.Ewald.E test) with ewald.
    change (EwaldTest.Ewald.j_max test) with j_max.
    change (EwaldTest.Ewald.pos test) with position.
    change (EwaldTest.Ewald.q test) with q.
    cbn [Ewald.q Ewald.pos Ewald.E Ewald.j_max].
    generalize (Cexp (Ci * RtoC (dot q R_pos)))
               (integral_series ewald (w * ev) (norm (vsub position R_pos)) 1 j_max).
    intros z x. unfold Rdiv. generalize (/ (4 * PI)). intros ip.
    apply C_eq; simpl; ring. }
  rewrite HG1, HG2.
  generalize (EwaldTest.Ewald.ewaldG1 test w) (EwaldTest.Ewald.ewaldG2 test w).
  intros g1 g2. apply C_eq; simpl; ring.
Qed.

End SameLattice.

Lemma test_t1_loop_nonnegative (f : Z -> vec -> C) (l : list vec) (z : C) (n : Z) :
  (0 <= n)%Z ->
  fold_left
    (fun '(_sum, n) G_pos =>
       let n := if (n <? 0)%Z then Z.abs n else n in
       ((_sum + f n G_pos)%C, n))
    l (z, n)
  = (fold_left (fun _sum G_pos => (_sum + f n G_pos)%C) l z, n).
Proof.
  intros Hn. revert z. induction l as [| G_pos l IH]; intros z; [reflexivity |].
  cbn [fold_left].
  replace (n <? 0)%Z with false by (symmetry; apply Z.ltb_ge; exact Hn).
  apply IH.
Qed.

Section SameReciprocalTerm.

Context `{SF : SpecialFunctions}.

Lemma same_t1_term (self : Ewald.t Square.t) (k area : R) (n : Z) (G_pos : vec) :
  Ewald.t1_term self k area n G_pos
  = (let beta := vadd (Ewald.q self) G_pos in
     let beta_norm := norm beta in
     let phi := arctan2 (snd beta) (fst beta) in
     RtoC (4 / area) * Cpow Ci (Z.to_nat (n + 1))
     * RtoC (1 / (k ^ 2 - beta_norm ^ 2))
     * RtoC (exp ((k ^ 2 - beta_norm ^ 2) / (4 * Ewald.E self ^ 2)))
     * RtoC ((beta_norm / k) ^ Z.to_nat n)
     * Cexp ((- Ci) * RtoC (IZR n) * RtoC phi))%C.
Proof.
  unfold Ewald.t1_term. cbv zeta. rewrite !Cdiv_RtoC.
  f_equal. f_equal. f_equal.
  generalize (Cpow Ci (Z.to_nat (n + 1))). intros z.
  unfold Rdiv.
  generalize (/ area) (/ (k ^ 2 - norm (vadd (Ewald.q self) G_pos) ^ 2)).
  intros ia id. apply C_eq; simpl; ring.
Qed.

(** X8.  On the same square lattice the two [t1_lim] agree at every order
    [n >= 0]; at a negative order, with a non-empty reciprocal point list,
    [t1_lim] of [plasmonic_lattice.py] is minus the conjugate of what
    [t1_lim] of [ewald_test.py] returns. *)
Theorem t1_lim_across_files (s : Square.t) (q position : vec) (ewald : R)
  (j_max : nat) (m n_max : Z) (w : R) (n : Z) :
  (0 <= Square.neighbours s)%Z ->
  let test := EwaldTest.Ewald.init ewald j_max q
                (EwaldTest.Lattice.init (fst (Square.getLatticeVectors s))
                                        (snd (Square.getLatticeVectors s)))
                (Square.neighbours s) position m n_max in
  ((0 <= n)%Z ->
   Ewald.t1_lim (Ewald.mk q s position ewald j_max) w n
   = EwaldTest.Ewald.t1_lim test w n)
  /\ ((n < 0)%Z ->
      Ewald.t1_lim (Ewald.mk q s position ewald j_max) w n
      = (- Cconj (EwaldTest.Ewald.t1_lim test w n))%C).
Proof.
  intros HN test.
  assert (Hnonneg : forall p : Z, (0 <= p)%Z ->
            Ewald.t1_lim (Ewald.mk q s position ewald j_max) w p
            = EwaldTest.Ewald.t1_lim test w p).
  { intros p Hp. unfold Ewald.t1_lim, EwaldTest.Ewald.t1_lim.
    change (EwaldTest.Lattice.getBravaisVectors (EwaldTest.Ewald.lattice test))
      with (fst (Square.getLatticeVectors s), snd (Square.getLatticeVectors s)).
    change (Ewald.getLatticeVectors (Ewald.lattice (Ewald.mk q s position ewald j_max)))
      with (Square.getLatticeVectors s).
    change (Ewald.getLattice (Ewald.lattice (Ewald.mk q s position ewald j_max))
              reciprocal true)
      with (Square.getLattice s reciprocal true).
    rewrite same_reciprocal_points.
    change (EwaldTest.Ewald.reciprocal_points test)
      with (EwaldTest.Lattice.genReciprocal
              (EwaldTest.Lattice.init (fst (Square.getLatticeVectors s))
                                      (snd (Square.getLatticeVectors s)))
              (Square.neighbours s) true).
    destruct (Square.getLatticeVectors s) as [a1 a2]. cbn [fst snd].
    rewrite (test_t1_loop_nonnegative
               (fun n G_pos =>
                  let beta := vadd (EwaldTest.Ewald.q test) G_pos in
                  let beta_norm := norm beta in
                  let phi := arctan2 (snd beta) (fst beta) in
                  (RtoC (4 / cross a1 a2) * Cpow Ci (Z.to_nat (n + 1))
                   * RtoC (1 / ((w * ev) ^ 2 - beta_norm ^ 2))
                   * RtoC (exp (((w * ev) ^ 2 - beta_norm ^ 2)
                                / (4 * EwaldTest.Ewald.E test ^ 2)))
                   * RtoC ((beta_norm / (w * ev)) ^ Z.to_nat n)
                   * Cexp ((- Ci) * RtoC (IZR n) * RtoC phi))%C)
               _ C0 p Hp).
    replace (p <? 0)%Z with false by (symmetry; apply Z.ltb_ge; exact Hp).
    replace ((0 <? p)%Z || (p =? 0)%Z) with true
      by (symmetry; apply orb_true_iff; rewrite Z.ltb_lt, Z.eqb_eq; lia).
    apply Cfor_sum_ext. intros G_pos _. apply same_t1_term. }
  split; [apply Hnonneg |].
  intros Hn.
  assert (Hp : exists p, (0 < p)%Z /\ n = (- p)%Z) by (exists (- n)%Z; lia).
  destruct Hp as [p [Hp ->]].
  rewrite Ewald_t1_lim_negative by exact Hp.
  rewrite (Hnonneg p) by lia.
  rewrite EwaldTest_t1_lim_negative; [reflexivity | exact Hp |].
  change (EwaldTest.Ewald.reciprocal_points test)
    with (EwaldTest.Lattice.genReciprocal
            (EwaldTest.Lattice.init (fst (Square.getLatticeVectors s))
                                    (snd (Square.getLatticeVectors s)))
            (Square.neighbours s) true).
  rewrite genReciprocal_indexed. cbv zeta.
  intros Hnil. apply (f_equal (@length vec)) in Hnil.
  rewrite length_map in Hnil. cbn [length] in Hnil.
  assert (Hin : In (0, 0)%Z
                  (list_prod (arange (- Square.neighbours s) (Square.neighbours s + 1))
                             (arange (- Square.neighbours s) (Square.neighbours s + 1))))
    by (apply in_prod; apply in_arange; lia).
  destruct (list_prod (arange (- Square.neighbours s) (Square.neighbours s + 1))
                      (arange (- Square.neighbours s) (Square.neighbours s + 1)));
    [destruct Hin | discriminate Hnil].
Qed.

End SameReciprocalTerm.

Lemma t1_lim_across_files_witness :
  @Ewald.t1_lim _ Ewald.Square_lattice (Ewald.mk (1, 0) Sample.square0 (0, 0) ev 1) 1 2
  = EwaldTest.Ewald.t1_lim
      (EwaldTest.Ewald.init ev 1 (1, 0)
         (EwaldTest.Lattice.init (fst (Square.getLatticeVectors Sample.square0))
                                 (snd (Square.getLatticeVectors Sample.square0)))
         (Square.neighbours Sample.square0) (0, 0) 0 0) 1 2.
Proof.
  exact (proj1 (t1_lim_across_files Sample.square0 (1, 0) (0, 0) ev 1 0 0 1 2
                  (Z.le_refl 0))
               (Zle_0_pos 2)).
Defined.

(** ** The assembled self-interaction tensor *)

Section SelfTensor.

Context `{SF : SpecialFunctions} {L : Type} `{Ewald.LatticeLike L}.

(** X9.  At zero position the tensor [dyadicSumEwald] returns has a real
    [xy] entry and a real difference [xx - yy], and its trace
    [xx + yy] is [-k^2 (i/4) h_0] with [h_0 = t0 + t1_lim(w,0) + t2_lim(w,0)]:
    the order-2 harmonics cancel in the trace. *)
Theorem self_tensor_structure (self : Ewald.t L) (w : R) :
  Ewald.pos self = (0, 0) ->
  let M := Ewald.dyadicSumEwald self w in
  let h_0 := (Ewald.t0 self w + Ewald.t1_lim self w 0 + Ewald.t2_lim self w 0)%C in
  Im (m01 M) = 0
  /\ Im (m00 M - m11 M)%C = 0
  /\ (m00 M + m11 M)%C = (RtoC (- (w * ev) ^ 2) * (Ci / RtoC 4 * h_0))%C.
Proof.
  intros Hpos M h_0. subst M h_0. unfold Ewald.dyadicSumEwald.
  rewrite (dyadicSumEwald_at_origin self w Hpos). cbn [snd]. cbv zeta.
  cbn [m00 m01 m11].
  rewrite !Cdiv_RtoC.
  generalize (Ewald.t0 self w + Ewald.t1_lim self w 0 + Ewald.t2_lim self w 0)%C.
  generalize (Ewald.t1_lim self w 2 + Ewald.t2_lim self w 2)%C.
  intros h2 h0. destruct h2 as [a b], h0 as [c d].
  unfold Rdiv. simpl.
  split; [ring |]. split; [ring |].
  apply C_eq; simpl; field.
Qed.

End SelfTensor.

Lemma self_tensor_structure_witness :
  Im (m01 (@Ewald.dyadicSumEwald _ Ewald.Square_lattice Sample.special
             Sample.ewald_square 1)) = 0.
Proof.
  exact (proj1 (@self_tensor_structure Sample.special _ Ewald.Square_lattice
                  Sample.ewald_square 1 eq_refl)).
Defined.

(** ** The direct sums of [ewald_test.py] *)

Section DirectSums.

Context `{SF : SpecialFunctions}.

Lemma dyadic_trace_term (self : EwaldTest.Interaction.t) (w : R) (d i : vec) :
  let g := EwaldTest.dyad_scale (EwaldTest.Interaction.green_dyadic self w d i)
             (Cexp (Ci * RtoC (dot (EwaldTest.Interaction.q self) i))) in
  (EwaldTest.d_xx g + EwaldTest.d_yy g)%C
  = EwaldTest.Interaction.monopolar_green self w d i.
Proof.
  cbv zeta. unfold EwaldTest.Interaction.green_dyadic, EwaldTest.Interaction.monopolar_green,
    EwaldTest.dyad_scale. cbn [EwaldTest.d_xx EwaldTest.d_yy].
  generalize (hankel1 0 (w * ev * norm d)) (hankel1 2 (w * ev * norm d))
             (Cexp (Ci * RtoC (dot (EwaldTest.Interaction.q self) i)))
             (cos (2 * arctan2 (snd d) (fst d))).
  intros h0 h2 p c. apply C_eq; simpl; lra.
Qed.

(** X10.  The trace [xx + yy] of the direct dyadic sum is the direct monopolar
    sum, at every truncation. *)
Theorem dyadicSum_trace (self : EwaldTest.Interaction.t) (w : R) :
  (EwaldTest.d_xx (EwaldTest.Interaction.dyadicSum self w)
   + EwaldTest.d_yy (EwaldTest.Interaction.dyadicSum self w))%C
  = EwaldTest.Interaction.monopolarSum self w.
Proof.
  unfold EwaldTest.Interaction.dyadicSum, EwaldTest.Interaction.monopolarSum.
  assert (Hgen : forall (l : list vec) (z : EwaldTest.dyad),
            let r := fold_left
                       (fun _sum i =>
                          EwaldTest.dyad_add _sum
                            (EwaldTest.dyad_scale
                               (EwaldTest.Interaction.green_dyadic self w
                                  (vsub (EwaldTest.Interaction.pos self) i) i)
                               (Cexp (Ci * RtoC (dot (EwaldTest.Interaction.q self) i)))))
                       l z in
            (EwaldTest.d_xx r + EwaldTest.d_yy r)%C
            = (EwaldTest.d_xx z + EwaldTest.d_yy z
               + Cfor_sum l
                   (fun i => EwaldTest.Interaction.monopolar_green self w
                               (vsub (EwaldTest.Interaction.pos self) i) i))%C).
  { induction l as [| i l IH]; intros z; cbv zeta.
    - unfold Cfor_sum; simpl. apply C_eq; simpl; ring.
    - cbn [fold_left]. cbv zeta in IH. rewrite IH, Cfor_sum_cons.
      rewrite <- (dyadic_trace_term self w (vsub (EwaldTest.Interaction.pos self) i) i).
      cbv zeta. unfold EwaldTest.dyad_add. cbn [EwaldTest.d_xx EwaldTest.d_yy].
      generalize (Cfor_sum l
                    (fun i0 => EwaldTest.Interaction.monopolar_green self w
                                 (vsub (EwaldTest.Interaction.pos self) i0) i0)).
      generalize (EwaldTest.dyad_scale
                    (EwaldTest.Interaction.green_dyadic self w
                       (vsub (EwaldTest.Interaction.pos self) i) i)
                    (Cexp (Ci * RtoC (dot (EwaldTest.Interaction.q self) i)))).
      intros g S. apply C_eq; simpl; ring. }
  specialize (Hgen (EwaldTest.Interaction.bravais_points self) EwaldTest.dyad_zero).
  cbv zeta in Hgen. rewrite Hgen. unfold EwaldTest.dyad_zero; simpl.
  generalize (Cfor_sum (EwaldTest.Interaction.bravais_points self)
                (fun i => EwaldTest.Interaction.monopolar_green self w
                            (vsub (EwaldTest.Interaction.pos self) i) i)).
  intros S. apply C_eq; simpl; ring.
Qed.

End DirectSums.

(** ** The double angle of the separation *)

Lemma double_atan (t : R) :
  sin (2 * atan t) = 2 * t / (1 + t * t) /\ cos (2 * atan t) = (1 - t * t) / (1 + t * t).
Proof.
  assert (Hpos : 0 < 1 + t * t) by nra.
  assert (Hs : sqrt (1 + t * t) * sqrt (1 + t * t) = 1 + t * t)
    by (apply sqrt_sqrt; lra).
  assert (Hs0 : sqrt (1 + t * t) <> 0).
  { intros Hz. rewrite Hz in Hs. lra. }
  rewrite sin_2a, cos_2a, sin_atan, cos_atan. unfold Rsqr.
  set (r := sqrt (1 + t * t)) in *.
  split.
  - replace (2 * (t / r) * (1 / r)) with (2 * t / (r * r)) by (field; exact Hs0).
    rewrite Hs. reflexivity.
  - replace (1 / r * (1 / r) - t / r * (t / r)) with ((1 - t * t) / (r * r))
      by (field; exact Hs0).
    rewrite Hs. reflexivity.
Qed.

Lemma double_shift (a : R) :
  sin (2 * (a + PI)) = sin (2 * a) /\ cos (2 * (a + PI)) = cos (2 * a)
  /\ sin (2 * (a - PI)) = sin (2 * a) /\ cos (2 * (a - PI)) = cos (2 * a).
Proof.
  assert (Hplus : forall x, sin (x + PI + PI) = sin x /\ cos (x + PI + PI) = cos x).
  { intros x. rewrite neg_sin, neg_sin, neg_cos, neg_cos. split; ring. }
  destruct (Hplus (2 * a)) as [Hs Hc].
  destruct (Hplus (2 * (a - PI))) as [Hs' Hc'].
  replace (2 * (a - PI) + PI + PI) with (2 * a) in Hs', Hc' by ring.
  replace (2 * (a + PI)) with (2 * a + PI + PI) by ring.
  repeat split; [exact Hs | exact Hc | symmetry; exact Hs' | symmetry; exact Hc'].
Qed.

(** [sin(2 theta)] and [cos(2 theta)] of the polar angle of a non-zero
    vector. *)
Lemma double_angle (x y : R) :
  (x, y) <> (0, 0) ->
  sin (2 * arctan2 y x) = 2 * x * y / (x * x + y * y)
  /\ cos (2 * arctan2 y x) = (x * x - y * y) / (x * x + y * y).
Proof.
  intros Hnz. unfold arctan2.
  assert (Hratio : x <> 0 ->
            2 * (y / x) / (1 + y / x * (y / x)) = 2 * x * y / (x * x + y * y)
            /\ (1 - y / x * (y / x)) / (1 + y / x * (y / x))
               = (x * x - y * y) / (x * x + y * y)).
  { intros Hx. assert (0 < x * x + y * y) by nra.
    split; field; split; try lra; nra. }
  destruct (double_atan (y / x)) as [Hsin Hcos].
  destruct (double_shift (atan (y / x))) as [Hs1 [Hc1 [Hs2 Hc2]]].
  destruct (Rlt_dec 0 x) as [Hx | Hx].
  - rewrite Hsin, Hcos. apply Hratio. lra.
  - destruct (Rlt_dec x 0) as [Hx' | Hx'].
    + destruct (Rle_dec 0 y) as [Hy | Hy].
      * rewrite Hs1, Hc1, Hsin, Hcos. apply Hratio. lra.
      * rewrite Hs2, Hc2, Hsin, Hcos. apply Hratio. lra.
    + assert (Hx0 : x = 0) by lra. subst x.
      assert (Hy0 : y <> 0) by (intros ->; apply Hnz; reflexivity).
      destruct (Rlt_dec 0 y) as [Hy | Hy].
      * replace (2 * (PI / 2)) with PI by field. rewrite sin_PI, cos_PI.
        split; field; lra.
      * destruct (Rlt_dec y 0) as [Hy' | Hy']; [| lra].
        replace (2 * (- PI / 2)) with (- PI) by field.
        rewrite sin_neg, cos_neg, sin_PI, cos_PI.
        split; field; lra.
Qed.

(** ** The two forms of the dyadic Green's function *)

Section GreenForms.

Context `{SF : SpecialFunctions}.

(** X11.  Where the Hankel functions obey the three-term recurrence
    [H_2(z) = (2/z) H_1(z) - H_0(z)] at [z = k |d|], the Cartesian form
    [Interaction.green] of [plasmonic_lattice.py] is [k^2] times the
    trigonometric form [green_dyadic] of [ewald_test.py], component by
    component, at every non-zero separation [d] and frequency [w <> 0]. *)
Theorem green_forms_agree (self : EwaldTest.Interaction.t) (w : R) (d lat_vec : vec) :
  d <> (0, 0) ->
  w <> 0 ->
  hankel1 2 (w * ev * norm d)
  = (RtoC (2 / (w * ev * norm d)) * hankel1 1 (w * ev * norm d)
     - hankel1 0 (w * ev * norm d))%C ->
  let g := EwaldTest.Interaction.green_dyadic self w d lat_vec in
  Interaction.green w d
  = mkMat2 (RtoC ((w * ev) ^ 2) * EwaldTest.d_xx g)%C
           (RtoC ((w * ev) ^ 2) * EwaldTest.d_xy g)%C
           (RtoC ((w * ev) ^ 2) * EwaldTest.d_xy g)%C
           (RtoC ((w * ev) ^ 2) * EwaldTest.d_yy g)%C.
Proof.
  intros Hd Hw Hrec g. subst g.
  unfold Interaction.green, EwaldTest.Interaction.green_dyadic.
  cbv zeta. cbn [EwaldTest.d_xx EwaldTest.d_xy EwaldTest.d_yy].
  destruct d as [x y]. cbn [fst snd] in *.
  destruct (double_angle x y Hd) as [Hsin Hcos]. rewrite Hsin, Hcos.
  rewrite Hrec.
  assert (Hk : w * ev <> 0).
  { apply Rmult_integral_contrapositive_currified; [exact Hw |].
    assert (He := ev_pos). lra. }
  assert (Hs : 0 < x * x + y * y).
  { assert (x <> 0 \/ y <> 0).
    { destruct (Req_dec_T x 0) as [-> | Hx]; [| left; exact Hx].
      right. intros ->. apply Hd. reflexivity. }
    nra. }
  assert (HR : norm (x, y) * norm (x, y) = x * x + y * y).
  { unfold norm. cbn [fst snd]. apply sqrt_sqrt. lra. }
  assert (HR0 : norm (x, y) <> 0).
  { intros Hz. rewrite Hz in HR. lra. }
  set (k := w * ev) in *. set (r := norm (x, y)) in *.
  replace (r ^ 2) with (x * x + y * y) by (rewrite <- HR; ring).
  replace (r ^ 3) with (r * (x * x + y * y)) by (rewrite <- HR; ring).
  generalize (hankel1 0 (k * r)) (hankel1 1 (k * r)). intros h0 h1.
  destruct h0 as [a b], h1 as [c e].
  rewrite Cdiv_RtoC.
  replace 0.25 with (/ 4) by lra. replace 0.125 with (/ 8) by lra.
  f_equal; apply C_eq; simpl; field; repeat split; lra.
Qed.

End GreenForms.

Lemma sample_recurrence (z : R) :
  @hankel1 Sample.special_recurrent 2 z
  = (RtoC (2 / z) * @hankel1 Sample.special_recurrent 1 z
     - @hankel1 Sample.special_recurrent 0 z)%C.
Proof. reflexivity. Qed.

Lemma green_forms_agree_witness :
  @Interaction.green Sample.special_recurrent 1 (1, 0)
  = (let g := @EwaldTest.Interaction.green_dyadic Sample.special_recurrent
                (EwaldTest.Interaction.init (0, 0) Sample.lattice 0 (0, 0) true)
                1 (1, 0) (0, 0) in
     mkMat2 (RtoC ((1 * ev) ^ 2) * EwaldTest.d_xx g)%C
            (RtoC ((1 * ev) ^ 2) * EwaldTest.d_xy g)%C
            (RtoC ((1 * ev) ^ 2) * EwaldTest.d_xy g)%C
            (RtoC ((1 * ev) ^ 2) * EwaldTest.d_yy g)%C).
Proof.
  apply (@green_forms_agree Sample.special_recurrent).
  - intros Heq. injection Heq as H1. lra.
  - lra.
  - apply sample_recurrence.
Defined.

(** ** The memoising decorator, called twice *)

Section MemoizeCalls.

Context {K V : Type} (K_eq_dec : forall a b : K, {a = b} + {a <> b}).

(** X12.  With a coherent dictionary a decorated call returns the value of
    the function under it, leaves the dictionary coherent, and stores that
    value under the argument tuple. *)
Theorem memoize_round_trip (f : K -> V) (args : K) (cache : list (K * V)) :
  cache_coherent K_eq_dec f cache ->
  fst (memoize K_eq_dec f args cache) = f args
  /\ cache_coherent K_eq_dec f (snd (memoize K_eq_dec f args cache))
  /\ cache_lookup K_eq_dec (snd (memoize K_eq_dec f args cache)) args = Some (f args).
Proof.
  intros Hc. destruct (memoize_transparent K_eq_dec f args cache Hc) as [Hv Hc'].
  split; [exact Hv |]. split; [exact Hc' |].
  unfold memoize.
  destruct (cache_lookup K_eq_dec cache args) as [v |] eqn:Hl; cbn [snd].
  - rewrite Hl. f_equal. apply Hc. exact Hl.
  - cbn [cache_lookup]. destruct (K_eq_dec args args) as [_ | Hne];
      [reflexivity | contradiction].
Qed.

(** X13.  A second decorated call with the same arguments returns what the
    first returned and leaves the dictionary as the first left it, whatever
    the dictionary held before. *)
Theorem memoize_second_call (f : K -> V) (args : K) (cache : list (K * V)) :
  memoize K_eq_dec f args (snd (memoize K_eq_dec f args cache))
  = memoize K_eq_dec f args cache.
Proof.
  unfold memoize at 2 3.
  destruct (cache_lookup K_eq_dec cache args) as [v |] eqn:Hl; cbn [snd].
  - unfold memoize. rewrite Hl. reflexivity.
  - unfold memoize. cbn [cache_lookup].
    destruct (K_eq_dec args args) as [_ | Hne]; [reflexivity | contradiction].
Qed.

End MemoizeCalls.

Lemma memoize_round_trip_witness :
  fst (memoize Nat.eq_dec S 0%nat []) = 1%nat
  /\ cache_coherent Nat.eq_dec S (snd (memoize Nat.eq_dec S 0%nat []))
  /\ cache_lookup Nat.eq_dec (snd (memoize Nat.eq_dec S 0%nat [])) 0%nat = Some 1%nat.
Proof.
  apply (memoize_round_trip Nat.eq_dec S 0%nat []).
  intros k v Hk. discriminate Hk.
Defined.

(** ** How many points a square lattice has *)

Lemma length_arange (lo hi : Z) : length (arange lo hi) = Z.to_nat (hi - lo).
Proof. unfold arange. rewrite length_map, length_seq. reflexivity. Qed.

Lemma filter_one {A : Type} (p : A -> bool) (a : A) (l : list A) :
  NoDup l -> (forall x, p x = true <-> x = a) ->
  length (filter p l) = if existsb p l then 1%nat else 0%nat.
Proof.
  intros Hnd Hp. induction Hnd as [| x l Hx Hnd IH]; [reflexivity |].
  cbn [filter existsb]. destruct (p x) eqn:Hpx.
  - cbn [orb length]. apply Hp in Hpx. subst x.
    assert (Hnone : filter p l = []).
    { clear IH Hnd. induction l as [| y l IHl]; [reflexivity |].
      cbn [filter]. destruct (p y) eqn:Hpy.
      - apply Hp in Hpy. subst y. exfalso. apply Hx. left; reflexivity.
      - apply IHl. intros Hin. apply Hx. right; exact Hin. }
    rewrite Hnone. reflexivity.
  - cbn [orb]. exact IH.
Qed.

(** The lengths of the two point lists in terms of the number [k] of
    integers in [-neighbours .. neighbours]; at [k = 0] both lists are
    empty. *)
Lemma Square_lengths (s : Square.t) (_type : lattice_type) :
  let k := Z.to_nat (2 * Square.neighbours s + 1) in
  length (Square.getLattice s _type true) = (k * k)%nat
  /\ length (Square.getLattice s _type false) = (k * k - 1)%nat.
Proof.
  intros k. rewrite !Square_getLattice_indexed.
  destruct (match _type with
            | bravais => Square.getLatticeVectors s
            | reciprocal => Square.getReciprocalVectors s
            end) as [t1 t2].
  cbv zeta. rewrite !length_map.
  set (rng := arange (- Square.neighbours s) (Square.neighbours s + 1)).
  assert (Hrng : length rng = k).
  { unfold rng, k. rewrite length_arange. f_equal. lia. }
  assert (Hgrid : length (list_prod rng rng) = (k * k)%nat)
    by (rewrite length_prod, Hrng; reflexivity).
  split; [exact Hgrid |].
  assert (Hsplit := filter_length nonzero_index (list_prod rng rng)).
  rewrite Hgrid in Hsplit.
  assert (Hone : length (filter (fun ij => negb (nonzero_index ij)) (list_prod rng rng))
                 = if (k =? 0)%nat then 0%nat else 1%nat).
  { rewrite (filter_one _ (0%Z, 0%Z)).
    - destruct (k =? 0)%nat eqn:Hk.
      + apply Nat.eqb_eq in Hk. rewrite Hk in Hgrid.
        destruct (list_prod rng rng); [reflexivity | discriminate Hgrid].
      + apply Nat.eqb_neq in Hk.
        replace (existsb (fun ij => negb (nonzero_index ij)) (list_prod rng rng))
          with true; [reflexivity |].
        symmetry. apply existsb_exists. exists (0%Z, 0%Z). split; [| reflexivity].
        apply in_prod; apply in_arange; unfold k in Hk; lia.
    - apply NoDup_grid; apply NoDup_arange.
    - intros [i j]. unfold nonzero_index.
      rewrite negb_true_iff, orb_false_iff, !negb_false_iff, !Z.eqb_eq.
      split; [intros [-> ->]; reflexivity | intros Heq; injection Heq as -> ->; auto]. }
  destruct (k =? 0)%nat eqn:Hk.
  - apply Nat.eqb_eq in Hk. rewrite Hk in *. simpl in *. lia.
  - lia.
Qed.

(** X14.  With [neighbours = N >= 0], [Square.getLattice] returns
    [(2N + 1)^2] points with the origin and [(2N + 1)^2 - 1] without it, for
    either lattice type. *)
Theorem Square_point_count (s : Square.t) (_type : lattice_type) :
  (0 <= Square.neighbours s)%Z ->
  Z.of_nat (length (Square.getLattice s _type true))
  = ((2 * Square.neighbours s + 1) ^ 2)%Z
  /\ Z.of_nat (length (Square.getLattice s _type false))
     = ((2 * Square.neighbours s + 1) ^ 2 - 1)%Z.
Proof.
  intros HN. destruct (Square_lengths s _type) as [Hfull Hpunct].
  rewrite Hfull, Hpunct.
  set (number := Square.neighbours s) in *.
  assert (Hk : Z.of_nat (Z.to_nat (2 * number + 1)) = (2 * number + 1)%Z)
    by (apply Z2Nat.id; lia).
  assert (Hge : (1 <= Z.to_nat (2 * number + 1) * Z.to_nat (2 * number + 1))%nat)
    by (assert (1 <= Z.to_nat (2 * number + 1))%nat by lia; nia).
  rewrite Nat2Z.inj_sub by exact Hge.
  rewrite Nat2Z.inj_mul, Hk. split; ring.
Qed.

Lemma Square_point_count_witness :
  Z.of_nat (length (Square.getLattice Sample.square1 bravais true))
  = ((2 * Square.neighbours Sample.square1 + 1) ^ 2)%Z
  /\ Z.of_nat (length (Square.getLattice Sample.square1 bravais false))
     = ((2 * Square.neighbours Sample.square1 + 1) ^ 2 - 1)%Z.
Proof.
  apply (Square_point_count Sample.square1 bravais). simpl. lia.
Defined.

(** ** The Drude permittivity and the two polarisabilities *)

(** X15.  At a non-zero real frequency the permittivity of a particle is
    [1 - wp^2 / (w^2 + loss^2)] in its real part and
    [- wp^2 loss / (w (w^2 + loss^2))] in its imaginary part; with positive
    frequency and loss and a non-zero plasma frequency the imaginary part is
    negative. *)
Theorem getPermittivity_closed_form (self : Particle) (w : R) :
  w <> 0 ->
  getPermittivity self w
  = mkC (1 - plasma self ^ 2 / (w ^ 2 + loss self ^ 2))
        (- (plasma self ^ 2 * loss self / (w * (w ^ 2 + loss self ^ 2))))
  /\ (0 < w -> 0 < loss self -> plasma self <> 0 ->
      Im (getPermittivity self w) < 0).
Proof.
  intros Hw.
  assert (Hsq : w ^ 2 + loss self ^ 2 <> 0).
  { assert (w ^ 2 <> 0) by (apply pow_nonzero; exact Hw).
    assert (0 <= w ^ 2) by apply pow2_ge_0.
    assert (0 <= loss self ^ 2) by apply pow2_ge_0. lra. }
  assert (Heq : getPermittivity self w
                = mkC (1 - plasma self ^ 2 / (w ^ 2 + loss self ^ 2))
                      (- (plasma self ^ 2 * loss self / (w * (w ^ 2 + loss self ^ 2))))).
  { assert (Hden : w * w * (w * w) + - (loss self * w) * - (loss self * w) <> 0).
    { replace (w * w * (w * w) + - (loss self * w) * - (loss self * w))
        with (w * w * (w ^ 2 + loss self ^ 2)) by ring.
      repeat apply Rmult_integral_contrapositive_currified; assumption. }
    unfold getPermittivity. apply C_eq; simpl; field; repeat split; try assumption;
      (intros H0; apply Hsq; rewrite <- H0; ring). }
  split; [exact Heq |].
  intros Hpos Hloss Hwp. rewrite Heq. cbn [Im].
  assert (plasma self ^ 2 <> 0) by (apply pow_nonzero; exact Hwp).
  assert (0 <= plasma self ^ 2) by apply pow2_ge_0.
  assert (0 < plasma self ^ 2) by lra.
  assert (0 <= w ^ 2) by apply pow2_ge_0.
  assert (0 <= loss self ^ 2) by apply pow2_ge_0.
  assert (0 < w ^ 2 + loss self ^ 2) by lra.
  assert (0 < plasma self ^ 2 * loss self / (w * (w ^ 2 + loss self ^ 2))).
  { apply Rdiv_lt_0_compat; apply Rmult_lt_0_compat; assumption. }
  lra.
Qed.

Lemma getPermittivity_closed_form_witness :
  getPermittivity (mkParticle (0, 0) 1 1 1) 1
  = mkC (1 - 1 ^ 2 / (1 ^ 2 + 1 ^ 2)) (- (1 ^ 2 * 1 / (1 * (1 ^ 2 + 1 ^ 2))))
  /\ (0 < 1 -> 0 < 1 -> 1 <> 0 ->
      Im (getPermittivity (mkParticle (0, 0) 1 1 1) 1) < 0).
Proof.
  apply (getPermittivity_closed_form (mkParticle (0, 0) 1 1 1) 1). lra.
Defined.

(** X16.  The archived [polar] is the reciprocal of the polarisability that
    [Particle.getPolarisability] gives a particle of the same radius and
    plasma frequency and the opposite loss. *)
Theorem polar_is_inverse_polarisability (w wp gamma a : R) (centre : vec) :
  ExtendedCell.polar w wp gamma a
  = (RtoC 1 / getPolarisability (mkParticle centre a wp (- gamma)) w)%C.
Proof.
  unfold ExtendedCell.polar, getPolarisability, getPermittivity.
  cbn [radius plasma loss].
  replace (RtoC (w ^ 2) - Ci * RtoC (- gamma) * RtoC w)%C
    with (RtoC (w ^ 2) + Ci * RtoC gamma * RtoC w)%C by c_ring.
  set (eps := (RtoC 1 - RtoC (wp ^ 2) / (RtoC (w ^ 2) + Ci * RtoC gamma * RtoC w))%C).
  set (e := ((eps - RtoC 1) / (eps + RtoC 1))%C).
  cbv zeta.
  replace (RtoC 1 - mkC 0 0.25 * RtoC PI * RtoC ((w * ev * a) ^ 2) * e)%C
    with (RtoC 1 - Ci * RtoC ((w * ev) ^ 2 / 8) * (RtoC (2 * PI * a ^ 2) * e))%C.
  - reflexivity.
  - destruct e as [x y]. replace 0.25 with (/ 4) by lra.
    apply C_eq; simpl; field.
Qed.

(** ** The archived assembler under a reversed wavevector *)

Section ArchivedReversal.

Context `{SF : SpecialFunctions}.

Lemma archived_upper_block (intracell intercell : list vec) (w : R) (q : vec)
  (n m : nat) (pn pm : vec) :
  (length intracell <= 6)%nat ->
  (n < m)%nat ->
  nth_error intracell n = Some pn ->
  nth_error intracell m = Some pm ->
  exists Hmat,
    ExtendedCell.interactions intracell intercell w q = Some Hmat
    /\ get_block Hmat n m
       = mat2_sum
           (map (fun inter =>
                   let d := vadd (vadd (vneg pn) pm) inter in
                   mat2_scale (ExtendedCell.green (w * ev) d)
                              (Cexp (Ci * RtoC (dot q d))))
                intercell).
Proof.
  intros Hlen Hnm Hpn Hpm.
  assert (Hm : (m < length intracell)%nat)
    by (apply nth_error_Some; rewrite Hpm; discriminate).
  unfold ExtendedCell.interactions.
  replace (6 <? length intracell)%nat with false
    by (symmetry; apply Nat.ltb_ge; exact Hlen).
  cbn [andb].
  pose (block := fun (flip : bool) (a b : nat) =>
          mat2_sum
            (map (fun inter =>
                    let d0 := vadd (vadd (vneg (nth a intracell (0, 0)))
                                         (nth b intracell (0, 0))) inter in
                    let d := if flip then vneg d0 else d0 in
                    mat2_scale (ExtendedCell.green (w * ev) d)
                               (Cexp (Ci * RtoC (dot q d))))
                 intercell)).
  pose (D := fun a b : nat => if (a <? b)%nat then block false a b else block true b a).
  rewrite (foldM_total _ (pair_step D)).
  2:{ intros Hacc [a b] Hin. apply in_combinations2_seq in Hin.
      destruct (nth_error intracell a) as [pa |] eqn:Ea;
        [| apply nth_error_None in Ea; lia].
      destruct (nth_error intracell b) as [pb |] eqn:Eb;
        [| apply nth_error_None in Eb; lia].
      rewrite (mapM_total _
                 (fun inter =>
                    let d := vadd (vadd (vneg pa) pb) inter in
                    mat2_scale (ExtendedCell.green (w * ev) d)
                               (Cexp (Ci * RtoC (dot q d)))))
        by (intros inter _; reflexivity).
      cbn [bind].
      rewrite (mapM_total _
                 (fun inter =>
                    let d := vneg (vadd (vadd (vneg pa) pb) inter) in
                    mat2_scale (ExtendedCell.green (w * ev) d)
                               (Cexp (Ci * RtoC (dot q d)))))
        by (intros inter _; reflexivity).
      cbn [bind]. unfold pair_step, D.
      replace (a <? b)%nat with true by (symmetry; apply Nat.ltb_lt; lia).
      replace (b <? a)%nat with false by (symmetry; apply Nat.ltb_ge; lia).
      unfold block.
      rewrite (nth_error_nth intracell a (0, 0) Ea),
              (nth_error_nth intracell b (0, 0) Eb).
      reflexivity. }
  cbn [bind]. eexists. split; [reflexivity |].
  rewrite diagonal_loop_off_diagonal by lia.
  rewrite (pair_loop_upper D).
  - unfold D. replace (n <? m)%nat with true by (symmetry; apply Nat.ltb_lt; lia).
    unfold block.
    rewrite (nth_error_nth intracell n (0, 0) Hpn),
            (nth_error_nth intracell m (0, 0) Hpm).
    reflexivity.
  - intros a b Hin. apply in_combinations2_seq in Hin. lia.
  - lia.
  - right. apply in_combinations2_seq. lia.
Qed.

Lemma dot_vneg_l (q d : vec) : dot (vneg q) d = dot q (vneg d).
Proof. unfold dot, vneg; simpl. ring. Qed.

(** X17.  For up to six particles and any list of intercell vectors, the
    archived [interactions] never raises, and reversing the wavevector
    exchanges the two blocks of a pair: block [(m, n)] at [q] is block
    [(n, m)] at [-q], and conversely. *)
Theorem archived_blocks_reversal (intracell intercell : list vec) (w : R) (q : vec)
  (n m : nat) :
  (length intracell <= 6)%nat ->
  (n < m < length intracell)%nat ->
  exists Hmat Hrev,
    ExtendedCell.interactions intracell intercell w q = Some Hmat
    /\ ExtendedCell.interactions intracell intercell w (vneg q) = Some Hrev
    /\ get_block Hmat m n = get_block Hrev n m
    /\ get_block Hmat n m = get_block Hrev m n.
Proof.
  intros Hlen [Hnm Hm].
  destruct (nth_error intracell n) as [pn |] eqn:Hpn;
    [| apply nth_error_None in Hpn; lia].
  destruct (nth_error intracell m) as [pm |] eqn:Hpm;
    [| apply nth_error_None in Hpm; lia].
  destruct (archived_lower_block intracell intercell w q n m pn pm Hlen Hnm Hpn Hpm)
    as [Hmat [Hq Hlow]].
  destruct (archived_upper_block intracell intercell w q n m pn pm Hlen Hnm Hpn Hpm)
    as [Hmat' [Hq' Hup]].
  rewrite Hq in Hq'. injection Hq' as <-.
  destruct (archived_lower_block intracell intercell w (vneg q) n m pn pm
              Hlen Hnm Hpn Hpm) as [Hrev [Hr Hrlow]].
  destruct (archived_upper_block intracell intercell w (vneg q) n m pn pm
              Hlen Hnm Hpn Hpm) as [Hrev' [Hr' Hrup]].
  rewrite Hr in Hr'. injection Hr' as <-.
  exists Hmat, Hrev. split; [exact Hq |]. split; [exact Hr |].
  rewrite Hlow, Hup, Hrlow, Hrup.
  split; f_equal; apply map_ext; intros inter; cbv zeta.
  - rewrite ExtendedCell_green_even, dot_vneg_l. reflexivity.
  - rewrite ExtendedCell_green_even, dot_vneg_l.
    replace (vneg (vneg (vadd (vadd (vneg pn) pm) inter)))
      with (vadd (vadd (vneg pn) pm) inter)
      by (unfold vneg, vadd; simpl; f_equal; ring).
    reflexivity.
Qed.

End ArchivedReversal.

Lemma archived_blocks_reversal_witness :
  exists Hmat Hrev,
    @ExtendedCell.interactions Sample.special [(0, 0); (1, 0)] [(0, 1)] 1 (1, 0)
    = Some Hmat
    /\ @ExtendedCell.interactions Sample.special [(0, 0); (1, 0)] [(0, 1)] 1
         (vneg (1, 0)) = Some Hrev
    /\ get_block Hmat 1 0 = get_block Hrev 0 1
    /\ get_block Hmat 0 1 = get_block Hrev 1 0.
Proof.
  apply (@archived_blocks_reversal Sample.special [(0, 0); (1, 0)] [(0, 1)] 1 (1, 0)
           0%nat 1%nat).
  - simpl. repeat constructor.
  - simpl. split; repeat constructor.
Defined.

(** ** The self-term integral at truncation order zero *)

Section SingleTerm.

Context {L : Type} `{SF : SpecialFunctions}.

(** X18.  With [j_max = 0] the loop of [t2IntegralFunc] runs once, so in both
    files [t2IntegralFunc] with offset 1 agrees with [integralFunc]. *)
Theorem t2IntegralFunc_single_term (self : Ewald.t L) (self' : EwaldTest.Ewald.t)
  (s w : R) :
  Ewald.j_max self = 0%nat ->
  EwaldTest.Ewald.j_max self' = 0%nat ->
  Ewald.t2IntegralFunc self s w 1 = Ewald.integralFunc self s w
  /\ EwaldTest.Ewald.t2IntegralFunc self' s w 1
     = EwaldTest.Ewald.integralFunc self' s w.
Proof.
  intros Hj Hj'.
  unfold Ewald.t2IntegralFunc, Ewald.integralFunc,
    EwaldTest.Ewald.t2IntegralFunc, EwaldTest.Ewald.integralFunc, Rfor_sum.
  rewrite Hj, Hj'. simpl. split; ring.
Qed.

End SingleTerm.

Lemma t2IntegralFunc_single_term_witness :
  @Ewald.t2IntegralFunc Square.t Sample.special
    (Ewald.mk (0, 0) Sample.square0 (0, 0) ev 0) 1 1 1
  = @Ewald.integralFunc Square.t Sample.special
      (Ewald.mk (0, 0) Sample.square0 (0, 0) ev 0) 1 1
  /\ @EwaldTest.Ewald.t2IntegralFunc Sample.special
       (EwaldTest.Ewald.init ev 0 (1, 0) Sample.lattice 0 (0, 0) 0 0) 1 1 1
     = @EwaldTest.Ewald.integralFunc Sample.special
         (EwaldTest.Ewald.init ev 0 (1, 0) Sample.lattice 0 (0, 0) 0 0) 1 1.
Proof.
  apply (@t2IntegralFunc_single_term Square.t Sample.special
           (Ewald.mk (0, 0) Sample.square0 (0, 0) ev 0)
           (EwaldTest.Ewald.init ev 0 (1, 0) Sample.lattice 0 (0, 0) 0 0) 1 1);
    reflexivity.
Defined.

(** ** The neighbours of the origin *)

Lemma filter_unique {A : Type} (p : A -> bool) (a : A) (l : list A) :
  NoDup l -> In a l -> (forall x, p x = true <-> x = a) -> filter p l = [a].
Proof.
  intros Hnd Hin Hp. induction Hnd as [| x l Hx Hnd IH]; [contradiction |].
  assert (Hnone : forall l', ~ In a l' -> filter p l' = []).
  { induction l' as [| y l' IHl]; intros Hy; [reflexivity |].
    cbn [filter]. destruct (p y) eqn:Hpy.
    - apply Hp in Hpy. subst y. exfalso. apply Hy. left; reflexivity.
    - apply IHl. intros Hin'. apply Hy. right; exact Hin'. }
  cbn [filter]. destruct (p x) eqn:Hpx.
  - apply Hp in Hpx. subst x. rewrite (Hnone l Hx). reflexivity.
  - destruct Hin as [-> | Hin].
    + assert (Ha : p a = true) by (apply Hp; reflexivity). congruence.
    + apply IH. exact Hin.
Qed.

Lemma filter_split_permutation {A : Type} (p : A -> bool) (l : list A) :
  Permutation l (filter (fun x => negb (p x)) l ++ filter p l).
Proof.
  induction l as [| x l IH]; [constructor |].
  cbn [filter]. destruct (p x); cbn [negb].
  - apply Permutation_cons_app. exact IH.
  - cbn [app]. constructor. exact IH.
Qed.

(** X19.  [Square.getNeighbours] returns what [getLattice('bravais', False)]
    returns, and with a non-negative [neighbours] the lattice with its origin
    is the origin together with those neighbours, up to order. *)
Theorem getNeighbours_completes_lattice (s : Square.t) :
  (0 <= Square.neighbours s)%Z ->
  Square.getNeighbours s = Square.getLattice s bravais false
  /\ Permutation (Square.getLattice s bravais true) ((0, 0) :: Square.getNeighbours s).
Proof.
  intros HN.
  assert (Heq : Square.getNeighbours s = Square.getLattice s bravais false).
  { unfold Square.getNeighbours, Square.getLattice.
    destruct (Square.getLatticeVectors s) as [t1 t2]. reflexivity. }
  split; [exact Heq |]. rewrite Heq, !Square_getLattice_indexed.
  destruct (Square.getLatticeVectors s) as [t1 t2]. cbv zeta.
  set (rng := arange (- Square.neighbours s) (Square.neighbours s + 1)).
  rewrite <- (zero_combination t1 t2).
  change (vadd (vscale (IZR 0) t1) (vscale (IZR 0) t2))
    with (combination t1 t2 (0%Z, 0%Z)).
  change (combination t1 t2 (0%Z, 0%Z)
          :: map (combination t1 t2) (filter nonzero_index (list_prod rng rng)))
    with (map (combination t1 t2)
              ([(0%Z, 0%Z)] ++ filter nonzero_index (list_prod rng rng))).
  apply Permutation_map.
  rewrite <- (filter_unique (fun ij => negb (nonzero_index ij)) (0%Z, 0%Z)
                (list_prod rng rng)).
  - apply filter_split_permutation.
  - apply NoDup_grid; apply NoDup_arange.
  - apply in_prod; apply in_arange; lia.
  - intros [i j]. unfold nonzero_index.
    rewrite negb_true_iff, orb_false_iff, !negb_false_iff, !Z.eqb_eq.
    split; [intros [-> ->]; reflexivity | intros H; injection H as -> ->; auto].
Qed.

Lemma getNeighbours_completes_lattice_witness :
  Square.getNeighbours Sample.square1 = Square.getLattice Sample.square1 bravais false
  /\ Permutation (Square.getLattice Sample.square1 bravais true)
                 ((0, 0) :: Square.getNeighbours Sample.square1).
Proof.
  apply (getNeighbours_completes_lattice Sample.square1). simpl. lia.
Defined.

(** ** How many cells the hexagonal supercell has *)

Lemma arange_cons (lo hi : Z) :
  (lo < hi)%Z -> arange lo hi = lo :: arange (lo + 1) hi.
Proof.
  intros Hlt. unfold arange.
  replace (Z.to_nat (hi - lo)) with (S (Z.to_nat (hi - (lo + 1)))) by lia.
  cbn [seq map]. f_equal; [lia |].
  rewrite <- seq_shift, map_map. apply map_ext. intros i. lia.
Qed.

Lemma arange_snoc (lo hi : Z) :
  (lo <= hi)%Z -> arange lo (hi + 1) = arange lo hi ++ [hi].
Proof.
  intros Hle. unfold arange.
  replace (Z.to_nat (hi + 1 - lo)) with (S (Z.to_nat (hi - lo))) by lia.
  rewrite seq_S, map_app. cbn [map]. do 2 f_equal. lia.
Qed.

Lemma list_sum_single (x : nat) : list_sum [x] = x.
Proof. simpl. lia. Qed.

Lemma hexagon_rows_count (number : Z) (k : nat) :
  (Z.of_nat k <= number)%Z ->
  Z.of_nat
    (list_sum
       (map (fun n =>
               length
                 (map (pair n)
                      (if (n <? 0)%Z then arange (- n - number) (number + 1)
                       else if (0 <? n)%Z then arange (- number) (number - n + 1)
                       else arange (- number) (number + 1))))
            (arange (- Z.of_nat k) (Z.of_nat k + 1))))
  = ((2 * Z.of_nat k + 1) * (2 * number + 1) - Z.of_nat k * (Z.of_nat k + 1))%Z.
Proof.
  induction k as [| k IH]; intros Hk.
  - change (arange (- Z.of_nat 0) (Z.of_nat 0 + 1)) with [0%Z].
    cbn [map Z.ltb Z.compare]. rewrite list_sum_single, length_map, length_arange. lia.
  - replace (arange (- Z.of_nat (S k)) (Z.of_nat (S k) + 1))
      with ([(- Z.of_nat (S k))%Z]
            ++ arange (- Z.of_nat k) (Z.of_nat k + 1) ++ [Z.of_nat (S k)]).
    2:{ rewrite (arange_cons (- Z.of_nat (S k))) by lia.
        rewrite (arange_snoc _ (Z.of_nat (S k))) by lia.
        cbn [app]. do 2 f_equal; f_equal; lia. }
    rewrite !map_app, !list_sum_app. cbn [map]. rewrite !list_sum_single.
    specialize (IH ltac:(lia)).
    replace (- Z.of_nat (S k) <? 0)%Z with true by (symmetry; apply Z.ltb_lt; lia).
    replace (Z.of_nat (S k) <? 0)%Z with false by (symmetry; apply Z.ltb_ge; lia).
    replace (0 <? Z.of_nat (S k))%Z with true by (symmetry; apply Z.ltb_lt; lia).
    cbv beta iota. rewrite !length_map, !length_arange in *.
    rewrite !Nat2Z.inj_add, IH, !Z2Nat.id by lia.
    lia.
Qed.

(** X20.  With a non-negative [neighbours], [Honeycomb.getLattice('bravais', .)]
    returns [3 N^2 + 3 N + 1] lattice points, whatever the [origin] flag. *)
Theorem Honeycomb_point_count (s : Honeycomb.t) (origin : bool) :
  (0 <= Honeycomb.neighbours s)%Z ->
  exists pts,
    Honeycomb.getLattice s bravais origin = Some pts
    /\ Z.of_nat (length pts)
       = (3 * Honeycomb.neighbours s ^ 2 + 3 * Honeycomb.neighbours s + 1)%Z.
Proof.
  intros HN. unfold Honeycomb.getLattice.
  destruct (Honeycomb.getLatticeVectors s) as [t1 t2].
  eexists. split; [reflexivity |].
  rewrite Honeycomb_points_indexed, length_map. unfold hexagon_indices.
  rewrite length_flat_map.
  set (number := Honeycomb.neighbours s) in *.
  assert (Hk := hexagon_rows_count number (Z.to_nat number) ltac:(lia)).
  rewrite Z2Nat.id in Hk by exact HN.
  rewrite Hk. ring.
Qed.

Lemma Honeycomb_point_count_witness :
  exists pts,
    Honeycomb.getLattice (Honeycomb.mk 1 1 1 1 1 1) bravais true = Some pts
    /\ Z.of_nat (length pts) = (3 * 1 ^ 2 + 3 * 1 + 1)%Z.
Proof.
  apply (Honeycomb_point_count (Honeycomb.mk 1 1 1 1 1 1) true). simpl. lia.
Defined.

(** ** Reciprocal points against Bravais points *)

Lemma dual_combination (a1 a2 b1 b2 : vec) (i j k l : Z) :
  dot a1 b1 = 2 * PI -> dot a2 b2 = 2 * PI -> dot a1 b2 = 0 -> dot a2 b1 = 0 ->
  dot (combination b1 b2 (k, l)) (combination a1 a2 (i, j))
  = 2 * PI * IZR (k * i + l * j).
Proof.
  intros H11 H22 H12 H21.
  replace (dot (combination b1 b2 (k, l)) (combination a1 a2 (i, j)))
    with (IZR k * IZR i * dot a1 b1 + IZR k * IZR j * dot a2 b1
          + IZR l * IZR i * dot a1 b2 + IZR l * IZR j * dot a2 b2)
    by (unfold dot, combination, vadd, vscale; simpl; ring).
  rewrite H11, H22, H12, H21, plus_IZR, !mult_IZR. ring.
Qed.

Lemma whole_turns (n : Z) : cos (2 * PI * IZR n) = 1 /\ sin (2 * PI * IZR n) = 0.
Proof.
  assert (Hnat : forall k : nat,
            cos (2 * PI * INR k) = 1 /\ sin (2 * PI * INR k) = 0).
  { intros k.
    replace (2 * PI * INR k) with (0 + 2 * INR k * PI) by ring.
    rewrite cos_period, sin_period, cos_0, sin_0. split; reflexivity. }
  destruct (Z_le_gt_dec 0 n) as [Hpos | Hneg].
  - rewrite <- (Z2Nat.id n Hpos), <- INR_IZR_INZ. apply Hnat.
  - replace n with (- Z.of_nat (Z.to_nat (- n)))%Z by lia.
    rewrite opp_IZR, <- INR_IZR_INZ.
    replace (2 * PI * - INR (Z.to_nat (- n)))
      with (- (2 * PI * INR (Z.to_nat (- n)))) by ring.
    rewrite cos_neg, sin_neg.
    destruct (Hnat (Z.to_nat (- n))) as [-> ->]. split; [reflexivity | ring].
Qed.

Lemma dual_points (a1 a2 b1 b2 : vec) (idx idx' : list (Z * Z)) (R G : vec) :
  dot a1 b1 = 2 * PI -> dot a2 b2 = 2 * PI -> dot a1 b2 = 0 -> dot a2 b1 = 0 ->
  In R (map (combination a1 a2) idx) ->
  In G (map (combination b1 b2) idx') ->
  (exists n : Z, dot G R = 2 * PI * IZR n)
  /\ Cexp (Ci * RtoC (dot G R)) = RtoC 1.
Proof.
  intros H11 H22 H12 H21 HR HG.
  apply in_map_iff in HR. destruct HR as [[i j] [<- _]].
  apply in_map_iff in HG. destruct HG as [[k l] [<- _]].
  rewrite (dual_combination a1 a2 b1 b2 i j k l H11 H22 H12 H21).
  split; [eexists; reflexivity |].
  destruct (whole_turns (k * i + l * j)) as [Hc Hs].
  apply C_eq; simpl.
  - replace (0 * (2 * PI * IZR (k * i + l * j)) - 1 * 0) with 0 by ring.
    replace (0 * 0 + 1 * (2 * PI * IZR (k * i + l * j)))
      with (2 * PI * IZR (k * i + l * j)) by ring.
    rewrite exp_0, Hc. ring.
  - replace (0 * (2 * PI * IZR (k * i + l * j)) - 1 * 0) with 0 by ring.
    replace (0 * 0 + 1 * (2 * PI * IZR (k * i + l * j)))
      with (2 * PI * IZR (k * i + l * j)) by ring.
    rewrite exp_0, Hs. ring.
Qed.

(** X21.  When the lattice vectors are independent, every generated
    reciprocal point has with every generated Bravais point a dot product
    that is a whole multiple of [2 pi], so its Bloch phase is 1: for the
    [Lattice] of [ewald_test.py] and for [Square]. *)
Theorem reciprocal_points_integral (a1 a2 : vec) :
  cross a1 a2 <> 0 ->
  (forall (nb nr : Z) (ob or : bool) (R G : vec),
     let l := EwaldTest.Lattice.init a1 a2 in
     In R (EwaldTest.Lattice.genBravais l nb ob) ->
     In G (EwaldTest.Lattice.genReciprocal l nr or) ->
     (exists n : Z, dot G R = 2 * PI * IZR n)
     /\ Cexp (Ci * RtoC (dot G R)) = RtoC 1)
  /\ (forall (s : Square.t) (ob or : bool) (R G : vec),
        Square.getLatticeVectors s = (a1, a2) ->
        In R (Square.getLattice s bravais ob) ->
        In G (Square.getLattice s reciprocal or) ->
        (exists n : Z, dot G R = 2 * PI * IZR n)
        /\ Cexp (Ci * RtoC (dot G R)) = RtoC 1).
Proof.
  intros Hc. destruct (rot_construction a1 a2 Hc) as [H11 [H22 [H12 H21]]].
  split.
  - intros nb nr ob or R G l HR HG. unfold l in *.
    rewrite genBravais_indexed in HR. rewrite genReciprocal_indexed in HG.
    cbv zeta in HR, HG.
    exact (dual_points _ _ _ _ _ _ R G H11 H22 H12 H21 HR HG).
  - intros s ob or R G Hs HR HG.
    rewrite Square_getLattice_indexed in HR, HG.
    unfold Square.getReciprocalVectors in HG. rewrite Hs in HR, HG.
    cbv zeta in HR, HG.
    exact (dual_points _ _ _ _ _ _ R G H11 H22 H12 H21 HR HG).
Qed.

Lemma reciprocal_points_integral_witness :
  (forall (nb nr : Z) (ob or : bool) (R G : vec),
     let l := EwaldTest.Lattice.init (0, 1) (1, 0) in
     In R (EwaldTest.Lattice.genBravais l nb ob) ->
     In G (EwaldTest.Lattice.genReciprocal l nr or) ->
     (exists n : Z, dot G R = 2 * PI * IZR n)
     /\ Cexp (Ci * RtoC (dot G R)) = RtoC 1)
  /\ (forall (s : Square.t) (ob or : bool) (R G : vec),
        Square.getLatticeVectors s = ((0, 1), (1, 0)) ->
        In R (Square.getLattice s bravais ob) ->
        In G (Square.getLattice s reciprocal or) ->
        (exists n : Z, dot G R = 2 * PI * IZR n)
        /\ Cexp (Ci * RtoC (dot G R)) = RtoC 1).
Proof.
  apply (reciprocal_points_integral (0, 1) (1, 0)).
  unfold cross; simpl. lra.
Defined.

(** ** The honeycomb unit cell *)

Lemma norm_of_square (v : vec) (a : R) :
  fst v * fst v + snd v * snd v = a * a -> norm v = Rabs a.
Proof.
  intros Hv. unfold norm. rewrite Hv. apply sqrt_Rsqr_abs.
Qed.

Lemma hexagon_side (a r : R) :
  r * r = 3 -> a / 2 * (a / 2) + a * r / 2 * (a * r / 2) = a * a.
Proof.
  intros Hr.
  replace (a / 2 * (a / 2) + a * r / 2 * (a * r / 2))
    with (a * a / 4 * (1 + r * r)) by field.
  rewrite Hr. field.
Qed.

Ltac hexagon_norm Hside :=
  apply norm_of_square; cbn [fst snd vsub pos];
  first [ ring
        | replace 0.5 with (/ 2) by lra; field
        | rewrite <- Hside; replace 0.5 with (/ 2) by lra; field ].

(** X22.  The six particles of [Honeycomb.getUnitCell] are the corners of a
    regular hexagon about the origin: each is at distance [|spacing|] from
    the origin and from the next one, and the fourth, fifth and sixth are the
    opposites of the first three. *)
Theorem Honeycomb_unit_cell_regular (s : Honeycomb.t) (k : nat) :
  (k < 6)%nat ->
  let corner := fun i => pos (nth i (Honeycomb.getUnitCell s)
                                  (mkParticle (0, 0) 0 0 0)) in
  norm (corner k) = Rabs (Honeycomb.spacing s)
  /\ norm (vsub (corner k) (corner ((k + 1) mod 6)%nat)) = Rabs (Honeycomb.spacing s)
  /\ corner ((k + 3) mod 6)%nat = vneg (corner k).
Proof.
  intros Hk corner.
  assert (Hside := hexagon_side (Honeycomb.spacing s) (sqrt 3)
                     (sqrt_sqrt 3 ltac:(lra))).
  set (a := Honeycomb.spacing s) in *.
  unfold corner, Honeycomb.getUnitCell. fold a.
  destruct k as [| [| [| [| [| [| k]]]]]]; try lia;
    cbn [Nat.modulo Nat.divmod Nat.add fst snd Nat.sub map nth pos];
    (split; [| split]);
    try (unfold vneg; cbn [fst snd]; f_equal; lra).
  all: hexagon_norm Hside.
Qed.

Lemma Honeycomb_unit_cell_regular_witness :
  let corner := fun i => pos (nth i (Honeycomb.getUnitCell (Honeycomb.mk 1 1 1 1 1 1))
                                  (mkParticle (0, 0) 0 0 0)) in
  norm (corner 0%nat) = Rabs (Honeycomb.spacing (Honeycomb.mk 1 1 1 1 1 1))
  /\ norm (vsub (corner 0%nat) (corner ((0 + 1) mod 6)%nat))
     = Rabs (Honeycomb.spacing (Honeycomb.mk 1 1 1 1 1 1))
  /\ corner ((0 + 3) mod 6)%nat = vneg (corner 0%nat).
Proof.
  apply (Honeycomb_unit_cell_regular (Honeycomb.mk 1 1 1 1 1 1) 0%nat). lia.
Defined.

(** ** The archived square assembler *)

Section ArchivedSquare.

Context `{SF : SpecialFunctions}.

(** X23.  [square_supercell] on the lattice vectors of a [Square] returns the
    points of [Square.getLattice('bravais', False)], and on them
    [square_interactions], whose phase is [exp(-i q.R)], returns the block
    that [Interaction.interactionMatrix], whose phase is [exp(i q.R)],
    returns for the one-particle square cell. *)
Theorem archived_square_agrees (s : Square.t) (a : R) (cell intracell : list vec)
  (q : vec) (w : R) :
  let t1 := fst (Square.getLatticeVectors s) in
  let t2 := snd (Square.getLatticeVectors s) in
  let intercell := ExtendedCell.square_supercell a cell t1 t2 (Square.neighbours s) in
  intercell = Square.getLattice s bravais false
  /\ exists Hq,
       Interaction.interactionMatrix (Interaction.mk q s) w = Some Hq
       /\ get_block Hq 0 0 = ExtendedCell.square_interactions intracell intercell w q.
Proof.
  intros t1 t2 intercell.
  assert (Hpts : intercell = Square.getLattice s bravais false) by reflexivity.
  split; [exact Hpts |].
  eexists. split; [reflexivity |].
  unfold of_mat2. rewrite get_set_block_same, Hpts.
  unfold ExtendedCell.square_interactions.
  rewrite (mat2_sum_inversion
             (fun inter => mat2_scale (Interaction.green w inter)
                             (Interaction.bloch (Interaction.mk q s) inter))
             (Square.getLattice s bravais false)
             (Square_points_symmetric s bravais false)).
  f_equal. apply map_ext. intros R.
  rewrite Interaction_green_even. unfold Interaction.bloch. cbn [Interaction.q].
  replace (Ci * RtoC (dot q (vneg R)))%C with ((- Ci) * RtoC (dot q R))%C
    by (unfold dot, vneg; apply C_eq; simpl; ring).
  reflexivity.
Qed.

End ArchivedSquare.
